(** * TwitchBeanSpinner

    A shallow embedding of [main.py] and of the two stand-alone servers
    beside it.  First the coordination core of [main.py]: the two trigger
    sources ([eventsub], [on_spin_message]), the [spin_queue], the
    [spin_processor] loop, the [clients] registry and the [ws_spin]
    connection handler.  Then the OAuth routes and the startup.

    The program runs on a single-threaded asyncio event loop, so the code
    between two [await] points executes atomically.  Each such atomic block
    is one [event] of the transition system below; the scheduler and the
    network (which task runs next, whether a send succeeds, when time
    passes) are the schedule, a list of events.

    Left out: the [logging] calls and the thread in which the chat library
    runs its client (a call of [on_spin_message] is taken as one atomic
    block like the others). *)

From stdpp Require Import gmap strings list fin_maps pretty.
From Stdlib Require Import ZArith Ascii.
From Stdlib Require Import Floats.SpecFloat.

#[local] Set Warnings "-clear-no-such-hyp".

Local Open Scope Z_scope.
Local Open Scope nat_scope.

(** ** Python values and exceptions *)

(** A decoded JSON value, as [json.loads] builds it.  A number written
    with a fraction or an exponent is a [float], and so are [NaN],
    [Infinity] and [-Infinity], which [json.loads] accepts.  A [str] is the
    string of its UTF-8 bytes; a lone surrogate, which an escape such as
    [\ud800] produces, is written with the three bytes that the error
    handler [surrogatepass] gives it. *)
#[warnings="-register-all"]
Inductive json :=
| JNull
| JBool (b : bool)
| JInt (n : Z)
| JFloat (f : spec_float)
| JStr (s : string)
| JList (l : list json)
| JDict (d : gmap string json).

Inductive exn :=
| KeyError
| TypeError
| AttributeError
| ValueError
| UnicodeEncodeError
| TransportError.

Inductive result (A : Type) :=
| Ok (a : A)
| Raise (e : exn).
Arguments Ok {A} a.
Arguments Raise {A} e.

(** [bool(v)] *)
Definition truthy (v : json) : bool :=
  match v with
  | JNull => false
  | JBool b => b
  | JInt n => negb (n =? 0)%Z
  | JFloat f => match f with S754_zero _ => false | _ => true end
  | JStr s => match s with EmptyString => false | String _ _ => true end
  | JList l => match l with [] => false | _ :: _ => true end
  | JDict d => negb (bool_decide (d = ∅))
  end.

(** [d.get(k)] and [d.get(k, dflt)] on a dict *)
Definition dict_get (d : gmap string json) (k : string) : json :=
  default JNull (d !! k).

Definition dict_get_default (d : gmap string json) (k : string) (dflt : json) : json :=
  default dflt (d !! k).

(** [v.get(k)] on an arbitrary value: only a dict has the method *)
Definition method_get (v : json) (k : string) : result json :=
  match v with
  | JDict d => Ok (dict_get d k)
  | _ => Raise AttributeError
  end.

(** [v[k]] with a string key *)
Definition subscript (v : json) (k : string) : result json :=
  match v with
  | JDict d => match d !! k with Some x => Ok x | None => Raise KeyError end
  | _ => Raise TypeError
  end.

(** [v == "..."] and [v == n] for an [int] n ([True == 1] in Python) *)
Definition py_eq_str (v : json) (s : string) : bool :=
  match v with
  | JStr t => bool_decide (t = s)
  | _ => false
  end.

(** [f == n] for a [float] f: Python compares the exact values *)
Definition float_eq_int (f : spec_float) (n : Z) : bool :=
  match f with
  | S754_zero _ => (n =? 0)%Z
  | S754_finite sign m e =>
      let v := if sign then Z.neg m else Z.pos m in
      if (0 <=? e)%Z then (v * 2 ^ e =? n)%Z
      else (v mod 2 ^ (- e) =? 0)%Z && (v / 2 ^ (- e) =? n)%Z
  | S754_infinity _ | S754_nan => false
  end.

Definition py_eq_int (v : json) (n : Z) : bool :=
  match v with
  | JInt m => (m =? n)%Z
  | JBool b => (Z.b2z b =? n)%Z
  | JFloat f => float_eq_int f n
  | _ => false
  end.

(** ** [JSONResponse(content)]

    Starlette renders the content when the response is built:
    [json.dumps(content, ensure_ascii=False, allow_nan=False, ...)
    .encode("utf-8")]. *)

(** The bytes of a lone surrogate: [ED], then [A0] to [BF] *)
Fixpoint lone_surrogate (s : string) : bool :=
  match s with
  | String a (String b _ as r) =>
      (Ascii.nat_of_ascii a =? 237) && (160 <=? Ascii.nat_of_ascii b)
      || lone_surrogate r
  | _ => false
  end.

(** A float that [allow_nan=False] refuses, anywhere in the value *)
Fixpoint out_of_range (v : json) : bool :=
  match v with
  | JFloat S754_nan | JFloat (S754_infinity _) => true
  | JList l => existsb out_of_range l
  | JDict d => map_fold (λ _ x found, out_of_range x || found) false d
  | _ => false
  end.

(** A string or key that [encode("utf-8")] refuses, anywhere in the value *)
Fixpoint unencodable (v : json) : bool :=
  match v with
  | JStr s => lone_surrogate s
  | JList l => existsb unencodable l
  | JDict d =>
      map_fold (λ k x found, lone_surrogate k || unencodable x || found) false d
  | _ => false
  end.

(** The response holds the content; building it raises what the rendering
    raises *)
Definition JSONResponse (content : json) : result json :=
  if out_of_range content then Raise ValueError
  else if unencodable content then Raise UnicodeEncodeError
  else Ok content.

(** ** [spin_queue = asyncio.Queue()] *)

Module Queue.

Record t := mk {
  items : list string;        (* the deque, oldest first *)
  unfinished_tasks : nat;     (* put() minus task_done() *)
  put_log : list string;      (* history: every item ever put, in order *)
}.

Definition empty : t := mk [] 0 [].

(** [put]: the queue is unbounded, the call never blocks *)
Definition put (x : string) (q : t) : t :=
  mk (items q ++ [x]) (S (unfinished_tasks q)) (put_log q ++ [x]).

(** [get]: [None] stands for a consumer that stays suspended *)
Definition get (q : t) : option (string * t) :=
  match items q with
  | [] => None
  | x :: rest => Some (x, mk rest (unfinished_tasks q) (put_log q))
  end.

Definition task_done (q : t) : result t :=
  match unfinished_tasks q with
  | O => Raise ValueError
  | S n => Ok (mk (items q) n (put_log q))
  end.

End Queue.

(** ** Handlers that only touch the queue: a state and exception monad *)

Definition M (A : Type) : Type := Queue.t → result A * Queue.t.

#[global] Instance M_ret : MRet M := λ A a q, (Ok a, q).

#[global] Instance M_bind : MBind M := λ A B f m q,
  match m q with
  | (Ok a, q') => f a q'
  | (Raise e, q') => (Raise e, q')
  end.

Definition lift {A} (r : result A) : M A := λ q, (r, q).

Definition spin_queue_put (x : string) : M unit := λ q, (Ok tt, Queue.put x q).

Section Handlers.

(** [BIT_SPIN_AMOUNT = int(os.getenv("BIT_SPIN_AMOUNT", "555"))] *)
Variable BIT_SPIN_AMOUNT : Z.

Definition status_ok : json := JDict {[ "status" := JStr "ok" ]}.

(** [POST /eventsub] *)
Definition eventsub (webhook_payload : gmap string json) : M json :=
  if truthy (dict_get webhook_payload "challenge") then
    c ← lift (subscript (JDict webhook_payload) "challenge");
    lift (JSONResponse (JDict {[ "challenge" := c ]}))
  else
    stype ← lift (method_get
                    (dict_get_default webhook_payload "subscription" (JDict ∅))
                    "type");
    (if py_eq_str stype "channel.cheer" then
       ev ← lift (subscript (JDict webhook_payload) "event");
       bits ← lift (subscript ev "bits");
       ev' ← lift (subscript (JDict webhook_payload) "event");
       user ← lift (subscript ev' "user_name");
       if py_eq_int bits BIT_SPIN_AMOUNT then spin_queue_put "spin" else mret tt
     else mret tt);;
    mret status_ok.

End Handlers.

(** The chat library's [ChatCommand], as far as [on_spin_message] reads it *)
Record ChatUser := { user_name : string; user_mod : bool }.
Record ChatRoom := { room_name : string }.
Record ChatCommand := {
  cmd_name : string;
  cmd_user : ChatUser;
  cmd_room : ChatRoom;
}.

Definition on_spin_message (cmd : ChatCommand) : M unit :=
  if bool_decide (cmd_name cmd = "spin")
     && (user_mod (cmd_user cmd)
         || bool_decide (user_name (cmd_user cmd) = room_name (cmd_room cmd)))
  then spin_queue_put "spin"
  else mret tt.

(** ** The event loop state *)

(** The identity of a [WebSocket] object *)
Definition ws_id := nat.

(** [await asyncio.sleep(9)] *)
Definition COOLDOWN : nat := 9.

(** Where the [spin_processor] task is suspended *)
Inductive phase :=
| Idle                   (* in [spin_queue.get()] *)
| Gathering              (* in [asyncio.gather(...)] *)
| Cooling (until : nat)  (* in [asyncio.sleep(9)], due at [until] *)
| Crashed (e : exn).     (* ended by an exception nobody caught *)

(** History of one iteration of the processor loop *)
Record spin := {
  started : nat;              (* time at which [get()] returned *)
  token : string;             (* the value [get()] returned *)
  snapshot : gset ws_id;      (* [clients] when the list of sends was built *)
  delivered : gset ws_id;     (* members whose [send_text("spin")] returned *)
}.

Record state := {
  clients : gset ws_id;       (* [clients = set()] *)
  spin_queue : Queue.t;       (* [spin_queue = asyncio.Queue()] *)
  handlers : gset ws_id;      (* [ws_spin] tasks inside their receive loop *)
  proc : phase;               (* the [spin_processor] task *)
  inflight : gset ws_id;      (* sends of the current gather still running *)
  now : nat;                  (* the loop's clock, in seconds *)
  outbox : list (nat * ws_id * string);  (* every [send_text] that returned *)
  spins : list spin;          (* history, newest first *)
}.

Definition init : state :=
  {| clients := ∅; spin_queue := Queue.empty; handlers := ∅; proc := Idle;
     inflight := ∅; now := 0; outbox := []; spins := [] |}.

Definition set_clients (c : gset ws_id) (s : state) : state :=
  {| clients := c; spin_queue := spin_queue s; handlers := handlers s;
     proc := proc s; inflight := inflight s; now := now s;
     outbox := outbox s; spins := spins s |}.

Definition set_spin_queue (q : Queue.t) (s : state) : state :=
  {| clients := clients s; spin_queue := q; handlers := handlers s;
     proc := proc s; inflight := inflight s; now := now s;
     outbox := outbox s; spins := spins s |}.

Definition set_handlers (h : gset ws_id) (s : state) : state :=
  {| clients := clients s; spin_queue := spin_queue s; handlers := h;
     proc := proc s; inflight := inflight s; now := now s;
     outbox := outbox s; spins := spins s |}.

Definition set_proc (p : phase) (s : state) : state :=
  {| clients := clients s; spin_queue := spin_queue s; handlers := handlers s;
     proc := p; inflight := inflight s; now := now s;
     outbox := outbox s; spins := spins s |}.

Definition set_inflight (i : gset ws_id) (s : state) : state :=
  {| clients := clients s; spin_queue := spin_queue s; handlers := handlers s;
     proc := proc s; inflight := i; now := now s;
     outbox := outbox s; spins := spins s |}.

Definition set_now (t : nat) (s : state) : state :=
  {| clients := clients s; spin_queue := spin_queue s; handlers := handlers s;
     proc := proc s; inflight := inflight s; now := t;
     outbox := outbox s; spins := spins s |}.

Definition set_outbox (o : list (nat * ws_id * string)) (s : state) : state :=
  {| clients := clients s; spin_queue := spin_queue s; handlers := handlers s;
     proc := proc s; inflight := inflight s; now := now s;
     outbox := o; spins := spins s |}.

Definition set_spins (l : list spin) (s : state) : state :=
  {| clients := clients s; spin_queue := spin_queue s; handlers := handlers s;
     proc := proc s; inflight := inflight s; now := now s;
     outbox := outbox s; spins := l |}.

(** [send_text] that returned: the peer gets [text] *)
Definition send_text (ws : ws_id) (text : string) (s : state) : state :=
  set_outbox ((now s, ws, text) :: outbox s) s.

(** ** The connection registry: a Python [set] *)

Definition clients_add (ws : ws_id) (c : gset ws_id) : gset ws_id := {[ws]} ∪ c.

(** [set.remove] raises [KeyError] on a missing element *)
Definition clients_remove (ws : ws_id) (c : gset ws_id) : result (gset ws_id) :=
  if decide (ws ∈ c) then Ok (c ∖ {[ws]}) else Raise KeyError.

(** ** [ws_spin]: one task per websocket connection

    <<
    await ws.accept()
    clients.add(ws)                                  # [ws_accept]
    try:
        while True:
            msg = await ws.receive_text()
            await ws.send_text("ack")                # [ws_receive]
    except WebSocketDisconnect: ...
    finally:
        clients.remove(ws)                           # [ws_finally]
    >>

    An [accept] that fails registers nothing and is no event. *)

(** [await ws.accept(); clients.add(ws)]: the task enters its loop *)
Definition ws_accept (ws : ws_id) (s : state) : state :=
  set_handlers ({[ws]} ∪ handlers s) (set_clients (clients_add ws (clients s)) s).

(** The [finally] block; a [KeyError] would end the task and change nothing *)
Definition ws_finally (ws : ws_id) (s : state) : state :=
  let s := set_handlers (handlers s ∖ {[ws]}) s in
  match clients_remove ws (clients s) with
  | Ok c => set_clients c s
  | Raise _ => s
  end.

(** One turn of the loop: [receive_text] returned [msg], then
    [send_text("ack")] returns or raises *)
Definition ws_receive (ws : ws_id) (msg : string) (ack_ok : bool) (s : state) : state :=
  if ack_ok then send_text ws "ack" s else ws_finally ws s.

(** ** [spin_processor]: the single consumer

    <<
    while True:
        await spin_queue.get()                       # Idle; returns: [spin_begin]
        if clients:
            await asyncio.gather(                    # Gathering; each send: [send_done]
                *[ws.send_text("spin") for ws in clients])
        await asyncio.sleep(9)                       # Cooling
        spin_queue.task_done()                       # [spin_end]
    >>

    The list comprehension runs in the block in which [get()] returned, so
    the sends are those to the members of [clients] at that moment.  Nothing
    in the loop catches an exception: the one [gather] re-raises ends the
    task ([Crashed]). *)

Definition new_spin (tok : string) (s : state) : spin :=
  {| started := now s; token := tok; snapshot := clients s; delivered := ∅ |}.

(** From the return of [get()] to the next suspension *)
Definition spin_begin (tok : string) (q : Queue.t) (s : state) : state :=
  let s := set_spins (new_spin tok s :: spins s) (set_spin_queue q s) in
  if bool_decide (clients s ≠ ∅)
  then set_proc Gathering (set_inflight (clients s) s)
  else set_proc (Cooling (now s + COOLDOWN)) s.

Definition deliver (ws : ws_id) (sp : spin) : spin :=
  {| started := started sp; token := token sp; snapshot := snapshot sp;
     delivered := {[ws]} ∪ delivered sp |}.

Definition mark_delivered (ws : ws_id) (s : state) : state :=
  match spins s with
  | [] => s
  | sp :: rest => set_spins (deliver ws sp :: rest) s
  end.

(** One [send_text("spin")] of the gather finishes.  The gather returns
    once all have; it re-raises the first exception at once and leaves
    the other sends running. *)
Definition send_done (ws : ws_id) (ok : bool) (s : state) : state :=
  let s := set_inflight (inflight s ∖ {[ws]}) s in
  if ok then
    let s := mark_delivered ws (send_text ws "spin" s) in
    match proc s with
    | Gathering =>
        if bool_decide (inflight s = ∅)
        then set_proc (Cooling (now s + COOLDOWN)) s
        else s
    | _ => s
    end
  else
    match proc s with
    | Gathering => set_proc (Crashed TransportError) s
    | _ => s
    end.

(** After the sleep: [spin_queue.task_done()], back to [get()] *)
Definition spin_end (s : state) : state :=
  match Queue.task_done (spin_queue s) with
  | Ok q => set_proc Idle (set_spin_queue q s)
  | Raise e => set_proc (Crashed e) s
  end.

(** ** The transition system *)

Inductive event :=
| Cheer (webhook_payload : gmap string json)   (* a request to /eventsub *)
| ChatSpin (cmd : ChatCommand)                 (* the chat library calls [on_spin_message] *)
| WsConnect (ws : ws_id)                       (* a client connects to /ws/spin *)
| WsMessage (ws : ws_id) (msg : string) (ack_ok : bool)
| WsDisconnect (ws : ws_id)                    (* [receive_text] raises [WebSocketDisconnect] *)
| Take                                         (* [spin_queue.get()] returns *)
| SendDone (ws : ws_id) (ok : bool)            (* a send of the gather returns or raises *)
| Wake                                         (* [asyncio.sleep(9)] returns *)
| Tick.                                        (* one second passes *)

Section System.

Variable BIT_SPIN_AMOUNT : Z.

Definition guard (b : bool) (s : state) : option state :=
  if b then Some s else None.

(** [step e s] is [None] when [e] cannot happen in [s] *)
Definition step (e : event) (s : state) : option state :=
  match e with
  | Cheer p =>
      Some (set_spin_queue (eventsub BIT_SPIN_AMOUNT p (spin_queue s)).2 s)
  | ChatSpin cmd =>
      Some (set_spin_queue (on_spin_message cmd (spin_queue s)).2 s)
  | WsConnect ws =>
      guard (bool_decide (ws ∉ clients s ∪ handlers s ∪ inflight s))
            (ws_accept ws s)
  | WsMessage ws msg ack_ok =>
      guard (bool_decide (ws ∈ handlers s)) (ws_receive ws msg ack_ok s)
  | WsDisconnect ws =>
      guard (bool_decide (ws ∈ handlers s)) (ws_finally ws s)
  | Take =>
      match proc s, Queue.get (spin_queue s) with
      | Idle, Some (tok, q) => Some (spin_begin tok q s)
      | _, _ => None
      end
  | SendDone ws ok =>
      guard (bool_decide (ws ∈ inflight s)) (send_done ws ok s)
  | Wake =>
      match proc s with
      | Cooling t => guard (bool_decide (t ≤ now s)) (spin_end s)
      | _ => None
      end
  | Tick => Some (set_now (S (now s)) s)
  end.

Fixpoint run (evs : list event) (s : state) : option state :=
  match evs with
  | [] => Some s
  | e :: evs' =>
      match step e s with
      | Some s' => run evs' s'
      | None => None
      end
  end.

Definition reachable (s : state) : Prop := ∃ evs, run evs init = Some s.

End System.

(** ** Invariants of the event loop *)

Definition busy (p : phase) : nat :=
  match p with Idle => 0 | _ => 1 end.

Fixpoint spaced (l : list spin) : Prop :=
  match l with
  | a :: (b :: _) as rest => started b + COOLDOWN ≤ started a ∧ spaced rest
  | _ => True
  end.

Definition complete (sp : spin) : Prop := delivered sp = snapshot sp.

Definition received (ws : ws_id) (text : string) (s : state) : nat :=
  length (filter (λ m, m.1.2 = ws ∧ m.2 = text) (outbox s)).

Definition spun (ws : ws_id) (s : state) : nat :=
  length (filter (λ sp, ws ∈ delivered sp) (spins s)).

Definition head_ok (s : state) : Prop :=
  match spins s with
  | [] => proc s = Idle ∧ inflight s = ∅
  | sp :: rest =>
      started sp ≤ now s
      ∧ Forall complete rest
      ∧ delivered sp ⊆ snapshot sp
      ∧ inflight s ⊆ snapshot sp
      ∧ inflight s ## delivered sp
      ∧ match proc s with
        | Idle => started sp + COOLDOWN ≤ now s ∧ complete sp ∧ inflight s = ∅
        | Gathering => snapshot sp = delivered sp ∪ inflight s ∧ inflight s ≠ ∅
        | Cooling t => started sp + COOLDOWN ≤ t ∧ complete sp ∧ inflight s = ∅
        | Crashed e => e = TransportError
        end
  end.

Record inv (s : state) : Prop := {
  inv_handlers : handlers s = clients s;
  inv_fifo : reverse (token <$> spins s) ++ Queue.items (spin_queue s)
             = Queue.put_log (spin_queue s);
  inv_tokens : Forall (eq "spin") (Queue.put_log (spin_queue s));
  inv_unfinished : Queue.unfinished_tasks (spin_queue s)
                   = length (Queue.items (spin_queue s)) + busy (proc s);
  inv_spaced : spaced (spins s);
  inv_head : head_ok s;
  inv_received : ∀ ws, received ws "spin" s = spun ws s;
}.

(** ** Schedules that let the processor run *)

Definition sends (l : list ws_id) : list event := (λ ws, SendDone ws true) <$> l.

(** One whole iteration of the loop, every send returning *)
Definition cycle (cl : gset ws_id) : list event :=
  Take :: sends (elements cl) ++ replicate COOLDOWN Tick ++ [Wake].

(** The rest of the iteration in progress *)
Definition finish (s : state) : list event :=
  match proc s with
  | Idle | Crashed _ => []
  | Gathering => sends (elements (inflight s)) ++ replicate COOLDOWN Tick ++ [Wake]
  | Cooling t => replicate (t - now s) Tick ++ [Wake]
  end.

(** Finish the current iteration, then one iteration per queued trigger *)
Definition drain (s : state) : list event :=
  finish s
  ++ concat (replicate (length (Queue.items (spin_queue s))) (cycle (clients s))).

(** ** Properties of runs used in the statements below *)

(** Two histories of the same spin: only [delivered] may differ *)
Definition same_spin (sp sp' : spin) : Prop :=
  started sp' = started sp ∧ token sp' = token sp ∧ snapshot sp' = snapshot sp.

(** [s] descends from a state that was sleeping until [t] with history [old]:
    every spin begun since then began at [t] or later, and while none has,
    the processor is still asleep or idle past [t] *)
Definition cooled (t : nat) (old : list spin) (s : state) : Prop :=
  ∃ newer, spins s = newer ++ old
           ∧ Forall (λ sp, t ≤ started sp) newer
           ∧ (newer = [] → proc s = Cooling t ∨ (proc s = Idle ∧ t ≤ now s)).

(** [s'] has an idle processor and the registry and submissions of [s] *)
Definition settled (s s' : state) : Prop :=
  proc s' = Idle
  ∧ clients s' = clients s
  ∧ Queue.put_log (spin_queue s') = Queue.put_log (spin_queue s).

(** ** Concrete inputs *)

Definition cheer (bits : Z) : gmap string json :=
  {[ "subscription" := JDict {[ "type" := JStr "channel.cheer" ]};
     "event" := JDict {[ "bits" := JInt bits; "user_name" := JStr "ann" ]} ]}.

Definition challenge_request : gmap string json :=
  {[ "challenge" := JStr "pogchamp-kappa-360noscope";
     "subscription" := JDict {[ "type" := JStr "channel.cheer" ]} ]}.

(** Challenges that [json.loads] accepts and [JSONResponse] cannot render:
    [{"challenge": NaN}], [{"challenge": 1e999}] and
    [{"challenge": "\ud800"}] *)
Definition challenge_nan : gmap string json :=
  {[ "challenge" := JFloat S754_nan ]}.

Definition challenge_1e999 : gmap string json :=
  {[ "challenge" := JFloat (S754_infinity false) ]}.

Definition challenge_surrogate : gmap string json :=
  {[ "challenge" := JStr (String (Ascii.ascii_of_nat 237)
                            (String (Ascii.ascii_of_nat 160)
                               (String (Ascii.ascii_of_nat 128) EmptyString))) ]}.

Definition mod_spin : ChatCommand :=
  {| cmd_name := "spin";
     cmd_user := {| user_name := "mo"; user_mod := true |};
     cmd_room := {| room_name := "bean" |} |}.

(** The state a schedule leads to from [init], with the default threshold *)
Definition replay (evs : list event) : state := default init (run 555 evs init).

(** Two clients, two triggers, the first one taken: the gather is running *)
Definition gathering : list event :=
  [WsConnect 1; WsConnect 2; ChatSpin mod_spin; Cheer (cheer 555); Take].

(** The send to client 1 raises, the one to client 2 returns, life goes on *)
Definition after_failure : list event :=
  [SendDone 2 true; Tick; WsDisconnect 1; ChatSpin mod_spin].

(** One client, two triggers, nothing taken yet *)
Definition before_spin : list event :=
  [WsConnect 1; ChatSpin mod_spin; ChatSpin mod_spin].

(** No client, one trigger *)
Definition lonely : list event := [ChatSpin mod_spin].

(** Client 2 joins while the spin for client 1 is under way *)
Definition late_join : list event :=
  [WsConnect 2; SendDone 1 true] ++ replicate COOLDOWN Tick ++ [Wake].

(** The sleep runs out, a new trigger arrives and is taken *)
Definition next_spin : list event :=
  replicate COOLDOWN Tick ++ [Wake; ChatSpin mod_spin; Take].

(** ** More properties of runs *)

(** Everything sent so far was sent in the past and says "spin" or "ack" *)
Definition outbox_ok (s : state) : Prop :=
  Forall (λ m, m.1.1 ≤ now s ∧ (m.2 = "spin" ∨ m.2 = "ack")) (outbox s).

(** * The OAuth routes and the startup of [main.py]

    [auth], [callback], [_find_token_file], [_setup_twitch] and [lifespan],
    with the two stand-alone servers [auth-server/main.py] and
    [callback-server/main.py] beside them.  What the handlers get from
    outside (environment variables, the answers of Twitch, what the file
    system allows, library constants) is the record [env]; every outside
    call they make is logged in the [world]. *)

(** The double quote, for the HTML pages *)
Definition dq : string := String (Ascii.ascii_of_nat 34) EmptyString.

(** ** [urllib.parse]: [quote], [quote_plus], [urlencode]

    The three functions first encode a [str] as UTF-8 and then work on the
    bytes.  They are given here on the bytes; the encoding step, which
    raises on a lone surrogate, is [urllib_parse_urlencode] below. *)

Fixpoint in_string (c : ascii) (s : string) : bool :=
  match s with
  | EmptyString => false
  | String x r => Ascii.eqb c x || in_string c r
  end.

(** [_ALWAYS_SAFE] *)
Definition always_safe (c : ascii) : bool :=
  in_string c "ABCDEFGHIJKLMNOPQRSTUVWXYZabcdefghijklmnopqrstuvwxyz0123456789_.-~".

(** The characters of [safe] that count: [safe.encode('ascii', 'ignore')] *)
Definition in_safe (safe : string) (c : ascii) : bool :=
  in_string c safe && (Ascii.nat_of_ascii c <? 128).

Definition hex_digit (n : nat) : ascii :=
  match n with
  | 0 => "0" | 1 => "1" | 2 => "2" | 3 => "3" | 4 => "4" | 5 => "5" | 6 => "6"
  | 7 => "7" | 8 => "8" | 9 => "9" | 10 => "A" | 11 => "B" | 12 => "C"
  | 13 => "D" | 14 => "E" | _ => "F"
  end%char.

(** ['%{:02X}'.format(byte)] *)
Definition percent (c : ascii) : string :=
  String "%" (String (hex_digit (Ascii.nat_of_ascii c / 16))
                     (String (hex_digit (Ascii.nat_of_ascii c mod 16)) EmptyString)).

Definition quoter (safe : string) (c : ascii) : string :=
  if always_safe c || in_safe safe c then String c EmptyString else percent c.

Fixpoint quote (s : string) (safe : string) : string :=
  match s with
  | EmptyString => EmptyString
  | String c r => quoter safe c +:+ quote r safe
  end.

(** [s.replace(' ', '+')] *)
Fixpoint spaces_to_plus (s : string) : string :=
  match s with
  | EmptyString => EmptyString
  | String c r => String (if Ascii.eqb c " " then "+"%char else c) (spaces_to_plus r)
  end.

Definition quote_plus (s : string) (safe : string) : string :=
  if in_string " " s then spaces_to_plus (quote s (safe +:+ " ")) else quote s safe.

(** [str(v)] of a value that is a [str] or [None] *)
Definition py_str_opt (v : option string) : string := default "None" v.

(** [urlencode(query, safe=safe)] of a dict, in insertion order *)
Definition urlencode (query : list (string * option string)) (safe : string) : string :=
  String.concat "&"
    ((λ kv, quote_plus kv.1 safe +:+ "=" +:+ quote_plus (py_str_opt kv.2) safe) <$> query).

(** Every key and value can be encoded as UTF-8 *)
Definition encodes (query : list (string * option string)) : bool :=
  forallb (λ kv, negb (lone_surrogate kv.1 || lone_surrogate (py_str_opt kv.2))) query.

(** [urllib.parse.urlencode(query, safe=safe)] as the handlers call it, on
    keys and values that are [str] or [None] *)
Definition urllib_parse_urlencode
    (query : list (string * option string)) (safe : string) : result string :=
  if encodes query then Ok (urlencode query safe) else Raise UnicodeEncodeError.

(** ** [secrets.token_urlsafe]

    [base64.urlsafe_b64encode(tok).rstrip(b'=').decode('ascii')] for the
    random bytes [tok] that [token_bytes] drew. *)

Definition b64_alphabet : string :=
  "ABCDEFGHIJKLMNOPQRSTUVWXYZabcdefghijklmnopqrstuvwxyz0123456789-_".

Definition b64_char (n : nat) : ascii :=
  default "="%char (String.get n b64_alphabet).

(** Three bytes give four characters; a last group of one or two bytes is
    padded with [=] *)
Fixpoint urlsafe_b64encode (s : string) : string :=
  match s with
  | EmptyString => EmptyString
  | String a EmptyString =>
      let a := Ascii.nat_of_ascii a in
      String (b64_char (a / 4)) (String (b64_char (a mod 4 * 16)) "==")
  | String a (String b EmptyString) =>
      let a := Ascii.nat_of_ascii a in
      let b := Ascii.nat_of_ascii b in
      String (b64_char (a / 4))
        (String (b64_char (a mod 4 * 16 + b / 16))
           (String (b64_char (b mod 16 * 4)) "="))
  | String a (String b (String c r)) =>
      let a := Ascii.nat_of_ascii a in
      let b := Ascii.nat_of_ascii b in
      let c := Ascii.nat_of_ascii c in
      String (b64_char (a / 4))
        (String (b64_char (a mod 4 * 16 + b / 16))
           (String (b64_char (b mod 16 * 4 + c / 64))
              (String (b64_char (c mod 64)) (urlsafe_b64encode r))))
  end.

(** [s.rstrip(b'=')] *)
Fixpoint rstrip_pad (s : string) : string :=
  match s with
  | EmptyString => EmptyString
  | String c r =>
      match rstrip_pad r with
      | EmptyString => if Ascii.eqb c "=" then EmptyString else String c EmptyString
      | r' => String c r'
      end
  end.

Definition token_urlsafe (tok : string) : string := rstrip_pad (urlsafe_b64encode tok).

(** ** Responses, and how FastAPI answers a request *)

Record cookie := {
  cookie_key : string;
  cookie_value : string;
  cookie_httponly : bool;
  cookie_secure : bool;
  cookie_samesite : string;
}.

Record response := {
  status_code : nat;
  location : option string;      (* the [location] header *)
  set_cookie : list cookie;      (* the [set-cookie] headers *)
  body : string;
}.

(** How an endpoint ends: it returns a [Response] object of its own, or
    content for the route's response class, or it raises *)
Inductive returned :=
| Direct (r : response)
| Content (c : string)
| Raised (e : exn).

(** The endpoint's effect on the [Response] parameter FastAPI injected, and
    what it returned *)
Record answered := {
  injected_cookies : list cookie;
  returned_value : returned;
}.

(** [RedirectResponse(url)]: Starlette quotes the URL into the header *)
Definition RedirectResponse (url : string) : response :=
  {| status_code := 307;
     location := Some (quote url ":/%#?=@[]!$&'()*+,;");
     set_cookie := [];
     body := EmptyString |}.

Definition HTMLResponse (content : string) : response :=
  {| status_code := 200; location := None; set_cookie := []; body := content |}.

(** What the server answers when the handling of a request raises *)
Definition server_error : response :=
  {| status_code := 500; location := None; set_cookie := [];
     body := "Internal Server Error" |}.

(** FastAPI's request handler: a returned [Response] is sent as it is; any
    other value is wrapped in the response class, which encodes it as
    UTF-8, and only then given the headers that were set on the injected
    [Response] parameter. *)
Definition fastapi_sends (a : answered) : response :=
  match returned_value a with
  | Direct r => r
  | Content c =>
      if lone_surrogate c then server_error
      else {| status_code := 200; location := None;
              set_cookie := injected_cookies a; body := c |}
  | Raised _ => server_error
  end.

(** [request.cookies.get(key)] on the next request of a browser that held
    no such cookie before *)
Definition cookie_sent_back (key : string) (r : response) : option string :=
  cookie_value <$> head (filter (λ c, cookie_key c = key) (set_cookie r)).

(** [response.set_cookie("oauth_state", state, httponly=True, secure=True,
    samesite="lax")] *)
Definition oauth_state_cookie (state : string) : cookie :=
  {| cookie_key := "oauth_state"; cookie_value := state;
     cookie_httponly := true; cookie_secure := true; cookie_samesite := "lax" |}.

(** ** The outside world *)

Inductive AuthScope :=
| CHAT_READ
| CHAT_EDIT
| BITS_READ
| MODERATOR_READ_MODERATORS
| MODERATOR_READ_CHATTERS.

Definition ALL_SCOPES : list AuthScope :=
  [CHAT_READ; CHAT_EDIT; BITS_READ; MODERATOR_READ_MODERATORS; MODERATOR_READ_CHATTERS].

(** The bytes of a file or of a reply, as the JSON decoder sees them *)
Inductive content :=
| Decodes (v : json)
| NotJson          (* text that is not JSON *)
| NotText.         (* bytes that do not decode as text *)

(** What an [httpx] response object shows the code *)
Record reply := {
  reply_status_code : nat;          (* [.status_code] *)
  reply_status_error : bool;        (* [.raise_for_status()] raises *)
  reply_content : content;          (* what [.json()] decodes *)
}.

(** Calls that leave the process *)
Inductive call :=
| PostToken (code : string)
| GetUser (access_token : json)
| NewTwitch
| SetUserAuthentication (access_token refresh_token : json)
| CreateEventsubSubscription (broadcaster_user_id : json)
| StartChatListener (access_token refresh_token broadcaster_login : json)
| StartSpinProcessor
| WriteJson (filename : string) (v : json).

Record env := {
  (* [os.getenv] *)
  CLIENT_ID : option string;
  CALLBACK_URL : option string;
  USER_NAME : option string;
  (* library constants and functions *)
  scope_value : AuthScope → string;              (* [AuthScope.X.value] *)
  py_repr : json → string;                       (* [str()] of a float, list or dict *)
  glob : string → gmap string content → list string;   (* [glob.glob] *)
  (* the answers from outside; [None] and [false]: the call raises *)
  post_token : string → option reply;
  get_user : json → option reply;
  new_twitch : bool;
  set_user_authentication : json → json → bool;
  create_eventsub_subscription : json → bool;
  can_write : string → bool;
}.

Record world := {
  files : gmap string content;
  calls : list call;               (* oldest first *)
}.

Inductive error :=
| Builtin (e : exn)
| IndexError
| HTTPException (status : nat) (detail : string)
| HTTPStatusError
| JSONDecodeError
| UnicodeDecodeError
| FileNotFoundError
| Failed (c : call).               (* what the outside call raised *)

Inductive outcome (A : Type) :=
| Returns (a : A)
| Raises (e : error).
Arguments Returns {A} a.
Arguments Raises {A} e.

(** ** Handlers with outside calls: a state and exception monad *)

Definition IO (A : Type) : Type := world → outcome A * world.

#[global] Instance IO_ret : MRet IO := λ A a w, (Returns a, w).

#[global] Instance IO_bind : MBind IO := λ A B f m w,
  match m w with
  | (Returns a, w') => f a w'
  | (Raises e, w') => (Raises e, w')
  end.

Definition raise {A} (e : error) : IO A := λ w, (Raises e, w).

(** An expression over decoded JSON, inside a handler *)
Definition expr {A} (r : result A) : IO A :=
  λ w, (match r with Ok a => Returns a | Raise e => Raises (Builtin e) end, w).

Definition record_call (c : call) : IO unit :=
  λ w, (Returns tt, {| files := files w; calls := calls w ++ [c] |}).

(** An outside call that raises or returns nothing of interest *)
Definition outside (c : call) (ok : bool) : IO unit :=
  record_call c;; if ok then mret tt else raise (Failed c).

(** [await client.post(...)] / [await client.get(...)] *)
Definition request (c : call) (r : option reply) : IO reply :=
  record_call c;;
  match r with Some x => mret x | None => raise (Failed c) end.

Definition raise_for_status (r : reply) : IO unit :=
  if reply_status_error r then raise HTTPStatusError else mret tt.

(** [json.loads] of text or bytes *)
Definition decode (c : content) : IO json :=
  match c with
  | Decodes v => mret v
  | NotJson => raise JSONDecodeError
  | NotText => raise UnicodeDecodeError
  end.

(** [r.json()] *)
Definition json_of (r : reply) : IO json := decode (reply_content r).

(** [try: m except Exception: ...] with a handler that only logs *)
Definition try_and_log (m : IO unit) : IO unit :=
  λ w, match m w with
       | (Returns a, w') => (Returns a, w')
       | (Raises _, w') => (Returns tt, w')
       end.

(** [v[0]] *)
Fixpoint continuation_bytes (s : string) : string :=
  match s with
  | EmptyString => EmptyString
  | String c r =>
      if (128 <=? Ascii.nat_of_ascii c) && (Ascii.nat_of_ascii c <? 192)
      then String c (continuation_bytes r)
      else EmptyString
  end.

Definition subscript0 (v : json) : IO json :=
  match v with
  | JList (x :: _) => mret x
  | JList [] => raise IndexError
  | JStr (String c r) => mret (JStr (String c (continuation_bytes r)))
  | JStr EmptyString => raise IndexError
  | JDict _ => raise (Builtin KeyError)
  | _ => raise (Builtin TypeError)
  end.

(** [json.load(open(name))] *)
Definition json_load (name : string) : IO json :=
  λ w, match files w !! name with
       | None => (Raises FileNotFoundError, w)
       | Some c => decode c w
       end.

Definition store (filename : string) (v : json) : IO unit :=
  λ w, (Returns tt, {| files := <[filename := Decodes v]> (files w);
                       calls := calls w |}).

(** The value of an optional [str] as JSON *)
Definition json_of_opt (v : option string) : json :=
  match v with Some s => JStr s | None => JNull end.

(** [not v] for an optional [str] *)
Definition falsy (v : option string) : bool :=
  match v with
  | None | Some EmptyString => true
  | Some (String _ _) => false
  end.

Section Outside.

Variable E : env.

(** [str(v)], as an f-string formats a decoded JSON value *)
Definition py_str (v : json) : string :=
  match v with
  | JStr s => s
  | JNull => "None"
  | JBool true => "True"
  | JBool false => "False"
  | JInt n => pretty n
  | JFloat _ | JList _ | JDict _ => py_repr E v
  end.

(** [with open(filename, "w") as f: json.dump(v, f, indent=2)] *)
Definition json_dump (filename : string) (v : json) : IO unit :=
  outside (WriteJson filename v) (can_write E filename);;
  store filename v.

(** ** [main.py] *)

(** [TOKENS_GLOB = f"tokens_{USER_NAME}.json"] *)
Definition TOKENS_GLOB : string := "tokens_" +:+ py_str_opt (USER_NAME E) +:+ ".json".

Definition _find_token_file : IO (option string) :=
  λ w, (Returns (head (glob E TOKENS_GLOB (files w))), w).

Definition _setup_twitch
    (access_token refresh_token broadcaster_id broadcaster_login : json) : IO unit :=
  outside NewTwitch (new_twitch E);;
  outside (SetUserAuthentication access_token refresh_token)
          (set_user_authentication E access_token refresh_token);;
  try_and_log (outside (CreateEventsubSubscription broadcaster_id)
                       (create_eventsub_subscription E broadcaster_id));;
  record_call (StartChatListener access_token refresh_token broadcaster_login).

(** The part of [lifespan] that runs before the application serves *)
Definition lifespan : IO unit :=
  token_file ← _find_token_file;
  (if negb (falsy token_file) then
     data ← json_load (default EmptyString token_file);
     creds ← expr (subscript data "tokens");
     user ← expr (subscript data "user");
     uid ← expr (subscript user "id");
     user' ← expr (subscript data "user");
     login ← expr (subscript user' "login");
     access_token ← expr (subscript creds "access_token");
     refresh_token ← expr (method_get creds "refresh_token");
     _setup_twitch access_token refresh_token uid login
   else mret tt);;
  record_call StartSpinProcessor.

(** The [params] of [auth] *)
Definition params (state : string) : list (string * option string) :=
  [ ("client_id", CLIENT_ID E);
    ("redirect_uri", CALLBACK_URL E);
    ("response_type", Some "code");
    ("scope", Some (String.concat " " (scope_value E <$> ALL_SCOPES)));
    ("state", Some state);
    ("force_verify", Some "true") ].

(** [GET /auth]; [tok] is what [token_bytes(16)] drew *)
Definition auth (tok : string) : answered :=
  let state := token_urlsafe tok in
  {| injected_cookies := [oauth_state_cookie state];
     returned_value :=
       match urllib_parse_urlencode (params state) ":+" with
       | Ok query =>
           let auth_url := "https://id.twitch.tv/oauth2/authorize?" +:+ query in
           Direct (RedirectResponse auth_url)
       | Raise e => Raised e
       end |}.

Definition authorized_page (display_name : json) (filename : string) : string :=
  "
<html><body style=" +:+ dq +:+ "text-align:center; font-family:sans-serif; padding-top:50px;" +:+ dq +:+ ">
  <h1>✅ Authorized as " +:+ py_str display_name +:+ "</h1>
  <p>Tokens saved to <code>" +:+ filename +:+ "</code>. You may close this window.</p>
</body></html>
".

(** [GET /callback]: the query parameters [code] and [state], and the cookie
    [oauth_state] *)
Definition callback (code returned_state stored_state : option string) : IO string :=
  if falsy code || negb (bool_decide (returned_state = stored_state)) then
    raise (HTTPException 400 "Invalid OAuth callback (bad state or missing code)")
  else
    let code := default EmptyString code in
    tr ← request (PostToken code) (post_token E code);
    raise_for_status tr;;
    tokens ← json_of tr;
    bearer ← expr (subscript tokens "access_token");
    ur ← request (GetUser bearer) (get_user E bearer);
    raise_for_status ur;;
    users ← json_of ur;
    data ← expr (subscript users "data");
    user ← subscript0 data;
    uid ← expr (subscript user "id");
    login ← expr (subscript user "login");
    display_name ← expr (subscript user "display_name");
    let record : json :=
      JDict {[ "state" := json_of_opt returned_state;
               "user" := JDict {[ "id" := uid; "login" := login;
                                  "display_name" := display_name ]};
               "tokens" := tokens ]} in
    login' ← expr (subscript user "login");
    let filename := "tokens_" +:+ py_str login' +:+ ".json" in
    json_dump filename record;;
    access_token ← expr (subscript tokens "access_token");
    refresh_token ← expr (method_get tokens "refresh_token");
    uid' ← expr (subscript user "id");
    login'' ← expr (subscript user "login");
    _setup_twitch access_token refresh_token uid' login'';;
    display_name' ← expr (subscript user "display_name");
    mret (authorized_page display_name' filename).

End Outside.

(** ** [auth-server/main.py] *)

Module AuthServer.

Definition SCOPES : list string :=
  ["chat:read"; "bits:read"; "moderator:read:moderators"; "moderator:read:chatters"].

Definition login_page (auth_url : string) : string :=
  "
    <html>
      <head><title>Log in with Twitch</title></head>
      <body style=" +:+ dq +:+ "font-family:Arial,sans-serif; text-align:center; padding-top:50px;" +:+ dq +:+ ">
        <a href=" +:+ dq +:+ auth_url +:+ dq +:+ "
           style=" +:+ dq +:+ "display:inline-block; padding:12px 24px; background-color:#6441a5; color:white; 
                  text-decoration:none; border-radius:4px; font-size:16px;" +:+ dq +:+ ">
          Log in with Twitch
        </a>
      </body>
    </html>
    ".

(** The [params] of [auth]; [CLIENT_ID] and [REDIRECT_URI] come from the
    environment *)
Definition params (E : env) (state : string) : list (string * option string) :=
  let scope_str := String.concat "+" SCOPES in
  [ ("client_id", CLIENT_ID E);
    ("redirect_uri", CALLBACK_URL E);
    ("response_type", Some "code");
    ("scope", Some scope_str);
    ("state", Some state) ].

Definition auth (E : env) (tok : string) : answered :=
  let state := token_urlsafe tok in
  {| injected_cookies := [oauth_state_cookie state];
     returned_value :=
       match urllib_parse_urlencode (params E state) ":+" with
       | Ok query =>
           let auth_url := "https://id.twitch.tv/oauth2/authorize?" +:+ query in
           Direct (HTMLResponse (login_page auth_url))
       | Raise e => Raised e
       end |}.

End AuthServer.

(** ** [callback-server/main.py] *)

Module CallbackServer.

Definition CLIENT_ID : string := "bc2zp0pggthm56x4e9n5bd2a4byf7h".
Definition REDIRECT_URI : string := "https://twitch.cmchale.com/callback".

Definition SCOPES : list string :=
  ["chat:read"; "bits:read"; "moderator:read:moderators"; "moderator:read:chatters"].

Definition login_page (auth_url : string) : string :=
  "
    <html>
      <body style=" +:+ dq +:+ "text-align:center; font-family:sans-serif; padding-top:50px;" +:+ dq +:+ ">
        <a href=" +:+ dq +:+ auth_url +:+ dq +:+ "
           style=" +:+ dq +:+ "background:#6441a5;color:#fff;padding:12px 24px;
                  text-decoration:none;border-radius:4px;font-size:16px;" +:+ dq +:+ ">
          Log in with Twitch
        </a>
              <p align=" +:+ dq +:+ "left" +:+ dq +:+ ">
              This will authorise the BeanSpinner app with the following scopes:<br>
             " +:+ dq +:+ "chat:read" +:+ dq +:+ " - To read messages in chat and respond to commands from Mods/VIPs<br>
             " +:+ dq +:+ "bits:read" +:+ dq +:+ " - To read Bit donation events and trigger the wheel<br>
             " +:+ dq +:+ "moderator:read:moderators" +:+ dq +:+ " - To identify Moderators in the chat<br>
             " +:+ dq +:+ "moderator:read:chatters" +:+ dq +:+ " - To identify VIPs in the chat<br>
      </body>
    </html>
    ".

(** The [params] of [auth] *)
Definition params (state : string) : list (string * option string) :=
  [ ("client_id", Some CLIENT_ID);
    ("redirect_uri", Some REDIRECT_URI);
    ("response_type", Some "code");
    ("scope", Some (String.concat " " SCOPES));
    ("state", Some state) ].

Definition auth (tok : string) : answered :=
  let state := token_urlsafe tok in
  {| injected_cookies := [oauth_state_cookie state];
     returned_value :=
       match urllib_parse_urlencode (params state) ":+ " with
       | Ok query =>
           let auth_url := "https://id.twitch.tv/oauth2/authorize?" +:+ query in
           Content (login_page auth_url)
       | Raise e => Raised e
       end |}.

Section Outside.

Variable E : env.

Definition authorized_page (display_name : json) : string :=
  "
      <html>
        <body style=" +:+ dq +:+ "text-align:center; font-family:sans-serif; padding-top:50px;" +:+ dq +:+ ">
          <h1>✅ Authorized as " +:+ py_str E display_name +:+ "</h1>
          <p>You may now close this window.</p>
        </body>
      </html>
    ".

Definition callback (code returned_state stored_state : option string) : IO string :=
  if falsy code || falsy returned_state
     || negb (bool_decide (returned_state = stored_state)) then
    raise (HTTPException 400 "Invalid OAuth callback (missing code or bad state)")
  else
    let code := default EmptyString code in
    token_resp ← request (PostToken code) (post_token E code);
    (if negb (reply_status_code token_resp =? 200)
     then raise (Builtin TypeError)    (* [token_resp.text()]: a [str] is not callable *)
     else mret tt);;
    tokens ← json_of token_resp;
    bearer ← expr (subscript tokens "access_token");
    user_resp ← request (GetUser bearer) (get_user E bearer);
    raise_for_status user_resp;;
    users ← json_of user_resp;
    data ← expr (subscript users "data");
    user_data ← subscript0 data;
    uid ← expr (subscript user_data "id");
    login ← expr (subscript user_data "login");
    display_name ← expr (subscript user_data "display_name");
    let out : json :=
      JDict {[ "state" := json_of_opt returned_state;
               "user" := JDict {[ "id" := uid; "login" := login;
                                  "display_name" := display_name ]};
               "tokens" := tokens ]} in
    uid' ← expr (subscript user_data "id");
    let filename := "tokens_" +:+ py_str E uid' +:+ ".json" in
    json_dump E filename out;;
    login' ← expr (subscript user_data "login");    (* for the log line *)
    display_name' ← expr (subscript user_data "display_name");
    mret (authorized_page display_name').

End Outside.

(** [fname.startswith(p)] and [fname.endswith(p)] *)
Definition startswith (s p : string) : bool := String.prefix p s.

Definition endswith (s p : string) : bool :=
  (String.length p <=? String.length s)
  && bool_decide (String.substring (String.length s - String.length p)
                                   (String.length p) s = p).

(** [load_tokens], run at startup: the names it logs, for the listing
    [os.listdir(".")] returned *)
Definition load_tokens (listing : list string) : list string :=
  filter (λ fname, startswith fname "tokens_" && endswith fname ".json" = true)
         listing.

End CallbackServer.


(** ** Vocabulary for the properties of the OAuth routes *)

Fixpoint count_char (c : ascii) (s : string) : nat :=
  match s with
  | EmptyString => 0
  | String x r => (if Ascii.eqb c x then 1 else 0) + count_char c r
  end.

(** The characters [quote_plus] can produce *)
Definition encoded (safe : string) (c : ascii) : Prop :=
  c ≠ " "%char
  ∧ (always_safe c = true ∨ in_safe safe c = true ∨ c = "%"%char ∨ c = "+"%char).

(** What [secrets.token_urlsafe] returns is made of letters, digits, [-]
    and [_] *)
Definition urlsafe (s : string) : Prop :=
  ∀ c, in_string c s = true → always_safe c = true.

(** A scope name: letters, digits, [_], [.], [-], [~] and colons *)
Definition scope_name (s : string) : Prop :=
  ∀ c, in_string c s = true → always_safe c || Ascii.eqb c ":" = true.

(** The world after the outside calls [cs] *)
Definition logged (w : world) (cs : list call) : world :=
  {| files := files w; calls := calls w ++ cs |}.

(** A handler that only adds to the log of outside calls *)
Definition extends {A} (m : IO A) : Prop :=
  ∀ w r w', m w = (r, w') → ∃ cs, calls w' = calls w ++ cs.

(** What [/callback] wrote, and where it stood when it had *)
Definition saved_record (returned_state : option string)
    (uid login display_name tokens : json) : json :=
  JDict {[ "state" := json_of_opt returned_state;
           "user" := JDict {[ "id" := uid; "login" := login;
                              "display_name" := display_name ]};
           "tokens" := tokens ]}.

Definition token_file_name (E : env) (login : json) : string :=
  "tokens_" +:+ py_str E login +:+ ".json".

Definition after_write (w : world) (c : string) (bearer : json)
    (name : string) (record : json) : world :=
  {| files := <[name := Decodes record]> (files w);
     calls := calls w ++ [PostToken c; GetUser bearer; WriteJson name record] |}.

(** A character that would end the [href] attribute or start a tag *)
Definition breaks_link (c : ascii) : Prop :=
  c = Ascii.ascii_of_nat 34 ∨ c = "<"%char ∨ c = ">"%char ∨ c = " "%char.

(** Every character of [s] passes the test [p] *)
Fixpoint all_chars (p : ascii → bool) (s : string) : bool :=
  match s with
  | EmptyString => true
  | String c r => p c && all_chars p r
  end.

(** ** Concrete inputs for the OAuth routes *)

Definition cheer_without_event : gmap string json :=
  {[ "subscription" := JDict {[ "type" := JStr "channel.cheer" ]} ]}.

Definition follow : gmap string json :=
  {[ "subscription" := JDict {[ "type" := JStr "channel.follow" ]};
     "event" := JDict {[ "user_name" := JStr "ann" ]} ]}.

Definition scope_values (s : AuthScope) : string :=
  match s with
  | CHAT_READ => "chat:read"
  | CHAT_EDIT => "chat:edit"
  | BITS_READ => "bits:read"
  | MODERATOR_READ_MODERATORS => "moderator:read:moderators"
  | MODERATOR_READ_CHATTERS => "moderator:read:chatters"
  end.

Definition token_reply : json :=
  JDict {[ "access_token" := JStr "at0"; "refresh_token" := JStr "rt0";
           "expires_in" := JInt 14000 ]}.

Definition user_reply : json :=
  JDict {[ "data" := JList [ JDict {[ "id" := JStr "42"; "login" := JStr "bean";
                                      "display_name" := JStr "Bean" ]} ] ]}.

(** A process configured for the user [bean]: the token endpoint answers
    with [status], the user endpoint answers, authentication does as
    [authenticates] says and the EventSub subscription fails *)
Definition configured (status : nat) (authenticates : bool) : env :=
  {| CLIENT_ID := Some "abc";
     CALLBACK_URL := Some "https://twitch.cmchale.com/callback";
     USER_NAME := Some "bean";
     scope_value := scope_values;
     py_repr := λ _, "{}";
     glob := λ pattern fs, if bool_decide (is_Some (fs !! pattern)) then [pattern] else [];
     post_token := λ _, Some {| reply_status_code := status;
                                reply_status_error := negb (status =? 200);
                                reply_content := Decodes token_reply |};
     get_user := λ _, Some {| reply_status_code := 200;
                              reply_status_error := false;
                              reply_content := Decodes user_reply |};
     new_twitch := true;
     set_user_authentication := λ _ _, authenticates;
     create_eventsub_subscription := λ _, false;
     can_write := λ _, true |}.

Definition friendly : env := configured 200 true.

(** [os.getenv] decodes a variable that is not UTF-8 with the error handler
    [surrogateescape]: the bytes [ab\xffcd] give the [str] ['ab\udcffcd'] *)
Definition garbled_id : string :=
  "ab" +:+ String (Ascii.ascii_of_nat 237)
             (String (Ascii.ascii_of_nat 179)
                (String (Ascii.ascii_of_nat 191) "cd")).

(** The same process with a client id that is not UTF-8 *)
Definition garbled : env :=
  {| CLIENT_ID := Some garbled_id;
     CALLBACK_URL := CALLBACK_URL friendly;
     USER_NAME := USER_NAME friendly;
     scope_value := scope_value friendly;
     py_repr := py_repr friendly;
     glob := glob friendly;
     post_token := post_token friendly;
     get_user := get_user friendly;
     new_twitch := new_twitch friendly;
     set_user_authentication := set_user_authentication friendly;
     create_eventsub_subscription := create_eventsub_subscription friendly;
     can_write := can_write friendly |}.

(** Sixteen bytes, as [token_bytes(16)] draws them *)
Definition drawn : string := "0123456789abcdef".

(** Nothing on disk, nothing called yet *)
Definition fresh : world := {| files := ∅; calls := [] |}.

Definition broken_disk : world :=
  {| files := {[ "tokens_bean.json" := NotText ]}; calls := [] |}.

(** The browser comes back from Twitch with the code and the state *)
Definition authorized (E : env) : outcome string * world :=
  callback E (Some "code") (Some "st4te") (Some "st4te") fresh.

(** The process is started again on the disk that was left *)
Definition restarted (E : env) : outcome unit * world :=
  lifespan E {| files := files (authorized E).2; calls := [] |}.
(** * Sanity checks on concrete inputs *)

Example eventsub_cheer_555 :
  eventsub 555 (cheer 555) Queue.empty = (Ok status_ok, Queue.mk ["spin"] 1 ["spin"]).
Proof. vm_compute. reflexivity. Qed.

Example eventsub_cheer_556 :
  eventsub 555 (cheer 556) Queue.empty = (Ok status_ok, Queue.empty).
Proof. vm_compute. reflexivity. Qed.

Example eventsub_no_event :
  eventsub 555 {[ "subscription" := JDict {[ "type" := JStr "channel.cheer" ]} ]}
    Queue.empty
  = (Raise KeyError, Queue.empty).
Proof. vm_compute. reflexivity. Qed.

Example run_failed_send :
  (λ s, (proc s, outbox s, Queue.items (spin_queue s), bool_decide (1 ∈ clients s)))
    (replay (gathering ++ [SendDone 1 false; SendDone 2 true; Tick; Tick]))
  = (Crashed TransportError, [(0, 2, "spin")], ["spin"], true).
Proof. vm_compute. reflexivity. Qed.

Example run_two_spins :
  (λ s, (proc s, now s, outbox s, started <$> spins s))
    (replay ([WsConnect 1; ChatSpin mod_spin; ChatSpin mod_spin]
             ++ cycle {[1]} ++ [Tick] ++ cycle {[1]}))
  = (Idle, 19, [(10, 1, "spin"); (0, 1, "spin")], [10; 0]).
Proof. vm_compute. reflexivity. Qed.

(** * The trigger sources *)

(** Unfold one bind of the handler monad *)
Ltac mstep :=
  unfold mbind, M_bind, mret, M_ret, lift, spin_queue_put; cbv beta iota; cbn [fst snd].

Section HandlerFacts.

Variable BIT_SPIN_AMOUNT : Z.

Lemma eventsub_queue (p : gmap string json) (q : Queue.t) :
  (eventsub BIT_SPIN_AMOUNT p q).2 = q
  ∨ (eventsub BIT_SPIN_AMOUNT p q).2 = Queue.put "spin" q.
Proof.
  unfold eventsub.
  destruct (truthy (dict_get p "challenge")).
  { left. destruct (subscript (JDict p) "challenge"); reflexivity. }
  destruct (method_get _ "type") as [stype|e]; mstep; [|left; reflexivity].
  destruct (py_eq_str stype "channel.cheer"); mstep; [|left; reflexivity].
  destruct (subscript (JDict p) "event") as [ev|e]; mstep; [|left; reflexivity].
  destruct (subscript ev "bits") as [bits|e]; mstep; [|left; reflexivity].
  destruct (subscript ev "user_name") as [user|e]; mstep; [|left; reflexivity].
  destruct (py_eq_int bits BIT_SPIN_AMOUNT); [right | left]; reflexivity.
Qed.

Lemma on_spin_message_queue (cmd : ChatCommand) (q : Queue.t) :
  (on_spin_message cmd q).2 = q ∨ (on_spin_message cmd q).2 = Queue.put "spin" q.
Proof.
  unfold on_spin_message.
  destruct (_ && _); [right | left]; reflexivity.
Qed.

(** C4.  For a channel.cheer notification at /eventsub (no truthy
    challenge, subscription type "channel.cheer", an event carrying an
    integer bit amount and a user name), the handler answers
    [{"status": "ok"}] and puts one ["spin"] on the queue when the bit
    amount equals [BIT_SPIN_AMOUNT]; for any other amount, larger ones
    included, the queue is unchanged. *)
Theorem C4_cheer_enqueues_iff_bits_equal_threshold (p ev sub : gmap string json) (bits : Z) (q : Queue.t) :
  truthy (dict_get p "challenge") = false →
  p !! "subscription" = Some (JDict sub) →
  sub !! "type" = Some (JStr "channel.cheer") →
  p !! "event" = Some (JDict ev) →
  ev !! "bits" = Some (JInt bits) →
  is_Some (ev !! "user_name") →
  (bits = BIT_SPIN_AMOUNT →
     eventsub BIT_SPIN_AMOUNT p q = (Ok status_ok, Queue.put "spin" q))
  ∧ (bits ≠ BIT_SPIN_AMOUNT →
     eventsub BIT_SPIN_AMOUNT p q = (Ok status_ok, q)).
Proof.
  intros Hc Hs Ht He Hb [user Hu].
  assert (Hty : method_get (dict_get_default p "subscription" (JDict ∅)) "type"
                = Ok (JStr "channel.cheer")).
  { unfold dict_get_default. rewrite Hs. cbn. unfold dict_get. by rewrite Ht. }
  assert (Hev : subscript (JDict p) "event" = Ok (JDict ev)).
  { cbn [subscript]. by rewrite He. }
  assert (Hbits : subscript (JDict ev) "bits" = Ok (JInt bits)).
  { cbn [subscript]. by rewrite Hb. }
  assert (Huser : subscript (JDict ev) "user_name" = Ok user).
  { cbn [subscript]. by rewrite Hu. }
  unfold eventsub. rewrite Hc, Hty. mstep.
  cbn [py_eq_str]. rewrite bool_decide_eq_true_2 by done. mstep.
  rewrite Hev. mstep. rewrite Hbits, Huser. mstep.
  cbn [py_eq_int].
  split; intros H.
  - apply Z.eqb_eq in H. rewrite H. reflexivity.
  - apply Z.eqb_neq in H. rewrite H. reflexivity.
Qed.

Lemma out_of_range_challenge (c : json) :
  out_of_range (JDict {[ "challenge" := c ]}) = out_of_range c.
Proof. cbn [out_of_range]. rewrite map_fold_singleton. apply orb_false_r. Qed.

Lemma unencodable_challenge (c : json) :
  unencodable (JDict {[ "challenge" := c ]}) = unencodable c.
Proof. cbn [unencodable]. rewrite map_fold_singleton. apply orb_false_r. Qed.

(** C9 (corrected).  A request to /eventsub whose "challenge" is truthy
    leaves the queue as it was, and it is answered with [{"challenge": c}]
    for that same value [c] when [c] can be rendered: a challenge that
    holds a NaN or an infinity makes [JSONResponse] raise ValueError, and
    otherwise one that holds a lone surrogate makes it raise
    UnicodeEncodeError. *)
Theorem C9_challenge_is_echoed_if_it_renders (p : gmap string json) (q : Queue.t) :
  truthy (dict_get p "challenge") = true →
  ∃ c, p !! "challenge" = Some c
       ∧ eventsub BIT_SPIN_AMOUNT p q
         = (if out_of_range c then Raise ValueError
            else if unencodable c then Raise UnicodeEncodeError
            else Ok (JDict {[ "challenge" := c ]}), q).
Proof.
  intros Hc. unfold eventsub. rewrite Hc.
  unfold dict_get in Hc. destruct (p !! "challenge") as [c|] eqn:E; [|done].
  exists c. split; [done|]. cbn [subscript]. rewrite E. mstep.
  unfold JSONResponse. rewrite out_of_range_challenge, unencodable_challenge.
  reflexivity.
Qed.

(** C5.  [on_spin_message] puts one ["spin"] on the queue exactly when the
    command is "spin" and its user is a moderator or bears the room's name
    (the broadcaster); otherwise the queue is unchanged. *)
Theorem C5_chat_spin_enqueues_iff_mod_or_broadcaster (cmd : ChatCommand) (q : Queue.t) :
  let authorised :=
    cmd_name cmd = "spin"
    ∧ (user_mod (cmd_user cmd) = true
       ∨ user_name (cmd_user cmd) = room_name (cmd_room cmd)) in
  (authorised → on_spin_message cmd q = (Ok (), Queue.put "spin" q))
  ∧ (¬ authorised → on_spin_message cmd q = (Ok (), q)).
Proof.
  unfold on_spin_message. split.
  - intros [Hn Hu]. rewrite bool_decide_eq_true_2 by done.
    destruct Hu as [->| Hu]; [done|].
    rewrite (bool_decide_eq_true_2 _ Hu), orb_true_r. done.
  - intros Hno.
    destruct (bool_decide _ && _) eqn:E; [|done].
    exfalso. apply Hno. apply andb_true_iff in E as [E1 E2].
    apply bool_decide_eq_true in E1. split; [done|].
    apply orb_true_iff in E2 as [E2|E2]; [by left|right].
    by apply bool_decide_eq_true in E2.
Qed.
End HandlerFacts.

(** * Invariants of every run *)

Section SystemFacts.

Variable BIT_SPIN_AMOUNT : Z.

Lemma inv_init : inv init.
Proof. split; done. Qed.

Lemma inv_put (s : state) :
  inv s → inv (set_spin_queue (Queue.put "spin" (spin_queue s)) s).
Proof.
  intros [H1 H2 H3 H4 H5 H6 H7]. split; simpl; try done.
  - by rewrite app_assoc, H2.
  - apply Forall_app; split; [done|]. by repeat constructor.
  - rewrite length_app, H4. simpl. lia.
Qed.

Lemma set_spin_queue_id (s : state) : set_spin_queue (spin_queue s) s = s.
Proof. by destruct s. Qed.

Lemma inv_put_or_same (s : state) (q : Queue.t) :
  q = spin_queue s ∨ q = Queue.put "spin" (spin_queue s) →
  inv s → inv (set_spin_queue q s).
Proof.
  intros [->| ->] Hs; [by rewrite set_spin_queue_id | by apply inv_put].
Qed.

Lemma inv_accept (ws : ws_id) (s : state) : inv s → inv (ws_accept ws s).
Proof.
  intros [H1 H2 H3 H4 H5 H6 H7]. split; try done.
  simpl. unfold clients_add. by rewrite H1.
Qed.

Lemma inv_finally (ws : ws_id) (s : state) :
  ws ∈ handlers s → inv s → inv (ws_finally ws s).
Proof.
  intros Hin [H1 H2 H3 H4 H5 H6 H7].
  unfold ws_finally, clients_remove. simpl.
  rewrite decide_True by (by rewrite <- H1).
  split; try done. simpl. by rewrite H1.
Qed.

Lemma inv_ack (ws : ws_id) (s : state) : inv s → inv (send_text ws "ack" s).
Proof.
  intros [H1 H2 H3 H4 H5 H6 H7]. split; try done.
  intros c. specialize (H7 c). unfold received, spun, send_text in *. simpl.
  rewrite filter_cons_False; [done|]. simpl. intros [_ ?]. done.
Qed.

Lemma inv_tick (s : state) : inv s → inv (set_now (S (now s)) s).
Proof.
  intros [H1 H2 H3 H4 H5 H6 H7]. split; try done.
  unfold head_ok in *. simpl. destruct (spins s) as [|sp rest]; [done|].
  destruct H6 as (?&?&?&?&?&?). repeat split; try done; [lia|].
  destruct (proc s); naive_solver lia.
Qed.

Lemma inv_spin_end (t : nat) (s : state) :
  proc s = Cooling t → t ≤ now s → inv s → inv (spin_end s).
Proof.
  intros Hp Ht [H1 H2 H3 H4 H5 H6 H7].
  unfold spin_end, Queue.task_done. rewrite H4, Hp. simpl.
  rewrite Nat.add_1_r.
  split; try done; simpl.
  unfold head_ok in *. simpl. rewrite Hp in H6.
  destruct (spins s) as [|sp rest]; [naive_solver|].
  destruct H6 as (?&?&?&?&?&?&?&?). repeat split; try done. lia.
Qed.

Lemma spaced_cons (sp : spin) (l : list spin) :
  (∀ b, head l = Some b → started b + COOLDOWN ≤ started sp) →
  spaced l → spaced (sp :: l).
Proof. destruct l; simpl; [done|]. intros H ?. split; [by apply H | done]. Qed.

Lemma inv_spin_begin (tok : string) (q : Queue.t) (s : state) :
  proc s = Idle → Queue.get (spin_queue s) = Some (tok, q) →
  inv s → inv (spin_begin tok q s).
Proof.
  intros Hp Hget [H1 H2 H3 H4 H5 H6 H7].
  unfold Queue.get in Hget.
  destruct (Queue.items (spin_queue s)) as [|x rest] eqn:Hitems; [done|].
  simplify_eq. rewrite Hp in H4. simpl in H4.
  unfold head_ok in H6. rewrite Hp in H6.
  assert (Hfl : inflight s = ∅) by (destruct (spins s); naive_solver).
  assert (Hall : Forall complete (spins s)).
  { destruct (spins s); [done|]. constructor; naive_solver. }
  assert (Hsp : spaced (new_spin tok s :: spins s)).
  { apply spaced_cons; [|done]. intros b Hb. simpl.
    destruct (spins s); simplify_eq/=. naive_solver. }
  unfold spin_begin. simpl. case_bool_decide as Hc.
  - split; simpl; try done.
    + rewrite <- H2, reverse_cons. by rewrite <- app_assoc.
    + lia.
    + unfold head_ok. simpl. repeat split; try done. set_solver.
  - assert (clients s = ∅) as Hemp by (first [done | by apply dec_stable]).
    split; simpl; try done.
    + rewrite <- H2, reverse_cons. by rewrite <- app_assoc.
    + lia.
    + unfold head_ok. simpl. rewrite Hemp. repeat split; try done. set_solver.
Qed.

Lemma inv_send_done (ws : ws_id) (ok : bool) (s : state) :
  ws ∈ inflight s → inv s → inv (send_done ws ok s).
Proof.
  intros Hin [H1 H2 H3 H4 H5 H6 H7].
  unfold head_ok in H6. destruct s as [cl q hd p fl t ob sps]. simpl in *.
  destruct sps as [|sp rest]; [set_solver|].
  destruct H6 as (Ht & Hrest & Hsub & Hisub & Hdisj & Hproc).
  assert (Hnew : ws ∉ delivered sp) by set_solver.
  unfold send_done, mark_delivered, deliver. destruct ok; simpl.
  - assert (Hrecv : ∀ c st,
      spins st = {| started := started sp; token := token sp;
                    snapshot := snapshot sp;
                    delivered := {[ws]} ∪ delivered sp |} :: rest →
      outbox st = (t, ws, "spin") :: ob →
      received c "spin" st = spun c st).
    { intros c st Hs Ho. specialize (H7 c). unfold received, spun in *.
      rewrite Hs, Ho. simpl in *.
      destruct (decide (c = ws)) as [->|Hne].
      - rewrite filter_cons_True by done.
        rewrite (filter_cons_True _ _ rest) by (simpl; set_solver).
        rewrite filter_cons_False in H7 by done. simpl. by rewrite H7.
      - rewrite filter_cons_False by (simpl; naive_solver).
        destruct (decide (c ∈ delivered sp)).
        + rewrite filter_cons_True by (simpl; set_solver).
          rewrite filter_cons_True in H7 by done. done.
        + rewrite filter_cons_False by (simpl; set_solver).
          rewrite filter_cons_False in H7 by done. done. }
    destruct p; simpl.
    + set_solver.
    + destruct Hproc as [Hsnap Hne].
      case_bool_decide as Hemp; simpl.
      * split; simpl; try done; [|by intros c; apply Hrecv].
        unfold head_ok. simpl. unfold complete. simpl.
        split_and!; try done.
        -- set_solver.
        -- set_solver.
        -- set_solver.
        -- lia.
        -- rewrite Hsnap. apply set_eq. intros x.
           destruct (decide (x = ws)); set_solver.
      * split; simpl; try done; [|by intros c; apply Hrecv].
        unfold head_ok. simpl.
        split_and!; try done.
        -- set_solver.
        -- set_solver.
        -- set_solver.
        -- rewrite Hsnap. apply set_eq. intros x.
           destruct (decide (x = ws)); set_solver.
    + set_solver.
    + split; simpl; try done; [|by intros c; apply Hrecv].
      unfold head_ok. simpl. repeat split; try done; set_solver.
  - destruct p; simpl.
    + set_solver.
    + split; simpl; try done. unfold head_ok. simpl.
      repeat split; try done; set_solver.
    + set_solver.
    + split; simpl; try done. unfold head_ok. simpl.
      repeat split; try done; set_solver.
Qed.

Lemma step_inv (e : event) (s s' : state) :
  inv s → step BIT_SPIN_AMOUNT e s = Some s' → inv s'.
Proof.
  intros Hs Hstep.
  destruct e as [p|cmd|ws|ws msg ok|ws| |ws ok| | ]; simpl in Hstep;
    unfold guard in Hstep.
  - simplify_eq. apply inv_put_or_same; [|done].
    destruct (eventsub_queue BIT_SPIN_AMOUNT p (spin_queue s)); auto.
  - simplify_eq. apply inv_put_or_same; [|done].
    destruct (on_spin_message_queue cmd (spin_queue s)); auto.
  - case_bool_decide; simplify_eq. by apply inv_accept.
  - case_bool_decide; simplify_eq. unfold ws_receive.
    destruct ok; [by apply inv_ack | by apply inv_finally].
  - case_bool_decide; simplify_eq. by apply inv_finally.
  - destruct (proc s) eqn:Hp; try done.
    destruct (Queue.get (spin_queue s)) as [[tok q]|] eqn:Hget; simplify_eq.
    by apply inv_spin_begin.
  - case_bool_decide; simplify_eq. by apply inv_send_done.
  - destruct (proc s) as [| |t|] eqn:Hp; try done.
    case_bool_decide; simplify_eq. by eapply inv_spin_end.
  - simplify_eq. by apply inv_tick.
Qed.

Lemma run_inv (evs : list event) (s s' : state) :
  inv s → run BIT_SPIN_AMOUNT evs s = Some s' → inv s'.
Proof.
  revert s. induction evs as [|e evs IH]; intros s Hs Hrun; simpl in Hrun.
  - by simplify_eq.
  - destruct (step BIT_SPIN_AMOUNT e s) as [s1|] eqn:Hstep; [|done].
    eapply IH; [|done]. by eapply step_inv.
Qed.

Lemma reachable_inv (s : state) : reachable BIT_SPIN_AMOUNT s → inv s.
Proof. intros [evs Hrun]. eapply run_inv; [apply inv_init | done]. Qed.

Lemma run_app (evs1 evs2 : list event) (s : state) :
  run BIT_SPIN_AMOUNT (evs1 ++ evs2) s = run BIT_SPIN_AMOUNT evs1 s ≫= run BIT_SPIN_AMOUNT evs2.
Proof.
  revert s. induction evs1 as [|e evs1 IH]; intros s; simpl; [done|].
  destruct (step BIT_SPIN_AMOUNT e s); [apply IH | done].
Qed.

Lemma reachable_run (evs : list event) (s s' : state) :
  reachable BIT_SPIN_AMOUNT s → run BIT_SPIN_AMOUNT evs s = Some s' → reachable BIT_SPIN_AMOUNT s'.
Proof.
  intros [evs0 H0] Hrun. exists (evs0 ++ evs). rewrite run_app, H0. done.
Qed.

(** C8.  On every run, everything ever put on the queue, everything
    waiting in it and every token the processor took is ["spin"]; so is
    whatever [get] returns next. *)
Theorem C8_queue_holds_only_spin (s : state) :
  reachable BIT_SPIN_AMOUNT s →
  Forall (eq "spin") (Queue.put_log (spin_queue s))
  ∧ Forall (eq "spin") (Queue.items (spin_queue s))
  ∧ Forall (λ sp, token sp = "spin") (spins s)
  ∧ (∀ tok q, Queue.get (spin_queue s) = Some (tok, q) → tok = "spin").
Proof.
  intros Hr. destruct (reachable_inv s Hr) as [_ Hfifo Htok _ _ _ _].
  rewrite <- Hfifo in Htok. apply Forall_app in Htok as [Hsp Hit].
  assert (Hput : Forall (eq "spin") (Queue.put_log (spin_queue s))).
  { rewrite <- Hfifo. apply Forall_app. done. }
  split_and!; try done.
  - rewrite Forall_reverse, Forall_fmap in Hsp.
    eapply Forall_impl; [exact Hsp|]. intros sp Hx. simpl in Hx. done.
  - intros tok q Hget. unfold Queue.get in Hget.
    destruct (Queue.items (spin_queue s)) as [|x rest]; simplify_eq.
    by inversion Hit.
Qed.
End SystemFacts.

(** * The processor *)

Section Processor.

Variable BIT_SPIN_AMOUNT : Z.

(** *** What each block leaves alone *)

Lemma ws_finally_frame (ws : ws_id) (s : state) :
  spin_queue (ws_finally ws s) = spin_queue s
  ∧ proc (ws_finally ws s) = proc s
  ∧ inflight (ws_finally ws s) = inflight s
  ∧ now (ws_finally ws s) = now s
  ∧ outbox (ws_finally ws s) = outbox s
  ∧ spins (ws_finally ws s) = spins s.
Proof. unfold ws_finally. by destruct (clients_remove _ _). Qed.

Lemma ws_receive_frame (ws : ws_id) (msg : string) (ok : bool) (s : state) :
  spin_queue (ws_receive ws msg ok s) = spin_queue s
  ∧ proc (ws_receive ws msg ok s) = proc s
  ∧ inflight (ws_receive ws msg ok s) = inflight s
  ∧ now (ws_receive ws msg ok s) = now s
  ∧ spins (ws_receive ws msg ok s) = spins s.
Proof.
  unfold ws_receive. destruct ok; [done|].
  destruct (ws_finally_frame ws s) as (?&?&?&?&?&?). done.
Qed.

Lemma spin_end_frame (s : state) :
  clients (spin_end s) = clients s
  ∧ inflight (spin_end s) = inflight s
  ∧ now (spin_end s) = now s
  ∧ outbox (spin_end s) = outbox s
  ∧ spins (spin_end s) = spins s.
Proof. unfold spin_end. by destruct (Queue.task_done _). Qed.

Lemma send_done_frame (ws : ws_id) (ok : bool) (s : state) :
  clients (send_done ws ok s) = clients s
  ∧ handlers (send_done ws ok s) = handlers s
  ∧ spin_queue (send_done ws ok s) = spin_queue s
  ∧ now (send_done ws ok s) = now s
  ∧ inflight (send_done ws ok s) = inflight s ∖ {[ws]}.
Proof.
  unfold send_done, mark_delivered.
  destruct ok, s as [cl q hd [] fl t ob [|sp rest]]; simpl;
    try case_bool_decide; done.
Qed.

Lemma send_done_spins (ws : ws_id) (ok : bool) (s : state) :
  spins (send_done ws ok s)
  = if ok then match spins s with
               | [] => []
               | sp :: rest => deliver ws sp :: rest
               end
    else spins s.
Proof.
  unfold send_done, mark_delivered.
  destruct ok, s as [cl q hd [] fl t ob [|sp rest]]; simpl;
    try case_bool_decide; done.
Qed.

Lemma send_done_outbox (ws : ws_id) (ok : bool) (s : state) :
  outbox (send_done ws ok s)
  = if ok then (now s, ws, "spin") :: outbox s else outbox s.
Proof.
  unfold send_done, mark_delivered.
  destruct ok, s as [cl q hd [] fl t ob [|sp rest]]; simpl;
    try case_bool_decide; done.
Qed.

Lemma step_not_take (e : event) (s s' : state) :
  e ≠ Take → step BIT_SPIN_AMOUNT e s = Some s' →
  spins s' = spins s
  ∨ ∃ ws sp rest, ws ∈ inflight s ∧ spins s = sp :: rest
                  ∧ spins s' = deliver ws sp :: rest.
Proof.
  intros Hne Hstep.
  destruct e as [p|cmd|ws|ws msg ok|ws| |ws ok| | ]; simpl in Hstep;
    unfold guard in Hstep; try done; repeat case_match; simplify_eq;
    try (left; done).
  - left. apply ws_receive_frame.
  - left. apply ws_finally_frame.
  - rewrite send_done_spins. destruct ok; [|by left].
    destruct (spins s) as [|sp rest]; [by left|].
    right. exists ws, sp, rest. split; [|done]. by apply bool_decide_eq_true_1 in H.
  - left. apply spin_end_frame.
Qed.

Lemma spin_begin_frame (tok : string) (q : Queue.t) (s : state) :
  clients (spin_begin tok q s) = clients s
  ∧ handlers (spin_begin tok q s) = handlers s
  ∧ spin_queue (spin_begin tok q s) = q
  ∧ now (spin_begin tok q s) = now s
  ∧ outbox (spin_begin tok q s) = outbox s
  ∧ spins (spin_begin tok q s) = new_spin tok s :: spins s.
Proof. unfold spin_begin. simpl. by case_bool_decide. Qed.

Lemma step_now_mono (e : event) (s s' : state) :
  step BIT_SPIN_AMOUNT e s = Some s' → now s ≤ now s'.
Proof.
  intros Hstep.
  destruct e as [p|cmd|ws|ws msg ok|ws| |ws ok| | ]; simpl in Hstep;
    unfold guard in Hstep; repeat case_match; simplify_eq; simpl; try lia.
  - by destruct (ws_receive_frame ws msg ok s) as (_&_&_&->&_).
  - by destruct (ws_finally_frame ws s) as (_&_&_&->&_).
  - by destruct (spin_begin_frame s0 t s) as (_&_&_&->&_).
  - by destruct (send_done_frame ws ok s) as (_&_&_&->&_).
  - by destruct (spin_end_frame s) as (_&_&->&_).
Qed.

Lemma run_now_mono (evs : list event) (s s' : state) :
  run BIT_SPIN_AMOUNT evs s = Some s' → now s ≤ now s'.
Proof.
  revert s. induction evs as [|e evs IH]; intros s Hrun; simpl in Hrun.
  - simplify_eq. lia.
  - destruct (step BIT_SPIN_AMOUNT e s) as [s1|] eqn:Hstep; [|done].
    apply step_now_mono in Hstep. apply IH in Hrun. lia.
Qed.

(** *** An exception in the processor is final *)

Lemma eventsub_items (p : gmap string json) (q : Queue.t) :
  ∃ more, Queue.items (eventsub BIT_SPIN_AMOUNT p q).2 = Queue.items q ++ more.
Proof.
  destruct (eventsub_queue BIT_SPIN_AMOUNT p q) as [->| ->].
  - exists []. by rewrite app_nil_r.
  - by exists ["spin"].
Qed.

Lemma on_spin_message_items (cmd : ChatCommand) (q : Queue.t) :
  ∃ more, Queue.items (on_spin_message cmd q).2 = Queue.items q ++ more.
Proof.
  destruct (on_spin_message_queue cmd q) as [->| ->].
  - exists []. by rewrite app_nil_r.
  - by exists ["spin"].
Qed.

Lemma step_crashed (ev : event) (e : exn) (s s' : state) :
  proc s = Crashed e → step BIT_SPIN_AMOUNT ev s = Some s' →
  proc s' = Crashed e
  ∧ length (spins s') = length (spins s)
  ∧ ∃ more, Queue.items (spin_queue s') = Queue.items (spin_queue s) ++ more.
Proof.
  intros Hp Hstep.
  assert (Hsame : ∀ l : list string, ∃ more, l = l ++ more).
  { intros l. exists []. by rewrite app_nil_r. }
  destruct ev as [p|cmd|ws|ws msg ok|ws| |ws ok| | ]; simpl in Hstep;
    unfold guard in Hstep; rewrite ?Hp in Hstep; try done;
    repeat case_match; simplify_eq; simpl.
  - split_and!; try done. apply eventsub_items.
  - split_and!; try done. apply on_spin_message_items.
  - done.
  - destruct (ws_receive_frame ws msg ok s) as (->&->&_&_&->). done.
  - destruct (ws_finally_frame ws s) as (->&->&_&_&_&->). done.
  - destruct (send_done_frame ws ok s) as (_&_&->&_&_).
    rewrite send_done_spins. split_and!; try done.
    + unfold send_done, mark_delivered.
      destruct ok, s as [cl q hd [] fl t ob [|sp rest]]; simpl in *; done.
    + destruct ok, (spins s); done.
  - done.
Qed.

Lemma run_crashed (evs : list event) (e : exn) (s s' : state) :
  proc s = Crashed e → run BIT_SPIN_AMOUNT evs s = Some s' →
  proc s' = Crashed e
  ∧ length (spins s') = length (spins s)
  ∧ ∃ more, Queue.items (spin_queue s') = Queue.items (spin_queue s) ++ more.
Proof.
  revert s. induction evs as [|ev evs IH]; intros s Hp Hrun; simpl in Hrun.
  - simplify_eq. split_and!; try done. exists []. by rewrite app_nil_r.
  - destruct (step BIT_SPIN_AMOUNT ev s) as [s1|] eqn:Hstep; [|done].
    destruct (step_crashed _ _ _ _ Hp Hstep) as (Hp1 & Hl1 & more1 & Hi1).
    destruct (IH _ Hp1 Hrun) as (Hp2 & Hl2 & more2 & Hi2).
    split_and!; [done | congruence |].
    exists (more1 ++ more2). by rewrite Hi2, Hi1, app_assoc.
Qed.

(** *** The cooldown *)

Lemma take_or_not (e : event) : e = Take ∨ e ≠ Take.
Proof. destruct e; (by left) || (by right). Qed.

Lemma spin_end_proc (s : state) :
  inv s → proc s ≠ Idle → proc (spin_end s) = Idle.
Proof.
  intros Hinv Hp. pose proof (inv_unfinished s Hinv) as Hu.
  unfold spin_end, Queue.task_done. rewrite Hu.
  destruct (proc s); [done|..]; simpl; by rewrite Nat.add_1_r.
Qed.

(** While no send is in flight, only [Take] and [Wake] move the processor. *)
Lemma step_quiet (e : event) (s s' : state) :
  inv s → inflight s = ∅ → e ≠ Take →
  step BIT_SPIN_AMOUNT e s = Some s' →
  proc s' = proc s
  ∨ ∃ t, e = Wake ∧ proc s = Cooling t ∧ t ≤ now s ∧ proc s' = Idle.
Proof.
  intros Hinv Hfl Hne Hstep.
  destruct e as [p|cmd|ws|ws msg ok|ws| |ws ok| | ]; simpl in Hstep;
    unfold guard in Hstep; try done.
  - simplify_eq. by left.
  - simplify_eq. by left.
  - case_bool_decide; simplify_eq. by left.
  - case_bool_decide; simplify_eq. left. apply ws_receive_frame.
  - case_bool_decide; simplify_eq. left. apply ws_finally_frame.
  - case_bool_decide; simplify_eq. set_solver.
  - destruct (proc s) as [| |t|] eqn:Hp; try done.
    case_bool_decide; simplify_eq. right. exists t. split_and!; try done.
    apply spin_end_proc; [done | congruence].
  - simplify_eq. by left.
Qed.

Lemma quiet_inflight (s : state) :
  inv s → (proc s = Idle ∨ ∃ t, proc s = Cooling t) → inflight s = ∅.
Proof.
  intros Hinv Hp. pose proof (inv_head s Hinv) as Hh. unfold head_ok in Hh.
  destruct (spins s); [naive_solver|].
  destruct Hp as [Hp|[t Hp]]; rewrite Hp in Hh; naive_solver.
Qed.

Lemma step_cooled (e : event) (t : nat) (old : list spin) (s s' : state) :
  inv s → cooled t old s → step BIT_SPIN_AMOUNT e s = Some s' → cooled t old s'.
Proof.
  intros Hinv (newer & Hspins & Hnew & Hproc) Hstep.
  destruct (take_or_not e) as [->|Hne].
  - simpl in Hstep. destruct (proc s) eqn:Hp; try done.
    destruct (Queue.get (spin_queue s)) as [[tok q]|]; simplify_eq.
    destruct (spin_begin_frame tok q s) as (_&_&_&_&_&Hsp).
    exists (new_spin tok s :: newer). rewrite Hsp, Hspins. split_and!; try done.
    constructor; [|done]. simpl.
    destruct newer as [|sp newer].
    + destruct Hproc as [?|[_ ?]]; done.
    + apply Forall_cons in Hnew as [Hsp0 _].
      pose proof (inv_head s Hinv) as Hh. unfold head_ok in Hh.
      rewrite Hspins in Hh. simpl in Hh. lia.
  - destruct newer as [|sp0 newer].
    + specialize (Hproc eq_refl).
      assert (Hfl : inflight s = ∅) by (apply quiet_inflight; naive_solver).
      pose proof (step_now_mono _ _ _ Hstep) as Hmono.
      exists []. split_and!; [|done|intros _].
      * destruct (step_not_take e s s' Hne Hstep) as [->|(ws&_&_&Hin&_)];
          [done | set_solver].
      * destruct (step_quiet e s s' Hinv Hfl Hne Hstep) as [->|(u&_&Hu&Hle&->)].
        -- destruct Hproc as [?|[? ?]]; [by left | right; split; [done | lia]].
        -- right. destruct Hproc as [Hp|[Hp _]]; [|congruence].
           split; [done|]. rewrite Hu in Hp. simplify_eq. lia.
    + exists (match spins s' with [] => [] | sp :: _ => sp :: newer end).
      apply Forall_cons in Hnew as [? ?].
      destruct (step_not_take e s s' Hne Hstep) as [->|(ws&sp&rest&_&Hs&->)].
      * rewrite Hspins. simpl. split_and!; try done. by constructor.
      * rewrite Hspins in Hs. simplify_eq/=. split_and!; try done. by constructor.
Qed.

Lemma run_cooled (evs : list event) (t : nat) (old : list spin) (s s' : state) :
  inv s → cooled t old s → run BIT_SPIN_AMOUNT evs s = Some s' → cooled t old s'.
Proof.
  revert s. induction evs as [|e evs IH]; intros s Hinv Hc Hrun; simpl in Hrun.
  - by simplify_eq.
  - destruct (step BIT_SPIN_AMOUNT e s) as [s1|] eqn:Hstep; [|done].
    eapply IH; [| |done]; [by eapply step_inv | by eapply step_cooled].
Qed.

End Processor.

(** * Progress *)

Section Progress.

Variable BIT_SPIN_AMOUNT : Z.

Lemma set_now_id (s : state) : set_now (now s) s = s.
Proof. by destruct s. Qed.

Lemma run_ticks (n : nat) (s : state) :
  run BIT_SPIN_AMOUNT (replicate n Tick) s = Some (set_now (n + now s) s).
Proof.
  revert s. induction n as [|n IH]; intros s; simpl.
  - by rewrite set_now_id.
  - rewrite IH. f_equal. destruct s. unfold set_now. simpl. f_equal. lia.
Qed.

Lemma run_cons (e : event) (evs : list event) (s s1 : state) :
  step BIT_SPIN_AMOUNT e s = Some s1 →
  run BIT_SPIN_AMOUNT (e :: evs) s = run BIT_SPIN_AMOUNT evs s1.
Proof. intros H. simpl. by rewrite H. Qed.

Lemma run_app_Some (evs1 evs2 : list event) (s s1 : state) :
  run BIT_SPIN_AMOUNT evs1 s = Some s1 →
  run BIT_SPIN_AMOUNT (evs1 ++ evs2) s = run BIT_SPIN_AMOUNT evs2 s1.
Proof. intros H. by rewrite run_app, H. Qed.

Lemma send_done_proc (ws : ws_id) (s : state) :
  proc s = Gathering →
  proc (send_done ws true s)
  = if bool_decide (inflight s ∖ {[ws]} = ∅)
    then Cooling (now s + COOLDOWN) else Gathering.
Proof.
  intros Hp. unfold send_done, mark_delivered.
  destruct s as [cl q hd p fl t ob [|sp rest]]; simpl in *; subst p; simpl;
    by case_bool_decide.
Qed.

Lemma run_sends (l : list ws_id) (s : state) :
  inv s → proc s = Gathering → NoDup l → inflight s = list_to_set l →
  ∃ s', run BIT_SPIN_AMOUNT (sends l) s = Some s'
        ∧ proc s' = Cooling (now s + COOLDOWN)
        ∧ clients s' = clients s
        ∧ spin_queue s' = spin_queue s
        ∧ now s' = now s.
Proof.
  revert s. induction l as [|ws l IH]; intros s Hinv Hp Hnd Hfl.
  - exfalso. pose proof (inv_head s Hinv) as Hh. unfold head_ok in Hh.
    rewrite Hp in Hh. destruct (spins s); [naive_solver|]. set_solver.
  - apply NoDup_cons in Hnd as [Hnin Hnd].
    assert (Hin : ws ∈ inflight s) by set_solver.
    assert (Hstep : step BIT_SPIN_AMOUNT (SendDone ws true) s
                    = Some (send_done ws true s)).
    { simpl. unfold guard. by rewrite bool_decide_eq_true_2. }
    pose proof (step_inv _ _ _ _ Hinv Hstep) as Hinv1.
    destruct (send_done_frame ws true s) as (Hc & _ & Hq & Hn & Hf).
    assert (Hfl1 : inflight (send_done ws true s) = list_to_set l).
    { rewrite Hf, Hfl. set_solver. }
    pose proof (send_done_proc ws s Hp) as Hp1.
    unfold sends. rewrite fmap_cons, (run_cons _ _ _ _ Hstep). fold (sends l).
    destruct l as [|ws' l'].
    + exists (send_done ws true s). simpl.
      rewrite bool_decide_eq_true_2 in Hp1 by (rewrite <- Hf, Hfl1; done).
      done.
    + rewrite bool_decide_eq_false_2 in Hp1 by (rewrite <- Hf, Hfl1; set_solver).
      destruct (IH _ Hinv1 Hp1 Hnd Hfl1) as (s' & Hrun & ? & ? & ? & ?).
      exists s'. split_and!; try congruence.
Qed.

Lemma run_wake (t : nat) (s : state) :
  inv s → proc s = Cooling t → t ≤ now s →
  ∃ s', run BIT_SPIN_AMOUNT [Wake] s = Some s'
        ∧ proc s' = Idle
        ∧ clients s' = clients s
        ∧ Queue.items (spin_queue s') = Queue.items (spin_queue s)
        ∧ Queue.put_log (spin_queue s') = Queue.put_log (spin_queue s).
Proof.
  intros Hinv Hp Ht. exists (spin_end s). simpl. rewrite Hp. unfold guard.
  rewrite bool_decide_eq_true_2 by done. split_and!; try done.
  - apply spin_end_proc; [done | congruence].
  - apply spin_end_frame.
  - unfold spin_end, Queue.task_done. rewrite (inv_unfinished s Hinv), Hp.
    simpl. by rewrite Nat.add_1_r.
  - unfold spin_end, Queue.task_done. rewrite (inv_unfinished s Hinv), Hp.
    simpl. by rewrite Nat.add_1_r.
Qed.

Lemma run_cooldown (t : nat) (s : state) :
  inv s → proc s = Cooling t →
  ∃ s', run BIT_SPIN_AMOUNT (replicate (t - now s) Tick ++ [Wake]) s = Some s'
        ∧ settled s s'
        ∧ Queue.items (spin_queue s') = Queue.items (spin_queue s).
Proof.
  intros Hinv Hp. rewrite (run_app_Some _ _ _ _ (run_ticks _ _)).
  set (s1 := set_now (t - now s + now s) s).
  assert (Hinv1 : inv s1).
  { eapply (run_inv BIT_SPIN_AMOUNT (replicate (t - now s) Tick)); [done|].
    apply run_ticks. }
  destruct (run_wake t s1 Hinv1 Hp) as (s' & Hrun & ? & ? & ? & ?).
  { simpl. lia. }
  exists s'. done.
Qed.

Lemma run_cycle (tok : string) (rest : list string) (s : state) :
  inv s → proc s = Idle → Queue.items (spin_queue s) = tok :: rest →
  ∃ s', run BIT_SPIN_AMOUNT (cycle (clients s)) s = Some s'
        ∧ settled s s'
        ∧ Queue.items (spin_queue s') = rest.
Proof.
  intros Hinv Hp Hitems.
  set (q := Queue.mk rest (Queue.unfinished_tasks (spin_queue s))
                     (Queue.put_log (spin_queue s))).
  assert (Hstep : step BIT_SPIN_AMOUNT Take s = Some (spin_begin tok q s)).
  { simpl. unfold Queue.get. by rewrite Hp, Hitems. }
  pose proof (step_inv _ _ _ _ Hinv Hstep) as Hinv1.
  destruct (spin_begin_frame tok q s) as (Hc & _ & Hq & Hn & _ & _).
  unfold cycle. rewrite (run_cons _ _ _ _ Hstep).
  assert (∃ s2, run BIT_SPIN_AMOUNT (sends (elements (clients s)))
                    (spin_begin tok q s) = Some s2
                ∧ inv s2
                ∧ proc s2 = Cooling (now s2 + COOLDOWN)
                ∧ clients s2 = clients s
                ∧ spin_queue s2 = q) as (s2 & Hrun2 & Hinv2 & Hp2 & Hc2 & Hq2).
  { destruct (decide (clients s = ∅)) as [Hemp|Hne].
    - exists (spin_begin tok q s). rewrite Hemp, elements_empty. simpl.
      split_and!; try done; [|by rewrite Hc].
      rewrite Hn. unfold spin_begin. simpl.
      by rewrite bool_decide_eq_false_2 by (by intros ?).
    - assert (Hp1 : proc (spin_begin tok q s) = Gathering).
      { unfold spin_begin. simpl. by rewrite bool_decide_eq_true_2. }
      assert (Hfl1 : inflight (spin_begin tok q s)
                     = list_to_set (elements (clients s))).
      { rewrite list_to_set_elements_L. unfold spin_begin. simpl.
        by rewrite bool_decide_eq_true_2. }
      destruct (run_sends _ _ Hinv1 Hp1 (NoDup_elements _) Hfl1)
        as (s2 & Hrun & Hp2 & Hc2 & Hq2 & Hn2).
      exists s2. split_and!; try congruence.
      by eapply run_inv. }
  rewrite (run_app_Some _ _ _ _ Hrun2).
  destruct (run_cooldown _ _ Hinv2 Hp2) as (s' & Hrun & (? & ? & ?) & ?).
  replace (now s2 + COOLDOWN - now s2) with COOLDOWN in Hrun by lia.
  exists s'. split; [done|]. rewrite Hq2 in *. unfold settled. simpl in *.
  split_and!; congruence.
Qed.

Lemma run_finish (s : state) :
  inv s → (∀ e, proc s ≠ Crashed e) →
  ∃ s', run BIT_SPIN_AMOUNT (finish s) s = Some s'
        ∧ settled s s'
        ∧ Queue.items (spin_queue s') = Queue.items (spin_queue s).
Proof.
  intros Hinv Hp. unfold finish.
  destruct (proc s) as [| |t|e] eqn:Hproc.
  - exists s. done.
  - pose proof (inv_head s Hinv) as Hh. unfold head_ok in Hh.
    assert (Hfl : inflight s = list_to_set (elements (inflight s))).
    { by rewrite list_to_set_elements_L. }
    destruct (run_sends _ _ Hinv Hproc (NoDup_elements _) Hfl)
      as (s2 & Hrun & Hp2 & Hc2 & Hq2 & Hn2).
    assert (Hinv2 : inv s2) by (by eapply run_inv).
    rewrite (run_app_Some _ _ _ _ Hrun).
    rewrite <- Hn2 in Hp2.
    destruct (run_cooldown _ _ Hinv2 Hp2) as (s' & Hrun' & (? & ? & ?) & ?).
    replace (now s2 + COOLDOWN - now s2) with COOLDOWN in Hrun' by lia.
    exists s'. split; [done|]. unfold settled. split_and!; congruence.
  - by apply run_cooldown.
  - by destruct (Hp e).
Qed.

Lemma run_cycles (n : nat) (s : state) :
  inv s → proc s = Idle → length (Queue.items (spin_queue s)) = n →
  ∃ s', run BIT_SPIN_AMOUNT (concat (replicate n (cycle (clients s)))) s = Some s'
        ∧ settled s s'
        ∧ Queue.items (spin_queue s') = [].
Proof.
  revert s. induction n as [|n IH]; intros s Hinv Hp Hlen.
  - exists s. split_and!; try done. by apply nil_length_inv.
  - destruct (Queue.items (spin_queue s)) as [|tok rest] eqn:Hitems; [done|].
    destruct (run_cycle tok rest s Hinv Hp Hitems) as (s1 & Hrun & (Hp1&Hc1&Hl1) & Hi1).
    assert (Hinv1 : inv s1) by (by eapply run_inv).
    destruct (IH s1 Hinv1 Hp1) as (s' & Hrun' & (?&?&?) & ?).
    { rewrite Hi1. simpl in Hlen. lia. }
    exists s'. cbn [replicate concat].
    rewrite (run_app_Some _ _ _ _ Hrun), <- Hc1, Hrun'.
    unfold settled. split_and!; congruence.
Qed.

(** Left alone, a processor that has not crashed works off the queue:
    one finished spin per trigger ever submitted. *)
Lemma drain_all (s : state) :
  inv s → (∀ e, proc s ≠ Crashed e) →
  ∃ s', run BIT_SPIN_AMOUNT (drain s) s = Some s'
        ∧ proc s' = Idle
        ∧ Queue.items (spin_queue s') = []
        ∧ Queue.put_log (spin_queue s') = Queue.put_log (spin_queue s)
        ∧ reverse (token <$> spins s') = Queue.put_log (spin_queue s)
        ∧ length (spins s') = length (Queue.put_log (spin_queue s))
        ∧ Forall complete (spins s')
        ∧ spaced (spins s').
Proof.
  intros Hinv Hp. unfold drain.
  destruct (run_finish s Hinv Hp) as (s1 & Hrun1 & (Hp1&Hc1&Hl1) & Hi1).
  assert (Hinv1 : inv s1) by (by eapply run_inv).
  destruct (run_cycles _ s1 Hinv1 Hp1 eq_refl) as (s' & Hrun' & (Hp'&Hc'&Hl') & Hi').
  assert (Hinv' : inv s') by (by eapply run_inv).
  exists s'. rewrite (run_app_Some _ _ _ _ Hrun1), <- Hi1, <- Hc1, Hrun'.
  pose proof (inv_fifo s' Hinv') as Hfifo. rewrite Hi', app_nil_r in Hfifo.
  split_and!; try congruence.
  - rewrite <- Hl1, <- Hl', <- Hfifo. by rewrite length_reverse, length_fmap.
  - pose proof (inv_head s' Hinv') as Hh. unfold head_ok in Hh. rewrite Hp' in Hh.
    destruct (spins s'); [done|]. constructor; naive_solver.
  - by apply inv_spaced.
Qed.
End Progress.

(** * The claims *)

Section Claims.

Variable BIT_SPIN_AMOUNT : Z.

Lemma run_no_take (evs : list event) (s s' : state) (sp : spin) (rest : list spin) :
  Take ∉ evs → run BIT_SPIN_AMOUNT evs s = Some s' → spins s = sp :: rest →
  ∃ sp', spins s' = sp' :: rest ∧ same_spin sp sp'.
Proof.
  revert s sp. induction evs as [|e evs IH]; intros s sp Hno Hrun Hs; simpl in Hrun.
  - simplify_eq. by exists sp.
  - apply not_elem_of_cons in Hno as [Hne Hno].
    destruct (step BIT_SPIN_AMOUNT e s) as [s1|] eqn:Hstep; [|done].
    destruct (step_not_take BIT_SPIN_AMOUNT e s s1) as [Heq|(ws&sp0&rest0&_&Hs0&Hs1)];
      [done..| |].
    + rewrite Hs in Heq. by eapply IH.
    + rewrite Hs in Hs0. simplify_eq.
      destruct (IH s1 (deliver ws sp0) Hno Hrun Hs1) as (sp' & ? & (?&?&?)).
      exists sp'. split; [done|]. unfold same_spin in *. simpl in *. done.
Qed.

(** C7.  The sends of a spin go to the registry as it was when the trigger
    was taken.  A connection [c] absent at that moment gets no ["spin"]
    while that spin is the current one, whatever else happens (it may
    connect meanwhile); the spin's deliveries stay within the snapshot and,
    once the gather has returned, are the snapshot.  If [c] is registered
    when the next trigger is taken, a send to [c] is part of that spin. *)
Theorem C7_broadcast_goes_to_the_snapshot (s0 s1 s2 : state) (evs : list event) (c : ws_id) :
  reachable BIT_SPIN_AMOUNT s0 →
  step BIT_SPIN_AMOUNT Take s0 = Some s1 →
  c ∉ clients s0 →
  Take ∉ evs →
  run BIT_SPIN_AMOUNT evs s1 = Some s2 →
  (∃ sp rest,
      spins s2 = sp :: rest
      ∧ snapshot sp = clients s0
      ∧ delivered sp ⊆ clients s0
      ∧ ((proc s2 = Idle ∨ ∃ t, proc s2 = Cooling t) → delivered sp = clients s0))
  ∧ received c "spin" s2 = received c "spin" s0
  ∧ (c ∈ clients s2 →
     ∀ s3, step BIT_SPIN_AMOUNT Take s2 = Some s3 →
           c ∈ inflight s3
           ∧ ∃ sp' rest', spins s3 = sp' :: rest' ∧ snapshot sp' = clients s2).
Proof.
  intros Hr0 Htake Hc Hno Hrun.
  pose proof (reachable_inv _ _ Hr0) as Hinv0.
  pose proof (step_inv _ _ _ _ Hinv0 Htake) as Hinv1.
  pose proof (run_inv _ _ _ _ Hinv1 Hrun) as Hinv2.
  simpl in Htake. destruct (proc s0) eqn:Hp0; try done.
  destruct (Queue.get (spin_queue s0)) as [[tok q]|] eqn:Hget; simplify_eq.
  destruct (spin_begin_frame tok q s0) as (_&_&_&_&_&Hs1).
  destruct (run_no_take _ _ _ _ _ Hno Hrun Hs1) as (sp & Hs2 & (_&_&Hsnap)).
  simpl in Hsnap.
  pose proof (inv_head s2 Hinv2) as Hh. unfold head_ok in Hh. rewrite Hs2 in Hh.
  destruct Hh as (_&_&Hsub&_&_&Hphase). rewrite Hsnap in Hsub.
  split_and!.
  - exists sp, (spins s0). split_and!; try done.
    unfold complete in Hphase. rewrite Hsnap in Hphase.
    intros [Hp|[t Hp]]; rewrite Hp in Hphase; naive_solver.
  - rewrite (inv_received s2 Hinv2), (inv_received s0 Hinv0).
    unfold spun. rewrite Hs2. rewrite filter_cons_False; [done|]. set_solver.
  - intros Hin s3 Htake3. simpl in Htake3.
    destruct (proc s2) eqn:Hp2; try done.
    destruct (Queue.get (spin_queue s2)) as [[tok' q']|]; simplify_eq.
    destruct (spin_begin_frame tok' q' s2) as (_&_&_&_&_&Hs3).
    split; [|by exists (new_spin tok' s2), (spins s2)].
    unfold spin_begin. simpl.
    rewrite bool_decide_eq_true_2 by set_solver. done.
Qed.

(** C10.  Every text message received from a connected client is answered
    with ["ack"] to that client; queue, registry, processor and history are
    untouched, and the step does not depend on the text.  (If the send of
    the answer raises, the client is gone: the handler leaves its loop and
    deregisters it, again whatever the text was, and the queue is as it
    was.) *)
Theorem C10_every_message_is_acked (s : state) (ws : ws_id) (msg : string) :
  ws ∈ handlers s →
  step BIT_SPIN_AMOUNT (WsMessage ws msg true) s = Some (send_text ws "ack" s)
  ∧ outbox (send_text ws "ack" s) = (now s, ws, "ack") :: outbox s
  ∧ spin_queue (send_text ws "ack" s) = spin_queue s
  ∧ clients (send_text ws "ack" s) = clients s
  ∧ proc (send_text ws "ack" s) = proc s
  ∧ spins (send_text ws "ack" s) = spins s
  ∧ step BIT_SPIN_AMOUNT (WsMessage ws msg false) s = Some (ws_finally ws s)
  ∧ spin_queue (ws_finally ws s) = spin_queue s
  ∧ (∀ msg' ok, step BIT_SPIN_AMOUNT (WsMessage ws msg ok) s
                = step BIT_SPIN_AMOUNT (WsMessage ws msg' ok) s).
Proof.
  intros Hin. split_and!; try done.
  - simpl. unfold guard. by rewrite bool_decide_eq_true_2.
  - simpl. unfold guard. by rewrite bool_decide_eq_true_2.
  - apply ws_finally_frame.
Qed.

(** C3 (corrected).  Removal from the registry is [set.remove]: it deletes
    a handle that is present and raises [KeyError] for one that is absent,
    leaving the membership as it was.  [ws_spin] removes a connection once,
    after adding it, so on every run the removal finds its handle. *)
Theorem C3_remove_raises_on_absent_handle (ws : ws_id) (c : gset ws_id) :
  (ws ∈ c → clients_remove ws c = Ok (c ∖ {[ws]}))
  ∧ (ws ∉ c → clients_remove ws c = Raise KeyError)
  ∧ (∀ s, ws ∉ clients s → clients (ws_finally ws s) = clients s)
  ∧ (∀ s s', reachable BIT_SPIN_AMOUNT s →
             step BIT_SPIN_AMOUNT (WsDisconnect ws) s = Some s' →
             clients_remove ws (clients s) = Ok (clients s')).
Proof.
  unfold clients_remove. split_and!.
  - intros ?. by rewrite decide_True.
  - intros ?. by rewrite decide_False.
  - intros s ?. unfold ws_finally, clients_remove. simpl. by rewrite decide_False.
  - intros s s' Hr Hstep. simpl in Hstep. unfold guard in Hstep.
    case_bool_decide as Hin; simplify_eq.
    rewrite (inv_handlers s (reachable_inv _ _ Hr)) in Hin.
    unfold ws_finally, clients_remove. simpl. by rewrite !decide_True.
Qed.

(** With no client connected the spin sends nothing and cools down. *)
Lemma empty_registry_spin (s s' : state) :
  reachable BIT_SPIN_AMOUNT s →
  clients s = ∅ →
  step BIT_SPIN_AMOUNT Take s = Some s' →
  proc s' = Cooling (now s + COOLDOWN)
  ∧ inflight s' = ∅
  ∧ outbox s' = outbox s
  ∧ (∀ ws ok, step BIT_SPIN_AMOUNT (SendDone ws ok) s' = None).
Proof.
  intros Hr Hemp Htake. pose proof (reachable_inv _ _ Hr) as Hinv.
  simpl in Htake. destruct (proc s) eqn:Hp; try done.
  destruct (Queue.get (spin_queue s)) as [[tok q]|]; simplify_eq.
  assert (Hfl : inflight s = ∅) by (apply quiet_inflight; auto).
  unfold spin_begin. simpl.
  rewrite bool_decide_eq_false_2 by (by intros ?). simpl.
  split_and!; try done.
  intros ws ok. unfold guard. rewrite bool_decide_eq_false_2; [done|].
  rewrite Hfl. set_solver.
Qed.

(** Once the sleep has begun it runs its course: the processor stays in it
    until the deadline, and every later spin starts after the deadline. *)
Lemma cooldown_completes (s s' : state) (t : nat) (evs : list event) :
  reachable BIT_SPIN_AMOUNT s →
  proc s = Cooling t →
  run BIT_SPIN_AMOUNT evs s = Some s' →
  ∃ newer, spins s' = newer ++ spins s
           ∧ Forall (λ sp, t ≤ started sp) newer
           ∧ (newer = [] → proc s' = Cooling t ∨ (proc s' = Idle ∧ t ≤ now s')).
Proof.
  intros Hr Hp Hrun.
  eapply (run_cooled BIT_SPIN_AMOUNT evs t (spins s) s s');
    [by eapply reachable_inv | | done].
  exists []. split_and!; [done | by constructor | auto].
Qed.

(** On every run: tokens leave the queue in the order they were put, a
    spin that finished its gather reached its whole snapshot, spins start at
    least a cooldown apart, and a client has received one ["spin"] per
    delivery recorded for it. *)
Lemma spins_in_order (s : state) :
  reachable BIT_SPIN_AMOUNT s →
  reverse (token <$> spins s) ++ Queue.items (spin_queue s)
    = Queue.put_log (spin_queue s)
  ∧ spaced (spins s)
  ∧ Forall complete (tail (spins s))
  ∧ ((proc s = Idle ∨ ∃ t, proc s = Cooling t) → Forall complete (spins s))
  ∧ (∀ ws, received ws "spin" s = spun ws s).
Proof.
  intros Hr. pose proof (reachable_inv _ _ Hr) as Hinv.
  pose proof (inv_head s Hinv) as Hh. unfold head_ok in Hh.
  split_and!.
  - by apply inv_fifo.
  - by apply inv_spaced.
  - destruct (spins s); [done|]. simpl. naive_solver.
  - intros Hp. destruct (spins s); [done|].
    destruct Hh as (_&?&_&_&_&Hphase). constructor; [|done].
    destruct Hp as [Hp|[t Hp]]; rewrite Hp in Hphase; naive_solver.
  - by apply inv_received.
Qed.

(** If no send has raised, the processor works off the whole queue. *)
Lemma spins_drain (s : state) :
  reachable BIT_SPIN_AMOUNT s →
  (∀ e, proc s ≠ Crashed e) →
  ∃ s', run BIT_SPIN_AMOUNT (drain s) s = Some s'
        ∧ proc s' = Idle
        ∧ Queue.items (spin_queue s') = []
        ∧ reverse (token <$> spins s') = Queue.put_log (spin_queue s)
        ∧ length (spins s') = length (Queue.put_log (spin_queue s))
        ∧ Forall complete (spins s')
        ∧ spaced (spins s').
Proof.
  intros Hr Hp.
  destruct (drain_all BIT_SPIN_AMOUNT s (reachable_inv _ _ Hr) Hp)
    as (s' & ? & ? & ? & ? & ? & ? & ? & ?).
  exists s'. done.
Qed.
Lemma send_failed (s s' : state) (ws : ws_id) :
  proc s = Gathering →
  step BIT_SPIN_AMOUNT (SendDone ws false) s = Some s' →
  ws ∈ inflight s ∧ s' = send_done ws false s
  ∧ proc s' = Crashed TransportError.
Proof.
  intros Hp Hstep. simpl in Hstep. unfold guard in Hstep.
  case_bool_decide; simplify_eq. split_and!; try done.
  unfold send_done. simpl. by rewrite Hp.
Qed.

(** C2 (defect in [spin_processor]).  The claim: a send that fails does
    not abort the broadcast loop or the cooldown; the failing connection is
    removed from the registry and the other connections still get ["spin"].
    In the code the other sends of the gather do go on, but the exception
    ends the processor task: the failing connection stays in [clients], no
    cooldown follows, and no later schedule brings the processor back or
    starts another spin. *)
Theorem C2_failed_send_ends_the_processor (s s' : state) (ws : ws_id) :
  reachable BIT_SPIN_AMOUNT s →
  proc s = Gathering →
  step BIT_SPIN_AMOUNT (SendDone ws false) s = Some s' →
  proc s' = Crashed TransportError
  ∧ clients s' = clients s
  ∧ inflight s' = inflight s ∖ {[ws]}
  ∧ (∀ ws', ws' ∈ inflight s' →
       ∃ s'', step BIT_SPIN_AMOUNT (SendDone ws' true) s' = Some s''
              ∧ outbox s'' = (now s', ws', "spin") :: outbox s')
  ∧ (∀ evs s'', run BIT_SPIN_AMOUNT evs s' = Some s'' →
       proc s'' = Crashed TransportError
       ∧ length (spins s'') = length (spins s)).
Proof.
  intros Hr Hp Hstep.
  destruct (send_failed _ _ _ Hp Hstep) as (Hin & -> & Hp').
  destruct (send_done_frame ws false s) as (Hc & _ & _ & _ & Hfl).
  split_and!; try done.
  - intros ws' Hin'. exists (send_done ws' true (send_done ws false s)).
    split; [|by rewrite send_done_outbox].
    simpl. unfold guard. by rewrite bool_decide_eq_true_2.
  - intros evs s'' Hrun.
    destruct (run_crashed _ _ _ _ _ Hp' Hrun) as (? & Hlen & _).
    split; [done|]. by rewrite Hlen, send_done_spins.
Qed.

(** C1 (defect in [spin_processor]).  The claim: N triggers submitted to
    the queue give exactly N spins, in the order submitted, each sending
    ["spin"] to the whole registry snapshot, spins at least a cooldown apart.
    [spins_in_order] and [spins_drain] prove this for every run on which no
    send raises.  When a send raises, [asyncio.gather] re-raises into
    [spin_processor], which catches nothing, and the task ends.  From then on,
    whatever happens, the number of spins stays what it was and every trigger
    that was queued stays queued: fewer spins than triggers, for good. *)
Theorem C1_failed_send_strands_queued_triggers (s s' s'' : state) (ws : ws_id) (evs : list event) :
  reachable BIT_SPIN_AMOUNT s →
  proc s = Gathering →
  step BIT_SPIN_AMOUNT (SendDone ws false) s = Some s' →
  run BIT_SPIN_AMOUNT evs s' = Some s'' →
  length (spins s'') = length (spins s)
  ∧ (∃ more, Queue.items (spin_queue s'')
             = Queue.items (spin_queue s) ++ more)
  ∧ length (spins s'') + length (Queue.items (spin_queue s''))
    = length (Queue.put_log (spin_queue s'')).
Proof.
  intros Hr Hp Hstep Hrun.
  destruct (send_failed _ _ _ Hp Hstep) as (Hin & -> & Hp').
  destruct (run_crashed _ _ _ _ _ Hp' Hrun) as (_ & Hlen & more & Hitems).
  destruct (send_done_frame ws false s) as (_ & _ & Hq & _ & _).
  assert (Hinv : inv s'').
  { eapply run_inv; [|exact Hrun]. eapply step_inv; [|exact Hstep].
    by eapply reachable_inv. }
  split_and!.
  - by rewrite Hlen, send_done_spins.
  - exists more. by rewrite Hitems, Hq.
  - rewrite <- (inv_fifo s'' Hinv), length_app, length_reverse, length_fmap. done.
Qed.

(** C6 (defect in [spin_processor]).  The claim: every processed trigger
    raises no error and is followed by the full 9-second cooldown before
    the next one is taken.  [empty_registry_spin] and [cooldown_completes]
    prove it for a spin with no client and for every cooldown that begins.
    When a send of the gather raises, the processor task ends with that
    exception: it never enters the sleep, and neither [Wake] nor [Take] can
    happen again. *)
Theorem C6_failed_send_skips_the_cooldown (s s' s'' : state) (ws : ws_id) (evs : list event) :
  reachable BIT_SPIN_AMOUNT s →
  proc s = Gathering →
  step BIT_SPIN_AMOUNT (SendDone ws false) s = Some s' →
  run BIT_SPIN_AMOUNT evs s' = Some s'' →
  proc s'' = Crashed TransportError
  ∧ (∀ t, proc s'' ≠ Cooling t)
  ∧ step BIT_SPIN_AMOUNT Wake s'' = None
  ∧ step BIT_SPIN_AMOUNT Take s'' = None.
Proof.
  intros Hr Hp Hstep Hrun.
  destruct (send_failed _ _ _ Hp Hstep) as (Hin & -> & Hp').
  destruct (run_crashed _ _ _ _ _ Hp' Hrun) as (Hp'' & _ & _).
  split_and!; [done | by rewrite Hp'' | by simpl; rewrite Hp''..].
Qed.

End Claims.

(** * Further properties of the handlers and of the loop *)

Section MoreOfEventsub.

Variable BIT_SPIN_AMOUNT : Z.

Lemma put_changes (x : string) (q : Queue.t) : Queue.put x q ≠ q.
Proof.
  intros H. apply (f_equal (λ q, length (Queue.items q))) in H.
  simpl in H. rewrite length_app in H. simpl in H. lia.
Qed.

(** Whenever /eventsub touches the queue it has answered ok to a
    channel.cheer payload without challenge whose bits compare equal to the
    threshold, and what it did was one put of "spin". *)
Lemma eventsub_enqueues_only_matching_cheer (p : gmap string json) (q : Queue.t) :
  (eventsub BIT_SPIN_AMOUNT p q).2 ≠ q →
  eventsub BIT_SPIN_AMOUNT p q = (Ok status_ok, Queue.put "spin" q)
  ∧ truthy (dict_get p "challenge") = false
  ∧ (∃ stype,
        method_get (dict_get_default p "subscription" (JDict ∅)) "type" = Ok stype
        ∧ py_eq_str stype "channel.cheer" = true)
  ∧ (∃ ev bits user,
        p !! "event" = Some ev
        ∧ subscript ev "bits" = Ok bits
        ∧ subscript ev "user_name" = Ok user
        ∧ py_eq_int bits BIT_SPIN_AMOUNT = true).
Proof.
  unfold eventsub.
  destruct (truthy (dict_get p "challenge")) eqn:Hc.
  { intros H. exfalso. apply H.
    destruct (subscript (JDict p) "challenge"); reflexivity. }
  destruct (method_get _ "type") as [stype|e] eqn:Hty; mstep;
    [|intros H; by destruct H].
  destruct (py_eq_str stype "channel.cheer") eqn:Hst; mstep;
    [|intros H; by destruct H].
  destruct (subscript (JDict p) "event") as [ev|e] eqn:Hev; mstep;
    [|intros H; by destruct H].
  destruct (subscript ev "bits") as [bits|e] eqn:Hb; mstep;
    [|intros H; by destruct H].
  destruct (subscript ev "user_name") as [user|e] eqn:Hu; mstep;
    [|intros H; by destruct H].
  destruct (py_eq_int bits BIT_SPIN_AMOUNT) eqn:Hbits;
    [|intros H; by destruct H].
  intros _. split_and!; try done.
  - by exists stype.
  - exists ev, bits, user. split_and!; try done.
    cbn [subscript] in Hev. destruct (p !! "event"); by simplify_eq.
Qed.

(** A cheer notification that lacks what the handler reads is refused with
    an exception and nothing is put, even when its bits match. *)
Lemma eventsub_cheer_missing_fields (p sub : gmap string json) (q : Queue.t) :
  truthy (dict_get p "challenge") = false →
  p !! "subscription" = Some (JDict sub) →
  sub !! "type" = Some (JStr "channel.cheer") →
  (p !! "event" = None → eventsub BIT_SPIN_AMOUNT p q = (Raise KeyError, q))
  ∧ (∀ ev, p !! "event" = Some (JDict ev) → ev !! "bits" = None →
           eventsub BIT_SPIN_AMOUNT p q = (Raise KeyError, q))
  ∧ (∀ ev bits, p !! "event" = Some (JDict ev) → ev !! "bits" = Some bits →
                ev !! "user_name" = None →
                eventsub BIT_SPIN_AMOUNT p q = (Raise KeyError, q))
  ∧ (∀ v, p !! "event" = Some v → (∀ ev, v ≠ JDict ev) →
          eventsub BIT_SPIN_AMOUNT p q = (Raise TypeError, q)).
Proof.
  intros Hc Hs Ht.
  assert (Hty : method_get (dict_get_default p "subscription" (JDict ∅)) "type"
                = Ok (JStr "channel.cheer")).
  { unfold dict_get_default. rewrite Hs. cbn. unfold dict_get. by rewrite Ht. }
  unfold eventsub. rewrite Hc, Hty. mstep.
  cbn [py_eq_str]. rewrite bool_decide_eq_true_2 by done. mstep.
  split_and!.
  - intros He. cbn [subscript]. rewrite He. reflexivity.
  - intros ev He Hb. cbn [subscript]. rewrite He. mstep. cbn [subscript].
    rewrite Hb. reflexivity.
  - intros ev bits He Hb Hu. cbn [subscript]. rewrite He. mstep. cbn [subscript].
    rewrite Hb, Hu. reflexivity.
  - intros v He Hv. cbn [subscript]. rewrite He. mstep.
    destruct v; try reflexivity. by destruct (Hv d).
Qed.

(** Any other notification is acknowledged and ignored, whatever its event
    holds; a subscription that is not an object is an AttributeError. *)
Lemma eventsub_ignores_other_types (p : gmap string json) (q : Queue.t) :
  truthy (dict_get p "challenge") = false →
  (p !! "subscription" = None → eventsub BIT_SPIN_AMOUNT p q = (Ok status_ok, q))
  ∧ (∀ sub, p !! "subscription" = Some (JDict sub) →
            py_eq_str (dict_get sub "type") "channel.cheer" = false →
            eventsub BIT_SPIN_AMOUNT p q = (Ok status_ok, q))
  ∧ (∀ v, p !! "subscription" = Some v → (∀ sub, v ≠ JDict sub) →
          eventsub BIT_SPIN_AMOUNT p q = (Raise AttributeError, q)).
Proof.
  intros Hc. unfold eventsub. rewrite Hc. unfold dict_get_default. split_and!.
  - intros ->. reflexivity.
  - intros sub -> Hne. cbn [default from_option id method_get]. mstep.
    rewrite Hne. reflexivity.
  - intros v -> Hv. destruct v; try reflexivity. by destruct (Hv d).
Qed.

End MoreOfEventsub.

Section MoreOfTheLoop.

Variable BIT_SPIN_AMOUNT : Z.

Lemma outbox_ok_step (e : event) (s s' : state) :
  outbox_ok s → step BIT_SPIN_AMOUNT e s = Some s' → outbox_ok s'.
Proof.
  unfold outbox_ok. intros Hs Hstep.
  destruct e as [p|cmd|ws|ws msg ok|ws| |ws ok| | ]; simpl in Hstep;
    unfold guard in Hstep.
  - by simplify_eq.
  - by simplify_eq.
  - case_bool_decide; by simplify_eq.
  - case_bool_decide; simplify_eq. unfold ws_receive. destruct ok.
    + simpl. constructor; [|done]. simpl. split; [lia | by right].
    + destruct (ws_finally_frame ws s) as (_&_&_&->&->&_). done.
  - case_bool_decide; simplify_eq.
    destruct (ws_finally_frame ws s) as (_&_&_&->&->&_). done.
  - destruct (proc s); try done.
    destruct (Queue.get (spin_queue s)) as [[tok q]|]; simplify_eq.
    destruct (spin_begin_frame tok q s) as (_&_&_&->&->&_). done.
  - case_bool_decide; simplify_eq.
    destruct (send_done_frame ws ok s) as (_&_&_&->&_).
    rewrite send_done_outbox. destruct ok; [|done].
    constructor; [|done]. simpl. split; [lia | by left].
  - destruct (proc s); try done. case_bool_decide; simplify_eq.
    destruct (spin_end_frame s) as (_&_&->&->&_). done.
  - simplify_eq. simpl. eapply Forall_impl; [done|].
    intros [[t ws] text] [? ?]. simpl in *. split; [lia | done].
Qed.

Lemma outbox_ok_run (evs : list event) (s s' : state) :
  outbox_ok s → run BIT_SPIN_AMOUNT evs s = Some s' → outbox_ok s'.
Proof.
  revert s. induction evs as [|e evs IH]; intros s Hs Hrun; simpl in Hrun.
  - by simplify_eq.
  - destruct (step BIT_SPIN_AMOUNT e s) as [s1|] eqn:Hstep; [|done].
    eapply IH; [|done]. by eapply outbox_ok_step.
Qed.

(** The server never sends anything but "spin" and "ack", and it sends
    "spin" to a client only for a spin whose snapshot held that client. *)
Lemma server_sends_only_spin_and_ack (s : state) (t : nat) (ws : ws_id) (text : string) :
  reachable BIT_SPIN_AMOUNT s →
  (t, ws, text) ∈ outbox s →
  t ≤ now s
  ∧ (text = "spin" ∨ text = "ack")
  ∧ (text = "spin" → ∃ sp, sp ∈ spins s ∧ ws ∈ snapshot sp ∧ ws ∈ delivered sp).
Proof.
  intros Hr Hin. pose proof (reachable_inv _ _ Hr) as Hinv.
  destruct Hr as [evs Hrun].
  assert (Hok : outbox_ok s).
  { eapply outbox_ok_run; [|done]. by constructor. }
  unfold outbox_ok in Hok. rewrite Forall_forall in Hok.
  destruct (Hok _ Hin) as [Ht Htext]. simpl in *.
  split_and!; try done.
  intros ->.
  pose proof (inv_received s Hinv ws) as Hrecv. unfold received, spun in Hrecv.
  assert (Hm : (t, ws, "spin") ∈
               filter (λ m : nat * ws_id * string, m.1.2 = ws ∧ m.2 = "spin") (outbox s)).
  { apply list_elem_of_filter. done. }
  destruct (filter (λ sp, ws ∈ delivered sp) (spins s)) as [|sp l] eqn:Hf.
  { simpl in Hrecv. apply length_zero_iff_nil in Hrecv. rewrite Hrecv in Hm.
    by apply elem_of_nil in Hm. }
  assert (Hsp : sp ∈ filter (λ sp, ws ∈ delivered sp) (spins s)).
  { rewrite Hf. by left. }
  apply list_elem_of_filter in Hsp as [Hd Hsp].
  exists sp. split_and!; try done.
  pose proof (inv_head s Hinv) as Hh. unfold head_ok in Hh.
  destruct (spins s) as [|sp0 rest]; [by apply elem_of_nil in Hsp|].
  destruct Hh as (_&Hrest&Hsub&_).
  apply elem_of_cons in Hsp as [->|Hsp]; [set_solver|].
  rewrite Forall_forall in Hrest. rewrite <- (Hrest _ Hsp). done.
Qed.

(** The registry holds exactly the connections whose handler is inside its
    receive loop: a handle enters on accept, leaves in the handler's
    [finally], and there is no other way in or out. *)
Lemma registry_tracks_handlers (s : state) :
  reachable BIT_SPIN_AMOUNT s →
  handlers s = clients s
  ∧ (∀ e s', step BIT_SPIN_AMOUNT e s = Some s' →
       clients s' = clients s
       ∨ (∃ ws, e = WsConnect ws ∧ (ws ∉ clients s) ∧ clients s' = {[ws]} ∪ clients s)
       ∨ (∃ ws, (e = WsDisconnect ws ∨ (∃ msg, e = WsMessage ws msg false))
                ∧ ws ∈ clients s ∧ clients s' = clients s ∖ {[ws]})).
Proof.
  intros Hr. pose proof (reachable_inv _ _ Hr) as Hinv.
  pose proof (inv_handlers s Hinv) as Hh. split; [done|].
  intros e s' Hstep.
  assert (Hfin : ∀ ws, ws ∈ handlers s →
            ws ∈ clients s ∧ clients (ws_finally ws s) = clients s ∖ {[ws]}).
  { intros ws Hin. rewrite Hh in Hin. split; [done|].
    unfold ws_finally, clients_remove. simpl. by rewrite decide_True. }
  destruct e as [p|cmd|ws|ws msg ok|ws| |ws ok| | ]; simpl in Hstep;
    unfold guard in Hstep.
  - simplify_eq. by left.
  - simplify_eq. by left.
  - case_bool_decide; simplify_eq. right. left. exists ws.
    split_and!; [done | set_solver | done].
  - case_bool_decide; simplify_eq. unfold ws_receive. destruct ok; [by left|].
    right. right. exists ws. destruct (Hfin ws) as [? ?]; [done|].
    split_and!; try done. right. by exists msg.
  - case_bool_decide; simplify_eq. right. right. exists ws.
    destruct (Hfin ws) as [? ?]; [done|]. split_and!; try done. by left.
  - destruct (proc s); try done.
    destruct (Queue.get (spin_queue s)) as [[tok q]|]; simplify_eq.
    left. apply spin_begin_frame.
  - case_bool_decide; simplify_eq. left. apply send_done_frame.
  - destruct (proc s); try done. case_bool_decide; simplify_eq.
    left. apply spin_end_frame.
  - simplify_eq. by left.
Qed.

(** [unfinished_tasks] counts the queued triggers plus the one in progress,
    so [task_done] never raises: the only exception that can end the
    processor is a failed send, and a sleep that is over always ends in
    [get()]. *)
Lemma task_done_never_raises (s : state) :
  reachable BIT_SPIN_AMOUNT s →
  Queue.unfinished_tasks (spin_queue s)
  = length (Queue.items (spin_queue s)) + busy (proc s)
  ∧ (∀ e, proc s = Crashed e → e = TransportError)
  ∧ (∀ t, proc s = Cooling t → t ≤ now s →
          ∃ s', step BIT_SPIN_AMOUNT Wake s = Some s' ∧ proc s' = Idle
                ∧ Queue.unfinished_tasks (spin_queue s')
                  = length (Queue.items (spin_queue s'))).
Proof.
  intros Hr. pose proof (reachable_inv _ _ Hr) as Hinv.
  split_and!.
  - by apply inv_unfinished.
  - intros e Hp. pose proof (inv_head s Hinv) as Hh. unfold head_ok in Hh.
    rewrite Hp in Hh. destruct (spins s); naive_solver.
  - intros t Hp Ht. exists (spin_end s). simpl. rewrite Hp. unfold guard.
    rewrite bool_decide_eq_true_2 by done.
    assert (Hstep : step BIT_SPIN_AMOUNT Wake s = Some (spin_end s)).
    { simpl. rewrite Hp. unfold guard. by rewrite bool_decide_eq_true_2. }
    pose proof (step_inv _ _ _ _ Hinv Hstep) as Hinv'.
    assert (Hidle : proc (spin_end s) = Idle).
    { apply spin_end_proc; [done | congruence]. }
    split_and!; try done.
    rewrite (inv_unfinished _ Hinv'), Hidle. simpl. lia.
Qed.

(** A trigger submitted while the processor is busy is neither dropped nor
    does it disturb the spin in progress; it is served afterwards. *)
Lemma busy_processor_queues_trigger (s : state) (cmd : ChatCommand) :
  reachable BIT_SPIN_AMOUNT s →
  (∀ e, proc s ≠ Crashed e) →
  cmd_name cmd = "spin" →
  user_mod (cmd_user cmd) = true →
  ∃ s1 s',
    step BIT_SPIN_AMOUNT (ChatSpin cmd) s = Some s1
    ∧ proc s1 = proc s ∧ inflight s1 = inflight s ∧ spins s1 = spins s
    ∧ Queue.items (spin_queue s1) = Queue.items (spin_queue s) ++ ["spin"]
    ∧ run BIT_SPIN_AMOUNT (drain s1) s1 = Some s'
    ∧ Queue.items (spin_queue s') = []
    ∧ length (spins s') = S (length (Queue.put_log (spin_queue s)))
    ∧ Forall complete (spins s').
Proof.
  intros Hr Hp Hn Hm.
  assert (Hput : on_spin_message cmd (spin_queue s)
                 = (Ok (), Queue.put "spin" (spin_queue s))).
  { unfold on_spin_message. rewrite bool_decide_eq_true_2, Hm by done. done. }
  set (s1 := set_spin_queue (Queue.put "spin" (spin_queue s)) s).
  assert (Hstep : step BIT_SPIN_AMOUNT (ChatSpin cmd) s = Some s1).
  { simpl. by rewrite Hput. }
  assert (Hr1 : reachable BIT_SPIN_AMOUNT s1).
  { eapply (reachable_run _ [ChatSpin cmd]); [done|].
    by rewrite (run_cons _ _ _ _ _ Hstep). }
  destruct (drain_all BIT_SPIN_AMOUNT s1 (reachable_inv _ _ Hr1) Hp)
    as (s' & Hrun & _ & Hi & _ & _ & Hlen & Hc & _).
  exists s1, s'. split_and!; try done.
  rewrite Hlen. simpl. rewrite length_app. simpl. lia.
Qed.

End MoreOfTheLoop.

(** * The OAuth routes: URL encoding *)

Section Quote.

Implicit Types (c : ascii) (s safe : string).

Lemma in_string_app c s1 s2 :
  in_string c (s1 +:+ s2) = in_string c s1 || in_string c s2.
Proof.
  induction s1 as [|x s1 IH]; simpl; [done|]. by rewrite IH, orb_assoc.
Qed.

Lemma count_char_app c s1 s2 :
  count_char c (s1 +:+ s2) = count_char c s1 + count_char c s2.
Proof. induction s1 as [|x s1 IH]; simpl; [done|]. rewrite IH. lia. Qed.

Lemma count_char_0 c s : in_string c s = false → count_char c s = 0.
Proof.
  induction s as [|x s IH]; simpl; [done|].
  intros [-> ?]%orb_false_iff. by rewrite IH.
Qed.

Lemma hex_digit_safe (n : nat) : always_safe (hex_digit n) = true.
Proof. do 16 (destruct n as [|n]; [reflexivity|]). reflexivity. Qed.

Lemma always_safe_not_space c : always_safe c = true → c ≠ " "%char.
Proof. intros H ->. discriminate H. Qed.

Lemma in_safe_app safe1 safe2 c :
  in_safe (safe1 +:+ safe2) c = in_safe safe1 c || in_safe safe2 c.
Proof.
  unfold in_safe. rewrite in_string_app. by destruct (in_string c safe1), (in_string c safe2), (_ <? _).
Qed.

Lemma in_safe_space c : in_safe " " c = true → c = " "%char.
Proof.
  unfold in_safe. simpl. rewrite orb_false_r.
  intros [H _]%andb_true_iff. by apply Ascii.eqb_eq in H.
Qed.

Lemma quoter_chars safe c x :
  in_string x (quoter safe c) = true →
  always_safe x = true ∨ in_safe safe x = true ∨ x = "%"%char.
Proof.
  unfold quoter. destruct (always_safe c || in_safe safe c) eqn:Hs; simpl.
  - rewrite orb_false_r. intros ->%Ascii.eqb_eq.
    apply orb_true_iff in Hs as [?|?]; auto.
  - rewrite orb_false_r. intros H.
    apply orb_true_iff in H as [H|H]; [|apply orb_true_iff in H as [H|H]];
      apply Ascii.eqb_eq in H; subst; auto using hex_digit_safe.
Qed.

Lemma quote_chars s safe x :
  in_string x (quote s safe) = true →
  always_safe x = true ∨ in_safe safe x = true ∨ x = "%"%char.
Proof.
  induction s as [|c s IH]; simpl; [done|].
  rewrite in_string_app. intros [H|H]%orb_true_iff; [by eapply quoter_chars | auto].
Qed.

Lemma percent_no_space c : in_string " " (percent c) = false.
Proof.
  unfold percent. cbn [in_string].
  rewrite !(proj2 (Ascii.eqb_neq _ _)); [done|..];
    try (apply not_eq_sym, always_safe_not_space, hex_digit_safe); done.
Qed.

Lemma quote_no_space s safe :
  in_string " " s = false → in_string " " (quote s safe) = false.
Proof.
  intros Hs. induction s as [|c s IH]; cbn [in_string quote] in *; [done|].
  apply orb_false_iff in Hs as [Hc Hs]. rewrite in_string_app, (IH Hs), orb_false_r.
  unfold quoter. destruct (_ || _).
  - cbn [in_string]. by rewrite Hc.
  - apply percent_no_space.
Qed.

Lemma spaces_to_plus_chars s x :
  in_string x (spaces_to_plus s) = true →
  x ≠ " "%char ∧ (x = "+"%char ∨ in_string x s = true).
Proof.
  induction s as [|c s IH]; simpl; [done|].
  intros [H|H]%orb_true_iff.
  - apply Ascii.eqb_eq in H. destruct (Ascii.eqb c " ") eqn:Hc; subst.
    + split; [done | by left].
    + apply Ascii.eqb_neq in Hc. split; [done|]. right.
      by rewrite Ascii.eqb_refl.
  - destruct (IH H) as [? [?|?]]; split; auto. right. rewrite H1. apply orb_true_r.
Qed.

Lemma quote_plus_chars s safe x :
  in_string x (quote_plus s safe) = true → encoded safe x.
Proof.
  unfold quote_plus, encoded. destruct (in_string " " s) eqn:Hsp.
  - intros [Hne [->|H]]%spaces_to_plus_chars; [auto|].
    split; [done|].
    apply quote_chars in H as [?|[H|?]]; auto.
    rewrite in_safe_app in H. apply orb_true_iff in H as [?|H]; auto.
    by apply in_safe_space in H.
  - intros H. split.
    + intros ->. by rewrite quote_no_space in H.
    + apply quote_chars in H as [?|[?|?]]; auto.
Qed.

Lemma all_chars_spec (p : ascii → bool) (s : string) (c : ascii) :
  all_chars p s = true → in_string c s = true → p c = true.
Proof.
  induction s as [|x s IH]; cbn [all_chars in_string]; [done|].
  intros [Hx Hs]%andb_true_iff [->%Ascii.eqb_eq|Hc]%orb_true_iff; auto.
Qed.

(** Text without the byte that begins a surrogate holds no lone surrogate *)
Lemma no_lead_encodes s :
  (∀ c, in_string c s = true → Ascii.nat_of_ascii c ≠ 237) →
  lone_surrogate s = false.
Proof.
  intros H. induction s as [|a s IH]; [done|].
  assert (lone_surrogate s = false) as Hs.
  { apply IH. intros c Hc. apply H. cbn [in_string]. rewrite Hc. apply orb_true_r. }
  destruct s as [|b s]; [done|].
  change (lone_surrogate (String a (String b s)))
    with ((Ascii.nat_of_ascii a =? 237) && (160 <=? Ascii.nat_of_ascii b)
          || lone_surrogate (String b s)).
  rewrite Hs, orb_false_r. apply andb_false_iff. left.
  apply Nat.eqb_neq. apply H. cbn [in_string]. by rewrite Ascii.eqb_refl.
Qed.

Lemma encoded_no_lead safe c : encoded safe c → Ascii.nat_of_ascii c ≠ 237.
Proof.
  intros [_ [H|[H|[->| ->]]]] Hc; try discriminate Hc.
  - rewrite <- (Ascii.ascii_nat_embedding c), Hc in H. discriminate H.
  - unfold in_safe in H. apply andb_true_iff in H as [_ H].
    apply Nat.ltb_lt in H. lia.
Qed.

End Quote.

Section UrlEncode.

Implicit Types (c : ascii) (s safe : string).

Lemma quote_plus_count c s safe :
  always_safe c = false → in_safe safe c = false →
  c ≠ "%"%char → c ≠ "+"%char →
  count_char c (quote_plus s safe) = 0.
Proof.
  intros H1 H2 H3 H4. apply count_char_0.
  destruct (in_string c (quote_plus s safe)) eqn:Hin; [|done].
  apply quote_plus_chars in Hin as [_ [?|[?|[?|?]]]]; congruence.
Qed.

Lemma count_char_concat c sep (l : list string) (k : nat) :
  Forall (λ s, count_char c s = k) l →
  count_char c (String.concat sep l)
  = k * length l + count_char c sep * (length l - 1).
Proof.
  induction 1 as [|s l Hs Hl IH]; [cbn; lia|].
  destruct l as [|s' l].
  - cbn [String.concat length]. rewrite Hs. lia.
  - change (String.concat sep (s :: s' :: l))
      with (s +:+ sep +:+ String.concat sep (s' :: l)).
    rewrite !count_char_app, Hs, IH. cbn [length].
    rewrite !Nat.sub_succ, !Nat.sub_0_r, !Nat.mul_succ_r. lia.
Qed.

Lemma quote_id s safe :
  (∀ c, in_string c s = true → always_safe c || in_safe safe c = true) →
  quote s safe = s.
Proof.
  induction s as [|x s IH]; intros H; cbn [quote]; [done|].
  unfold quoter. rewrite H by (cbn [in_string]; by rewrite Ascii.eqb_refl).
  cbn. f_equal. apply IH. intros c Hc. apply H. cbn [in_string].
  rewrite Hc. apply orb_true_r.
Qed.

Lemma in_string_concat c sep (l : list string) :
  in_string c (String.concat sep l) = true →
  in_string c sep = true ∨ ∃ s, s ∈ l ∧ in_string c s = true.
Proof.
  induction l as [|s l IH]; [done|].
  destruct l as [|s' l].
  - intros H. right. exists s. split; [set_solver | done].
  - change (String.concat sep (s :: s' :: l))
      with (s +:+ sep +:+ String.concat sep (s' :: l)).
    rewrite !in_string_app. intros [H|[H|H]%orb_true_iff]%orb_true_iff.
    + right. exists s. split; [set_solver | done].
    + by left.
    + destruct (IH H) as [?|(s0 & ? & ?)]; [by left|].
      right. exists s0. split; [set_solver | done].
Qed.

Lemma urlencode_chars query safe c :
  in_string c (urlencode query safe) = true →
  c = "&"%char ∨ c = "="%char ∨ encoded safe c.
Proof.
  unfold urlencode. intros [H|(s & Hs & H)]%in_string_concat.
  - cbn in H. rewrite orb_false_r in H. apply Ascii.eqb_eq in H. auto.
  - apply list_elem_of_fmap in Hs as ([k v] & -> & _). cbn [fst snd] in H.
    rewrite !in_string_app in H.
    apply orb_true_iff in H as [H|H]; [|apply orb_true_iff in H as [H|H]].
    + right. right. by eapply quote_plus_chars.
    + cbn in H. rewrite orb_false_r in H. apply Ascii.eqb_eq in H. auto.
    + right. right. by eapply quote_plus_chars.
Qed.

Lemma urlencode_counts query safe :
  in_safe safe "&" = false → in_safe safe "=" = false →
  count_char "=" (urlencode query safe) = length query
  ∧ count_char "&" (urlencode query safe) = length query - 1
  ∧ count_char " " (urlencode query safe) = 0.
Proof.
  intros Hamp Heq. unfold urlencode. split_and!.
  - rewrite (count_char_concat _ _ _ 1).
    + rewrite length_fmap. cbn. lia.
    + apply Forall_fmap, Forall_forall. intros [k v] _.
      unfold compose. cbn [fst snd].
      rewrite !count_char_app, !quote_plus_count by done. done.
  - rewrite (count_char_concat _ _ _ 0).
    + rewrite length_fmap. cbn. lia.
    + apply Forall_fmap, Forall_forall. intros [k v] _.
      unfold compose. cbn [fst snd].
      rewrite !count_char_app, !quote_plus_count by done. done.
  - apply count_char_0.
    destruct (in_string _ _) eqn:Hin; [|done].
    apply (urlencode_chars query safe) in Hin as [?|[?|[? _]]]; done.
Qed.

(** Whatever the keys and values hold, the query string has one [=] for
    each parameter, one [&] between two of them and no space: a value
    cannot add or end a parameter *)
Theorem urlencode_separates_parameters query safe :
  in_safe safe "&" = false → in_safe safe "=" = false →
  count_char "=" (urlencode query safe) = length query
  ∧ count_char "&" (urlencode query safe) = length query - 1
  ∧ count_char " " (urlencode query safe) = 0.
Proof. apply urlencode_counts. Qed.

End UrlEncode.

Section Strings.

Implicit Types (a b c : string).

Lemma string_app_assoc' a b c : (a +:+ b) +:+ c = a +:+ (b +:+ c).
Proof.
  induction a as [|x a IH]; [done|].
  change (String x ((a +:+ b) +:+ c) = String x (a +:+ (b +:+ c))). by f_equal.
Qed.

Lemma string_length_app a b :
  String.length (a +:+ b) = String.length a + String.length b.
Proof.
  induction a as [|x a IH]; [done|].
  change (S (String.length (a +:+ b)) = S (String.length a + String.length b)).
  by f_equal.
Qed.

Lemma concat_app sep (l1 l2 : list string) :
  l1 ≠ [] → l2 ≠ [] →
  String.concat sep (l1 ++ l2)
  = String.concat sep l1 +:+ sep +:+ String.concat sep l2.
Proof.
  intros H1 H2. induction l1 as [|x l1 IH]; [done|].
  destruct l1 as [|y l1].
  - destruct l2; [done|]. reflexivity.
  - change (String.concat sep ((x :: y :: l1) ++ l2))
      with (x +:+ sep +:+ String.concat sep ((y :: l1) ++ l2)).
    change (String.concat sep (x :: y :: l1))
      with (x +:+ sep +:+ String.concat sep (y :: l1)).
    rewrite IH by done. by rewrite !string_app_assoc'.
Qed.

End Strings.

Section AuthUrl.

Variable E : env.

Lemma urlencode_app (q1 q2 : list (string * option string)) safe :
  q1 ≠ [] → q2 ≠ [] →
  urlencode (q1 ++ q2) safe = urlencode q1 safe +:+ "&" +:+ urlencode q2 safe.
Proof.
  intros H1 H2. unfold urlencode. rewrite fmap_app.
  apply concat_app; by destruct q1, q2.
Qed.

Lemma quote_plus_urlsafe s safe : urlsafe s → quote_plus s safe = s.
Proof.
  intros H. unfold quote_plus.
  destruct (in_string " " s) eqn:Hsp; [by apply H in Hsp|].
  apply quote_id. intros c Hc. by rewrite (H c Hc).
Qed.

Lemma redirect_keeps_url (query : list (string * option string)) :
  location (RedirectResponse
              ("https://id.twitch.tv/oauth2/authorize?" +:+ urlencode query ":+"))
  = Some ("https://id.twitch.tv/oauth2/authorize?" +:+ urlencode query ":+").
Proof.
  cbn [RedirectResponse location]. f_equal. apply quote_id. intros c.
  rewrite in_string_app. intros [H|H]%orb_true_iff.
  - cbn [in_string] in H. rewrite orb_false_r in H.
    repeat (apply orb_true_iff in H as [H|H];
            [apply Ascii.eqb_eq in H; subst; reflexivity|]).
    apply Ascii.eqb_eq in H; subst; reflexivity.
  - apply urlencode_chars in H as [-> | [-> | [_ [H | [H | [-> | ->]]]]]];
      try reflexivity.
    + by rewrite H.
    + unfold in_safe in H. cbn [in_string] in H. rewrite orb_false_r in H.
      apply andb_true_iff in H as [H _].
      apply orb_true_iff in H as [H|H]; apply Ascii.eqb_eq in H; subst; reflexivity.
Qed.

Lemma b64_char_safe (n : nat) : n < 64 → always_safe (b64_char n) = true.
Proof. intros H. do 64 (destruct n as [|n]; [reflexivity|]). lia. Qed.

Lemma rstrip_pad_cons (c : ascii) (r : string) :
  always_safe c = true →
  ∃ r', rstrip_pad (String c r) = String c r'
        ∧ (rstrip_pad r = EmptyString ∧ r' = EmptyString ∨ r' = rstrip_pad r).
Proof.
  intros Hc. cbn [rstrip_pad].
  assert (Ascii.eqb c "=" = false) as Hne.
  { apply Ascii.eqb_neq. intros ->. discriminate Hc. }
  destruct (rstrip_pad r) as [|x r'] eqn:Hr.
  - rewrite Hne. exists EmptyString. split; [done|]. by left.
  - exists (String x r'). split; [done|]. by right.
Qed.

Lemma rstrip_pad_urlsafe (c : ascii) (r : string) :
  always_safe c = true → urlsafe (rstrip_pad r) → urlsafe (rstrip_pad (String c r)).
Proof.
  intros Hc Hr. destruct (rstrip_pad_cons c r Hc) as (r' & -> & Hr').
  intros x. cbn [in_string]. intros [Hx|Hx]%orb_true_iff.
  - apply Ascii.eqb_eq in Hx. by subst.
  - destruct Hr' as [[_ ->]| ->]; [done | by apply Hr].
Qed.

Lemma b64_bounds (a b : ascii) :
  Ascii.nat_of_ascii a / 4 < 64
  ∧ Ascii.nat_of_ascii a mod 4 * 16 < 64
  ∧ Ascii.nat_of_ascii a mod 4 * 16 + Ascii.nat_of_ascii b / 16 < 64
  ∧ Ascii.nat_of_ascii a mod 16 * 4 < 64
  ∧ Ascii.nat_of_ascii a mod 16 * 4 + Ascii.nat_of_ascii b / 64 < 64
  ∧ Ascii.nat_of_ascii a mod 64 < 64.
Proof.
  pose proof (Ascii.nat_ascii_bounded a). pose proof (Ascii.nat_ascii_bounded b).
  pose proof (Nat.mod_upper_bound (Ascii.nat_of_ascii a) 4).
  pose proof (Nat.mod_upper_bound (Ascii.nat_of_ascii a) 16).
  pose proof (Nat.mod_upper_bound (Ascii.nat_of_ascii a) 64).
  assert (Ascii.nat_of_ascii a / 4 < 64) by (apply Nat.Div0.div_lt_upper_bound; lia).
  assert (Ascii.nat_of_ascii b / 16 < 16) by (apply Nat.Div0.div_lt_upper_bound; lia).
  assert (Ascii.nat_of_ascii b / 64 < 4) by (apply Nat.Div0.div_lt_upper_bound; lia).
  lia.
Qed.

(** What [secrets.token_urlsafe] returns is made of letters, digits, [-]
    and [_] *)
Lemma token_urlsafe_urlsafe (tok : string) : urlsafe (token_urlsafe tok).
Proof.
  unfold token_urlsafe.
  assert (urlsafe (rstrip_pad (urlsafe_b64encode tok))
          ∧ (∀ a, urlsafe (rstrip_pad (urlsafe_b64encode (String a tok))))
          ∧ (∀ a b, urlsafe (rstrip_pad (urlsafe_b64encode (String a (String b tok))))))
    as [H _]; [|done].
  induction tok as [|c tok (IH0 & IH1 & IH2)].
  - split_and!.
    + by intros c.
    + intros a. destruct (b64_bounds a a) as (? & ? & _).
      cbn [urlsafe_b64encode].
      do 2 (apply rstrip_pad_urlsafe; [by apply b64_char_safe|]). by intros c.
    + intros a b. destruct (b64_bounds a b) as (? & _ & ? & _).
      destruct (b64_bounds b b) as (_ & _ & _ & ? & _).
      cbn [urlsafe_b64encode].
      do 3 (apply rstrip_pad_urlsafe; [by apply b64_char_safe|]). by intros c.
  - split_and!; [done | done |].
    intros a b. destruct (b64_bounds a b) as (? & _ & ? & _).
    destruct (b64_bounds b c) as (_ & _ & _ & _ & ? & _).
    destruct (b64_bounds c c) as (_ & _ & _ & _ & _ & ?).
    cbn [urlsafe_b64encode].
    do 4 (apply rstrip_pad_urlsafe; [by apply b64_char_safe|]). done.
Qed.

(** Sixteen drawn bytes give a state that is not empty *)
Lemma token_urlsafe_truthy (tok : string) :
  String.length tok = 16 → falsy (Some (token_urlsafe tok)) = false.
Proof.
  destruct tok as [|a tok]; [done|]. intros _. unfold token_urlsafe.
  destruct (b64_bounds a a) as (Ha & _).
  assert (∃ r, urlsafe_b64encode (String a tok)
               = String (b64_char (Ascii.nat_of_ascii a / 4)) r) as [r ->].
  { destruct tok as [|b [|c tok]]; cbn [urlsafe_b64encode]; by eexists. }
  destruct (rstrip_pad_cons (b64_char (Ascii.nat_of_ascii a / 4)) r) as (r' & -> & _);
    [by apply b64_char_safe | done].
Qed.

Lemma urlsafe_encodes (s : string) : urlsafe s → lone_surrogate s = false.
Proof.
  intros H. induction s as [|a s IH]; [done|].
  assert (urlsafe s) as Hs.
  { intros c Hc. apply H. cbn [in_string]. rewrite Hc. apply orb_true_r. }
  destruct s as [|b s]; [done|].
  change (lone_surrogate (String a (String b s)))
    with ((Ascii.nat_of_ascii a =? 237) && (160 <=? Ascii.nat_of_ascii b)
          || lone_surrogate (String b s)).
  rewrite (IH Hs), orb_false_r. apply andb_false_iff. left.
  apply Nat.eqb_neq. intros Ha.
  assert (always_safe a = true) as Hsafe.
  { apply H. cbn [in_string]. by rewrite Ascii.eqb_refl. }
  rewrite <- (Ascii.ascii_nat_embedding a), Ha in Hsafe. discriminate Hsafe.
Qed.

Lemma auth_redirect (state : string) :
  urlsafe state →
  ∃ front,
    RedirectResponse
      ("https://id.twitch.tv/oauth2/authorize?" +:+ urlencode (params E state) ":+")
    = {| status_code := 307;
         location := Some ("https://id.twitch.tv/oauth2/authorize?" +:+ front
                           +:+ "&state=" +:+ state +:+ "&force_verify=true");
         set_cookie := [];
         body := EmptyString |}
    ∧ count_char "=" front = 4 ∧ count_char "&" front = 3
    ∧ count_char " " front = 0.
Proof.
  intros Hstate.
  set (front := [ ("client_id", CLIENT_ID E); ("redirect_uri", CALLBACK_URL E);
                  ("response_type", Some "code");
                  ("scope", Some (String.concat " " (scope_value E <$> ALL_SCOPES))) ]).
  exists (urlencode front ":+"). split.
  - pose proof (redirect_keeps_url (params E state)) as Hloc.
    unfold RedirectResponse in *. cbn [location] in Hloc.
    f_equal. rewrite Hloc. f_equal. f_equal.
    change (params E state)
      with (front ++ [("state", Some state); ("force_verify", Some "true")]).
    rewrite urlencode_app by done. f_equal.
    unfold urlencode. cbn [fmap list_fmap String.concat fst snd py_str_opt default from_option id].
    rewrite (quote_plus_urlsafe state) by done. reflexivity.
  - by apply (urlencode_counts front ":+").
Qed.

(** When the client id, the redirect URI and the scope names can be
    encoded as UTF-8, the browser is sent to Twitch with six parameters,
    whatever they hold, and with the state as it was drawn; when one of
    them cannot, [urlencode] raises and the answer is the server error *)
Theorem auth_redirect_carries_state (tok : string) :
  (encodes (params E (token_urlsafe tok)) = true →
   ∃ front,
     fastapi_sends (auth E tok)
     = {| status_code := 307;
          location := Some ("https://id.twitch.tv/oauth2/authorize?" +:+ front
                            +:+ "&state=" +:+ token_urlsafe tok
                            +:+ "&force_verify=true");
          set_cookie := [];
          body := EmptyString |}
     ∧ count_char "=" front = 4 ∧ count_char "&" front = 3
     ∧ count_char " " front = 0)
  ∧ (encodes (params E (token_urlsafe tok)) = false →
     returned_value (auth E tok) = Raised UnicodeEncodeError
     ∧ fastapi_sends (auth E tok) = server_error).
Proof.
  unfold fastapi_sends, auth, urllib_parse_urlencode. cbn [returned_value].
  split; intros ->; [|done].
  apply auth_redirect, token_urlsafe_urlsafe.
Qed.

End AuthUrl.

Section Scopes.

Implicit Types (c : ascii) (s safe : string) (l : list string).

Lemma scope_name_no_space s : scope_name s → in_string " " s = false.
Proof.
  intros H. destruct (in_string " " s) eqn:Hsp; [|done]. by apply H in Hsp.
Qed.

Lemma spaces_to_plus_app s1 s2 :
  spaces_to_plus (s1 +:+ s2) = spaces_to_plus s1 +:+ spaces_to_plus s2.
Proof.
  induction s1 as [|x s1 IH]; [done|].
  change (String (if Ascii.eqb x " " then "+"%char else x) (spaces_to_plus (s1 +:+ s2))
          = String (if Ascii.eqb x " " then "+"%char else x)
                   (spaces_to_plus s1 +:+ spaces_to_plus s2)).
  by f_equal.
Qed.

Lemma spaces_to_plus_id s : in_string " " s = false → spaces_to_plus s = s.
Proof.
  induction s as [|x s IH]; cbn [in_string spaces_to_plus]; [done|].
  intros [Hx Hs]%orb_false_iff. rewrite IH by done.
  rewrite Ascii.eqb_sym in Hx. by rewrite Hx.
Qed.

Lemma spaces_to_plus_concat l :
  Forall scope_name l →
  spaces_to_plus (String.concat " " l) = String.concat "+" l.
Proof.
  induction 1 as [|s l Hs Hl IH]; [done|]. destruct l as [|s' l].
  - cbn [String.concat]. by apply spaces_to_plus_id, scope_name_no_space.
  - change (String.concat " " (s :: s' :: l))
      with (s +:+ " " +:+ String.concat " " (s' :: l)).
    change (String.concat "+" (s :: s' :: l))
      with (s +:+ "+" +:+ String.concat "+" (s' :: l)).
    rewrite !spaces_to_plus_app, IH.
    by rewrite (spaces_to_plus_id s) by by apply scope_name_no_space.
Qed.

Lemma quote_joined sep l safe :
  Forall scope_name l →
  in_safe safe ":" = true →
  (∀ c, in_string c sep = true → in_safe safe c = true) →
  quote (String.concat sep l) safe = String.concat sep l.
Proof.
  intros Hl Hcolon Hsep. apply quote_id. intros c [H|(s & Hs & H)]%in_string_concat.
  - rewrite (Hsep c H). apply orb_true_r.
  - rewrite Forall_forall in Hl. apply (Hl s Hs) in H.
    apply orb_true_iff in H as [->|H]; [done|].
    apply Ascii.eqb_eq in H. subst. rewrite Hcolon. apply orb_true_r.
Qed.

Lemma quote_plus_joined_spaces l safe :
  Forall scope_name l →
  in_safe safe ":" = true →
  quote_plus (String.concat " " l) safe = String.concat "+" l.
Proof.
  intros Hl Hcolon. unfold quote_plus.
  destruct (in_string " " (String.concat " " l)) eqn:Hsp.
  - rewrite quote_joined, spaces_to_plus_concat; try done.
    + rewrite in_safe_app, Hcolon. done.
    + intros c Hc. rewrite in_safe_app.
      cbn [in_string] in Hc. rewrite orb_false_r in Hc.
      apply Ascii.eqb_eq in Hc. subst. apply orb_true_r.
  - rewrite <- (spaces_to_plus_concat l Hl), (spaces_to_plus_id _ Hsp).
    apply quote_id. intros c Hc.
    destruct (in_string_concat _ _ _ Hc) as [H|(s & Hs & H)].
    + cbn [in_string] in H. rewrite orb_false_r in H.
      apply Ascii.eqb_eq in H. subst. by rewrite Hsp in Hc.
    + rewrite Forall_forall in Hl. apply (Hl s Hs) in H.
      apply orb_true_iff in H as [->|H]; [done|].
      apply Ascii.eqb_eq in H. subst. rewrite Hcolon. apply orb_true_r.
Qed.

Lemma quote_plus_joined_plus l :
  Forall scope_name l →
  quote_plus (String.concat "+" l) ":+" = String.concat "+" l.
Proof.
  intros Hl. unfold quote_plus.
  assert (in_string " " (String.concat "+" l) = false) as ->.
  { destruct (in_string _ _) eqn:Hsp; [|done].
    apply in_string_concat in Hsp as [H|(s & Hs & H)]; [done|].
    rewrite Forall_forall in Hl. by rewrite (scope_name_no_space s (Hl s Hs)) in H. }
  apply quote_joined; [done..|].
  intros c Hc. cbn [in_string] in Hc. rewrite orb_false_r in Hc.
  apply Ascii.eqb_eq in Hc. by subst.
Qed.

(** The three servers join and encode the scopes in three ways; the
    [scope] parameter that reaches Twitch is the same: the names with a
    [+] between them *)
Theorem scope_parameter_is_plus_joined l :
  Forall scope_name l →
  quote_plus (String.concat " " l) ":+" = String.concat "+" l
  ∧ quote_plus (String.concat "+" l) ":+" = String.concat "+" l
  ∧ quote_plus (String.concat " " l) ":+ " = String.concat "+" l.
Proof.
  intros Hl. split_and!.
  - by apply quote_plus_joined_spaces.
  - by apply quote_plus_joined_plus.
  - by apply quote_plus_joined_spaces.
Qed.

End Scopes.

(** * Handlers with outside calls *)

Section IOFacts.

Context {A B : Type}.

Lemma bind_result (m : IO A) (k : A → IO B) w r w'' :
  (m ≫= k) w = (r, w'') →
  (∃ e, r = Raises e ∧ m w = (Raises e, w''))
  ∨ (∃ a w', m w = (Returns a, w') ∧ k a w' = (r, w'')).
Proof.
  unfold mbind, IO_bind. destruct (m w) as [[a|e] w'] eqn:Hm; intros H.
  - right. by exists a, w'.
  - left. exists e. by simplify_eq.
Qed.

Lemma bind_returns (m : IO A) (k : A → IO B) w b w'' :
  (m ≫= k) w = (Returns b, w'') →
  ∃ a w', m w = (Returns a, w') ∧ k a w' = (Returns b, w'').
Proof. intros [(e & ? & _)|?]%bind_result; [done | done]. Qed.

Lemma bind_run_returns (m : IO A) (k : A → IO B) w a w' :
  m w = (Returns a, w') → (m ≫= k) w = k a w'.
Proof. unfold mbind, IO_bind. by intros ->. Qed.

Lemma bind_run_raises (m : IO A) (k : A → IO B) w e w' :
  m w = (Raises e, w') → (m ≫= k) w = (Raises e, w').
Proof. unfold mbind, IO_bind. by intros ->. Qed.

End IOFacts.

Section Primitives.

Variable E : env.

Lemma expr_run {A} (r : result A) w :
  expr r w = (match r with Ok a => Returns a | Raise e => Raises (Builtin e) end, w).
Proof. reflexivity. Qed.

Lemma request_run c r w :
  request c r w
  = (match r with Some x => Returns x | None => Raises (Failed c) end, logged w [c]).
Proof. by destruct r. Qed.

Lemma outside_run c (ok : bool) w :
  outside c ok w = (if ok then Returns tt else Raises (Failed c), logged w [c]).
Proof. by destruct ok. Qed.

Lemma raise_for_status_run r w :
  raise_for_status r w
  = (if reply_status_error r then Raises HTTPStatusError else Returns tt, w).
Proof. unfold raise_for_status. by destruct (reply_status_error r). Qed.

Lemma decode_run c w :
  decode c w
  = (match c with
     | Decodes v => Returns v
     | NotJson => Raises JSONDecodeError
     | NotText => Raises UnicodeDecodeError
     end, w).
Proof. by destruct c. Qed.

Lemma json_of_run r w :
  json_of r w
  = (match reply_content r with
     | Decodes v => Returns v
     | NotJson => Raises JSONDecodeError
     | NotText => Raises UnicodeDecodeError
     end, w).
Proof. apply decode_run. Qed.

Lemma subscript0_world v w r w' : subscript0 v w = (r, w') → w' = w.
Proof.
  destruct v as [| | | |s|l|d]; try (by intros [= _ <-]).
  - destruct s; by intros [= _ <-].
  - destruct l; by intros [= _ <-].
Qed.

Lemma subscript0_not_failed v w c w' : subscript0 v w ≠ (Raises (Failed c), w').
Proof.
  destruct v as [| | | |s|l|d]; try done.
  - by destruct s.
  - by destruct l.
Qed.

Lemma json_dump_run filename v w :
  json_dump E filename v w
  = if can_write E filename
    then (Returns tt, {| files := <[filename := Decodes v]> (files w);
                         calls := calls w ++ [WriteJson filename v] |})
    else (Raises (Failed (WriteJson filename v)), logged w [WriteJson filename v]).
Proof.
  unfold json_dump. unfold mbind at 1. unfold IO_bind. rewrite outside_run.
  by destruct (can_write E filename).
Qed.

Lemma setup_twitch_run
    (access_token refresh_token broadcaster_id broadcaster_login : json) (w : world) :
  _setup_twitch E access_token refresh_token broadcaster_id broadcaster_login w
  = if new_twitch E then
      if set_user_authentication E access_token refresh_token then
        (Returns tt,
         logged w [ NewTwitch;
                    SetUserAuthentication access_token refresh_token;
                    CreateEventsubSubscription broadcaster_id;
                    StartChatListener access_token refresh_token broadcaster_login ])
      else
        (Raises (Failed (SetUserAuthentication access_token refresh_token)),
         logged w [NewTwitch; SetUserAuthentication access_token refresh_token])
    else (Raises (Failed NewTwitch), logged w [NewTwitch]).
Proof.
  unfold _setup_twitch, logged, try_and_log, outside, record_call, mbind, IO_bind.
  cbn.
  destruct (new_twitch E); [|done].
  destruct (set_user_authentication E access_token refresh_token); cbn; [|by rewrite <- app_assoc].
  destruct (create_eventsub_subscription E broadcaster_id); cbn;
    by rewrite <- !app_assoc.
Qed.

(** Authentication must succeed; the EventSub subscription may fail, and
    the chat listener is started either way *)
Theorem setup_twitch_tolerates_failed_subscription
    (access_token refresh_token broadcaster_id broadcaster_login : json) (w : world) :
  (new_twitch E = true ∧ set_user_authentication E access_token refresh_token = true →
   _setup_twitch E access_token refresh_token broadcaster_id broadcaster_login w
   = (Returns tt,
      logged w [ NewTwitch;
                 SetUserAuthentication access_token refresh_token;
                 CreateEventsubSubscription broadcaster_id;
                 StartChatListener access_token refresh_token broadcaster_login ]))
  ∧ (new_twitch E = true ∧ set_user_authentication E access_token refresh_token = false →
     _setup_twitch E access_token refresh_token broadcaster_id broadcaster_login w
     = (Raises (Failed (SetUserAuthentication access_token refresh_token)),
        logged w [NewTwitch; SetUserAuthentication access_token refresh_token]))
  ∧ (new_twitch E = false →
     _setup_twitch E access_token refresh_token broadcaster_id broadcaster_login w
     = (Raises (Failed NewTwitch), logged w [NewTwitch])).
Proof.
  rewrite setup_twitch_run. split_and!.
  - by intros [-> ->].
  - by intros [-> ->].
  - by intros ->.
Qed.

End Primitives.

Section Startup.

Variable E : env.

Ltac io_unfold :=
  unfold json_load, decode, mbind, IO_bind, mret, IO_ret, raise, expr,
    _find_token_file, record_call.

(** Without a token file the application starts the spin processor and
    nothing else: no call to Twitch is made *)
Theorem lifespan_without_token_file (w : world) :
  glob E (TOKENS_GLOB E) (files w) = [] →
  lifespan E w = (Returns tt, logged w [StartSpinProcessor]).
Proof. intros Hglob. unfold lifespan. io_unfold. by rewrite Hglob. Qed.

(** The token file is read before anything is started: a file that is
    missing, does not decode as text, is not JSON, is not a JSON object or
    lacks a key stops the startup with the world as it was *)
Theorem lifespan_unreadable_token_file (w : world) (name : string) :
  head (glob E (TOKENS_GLOB E) (files w)) = Some name →
  falsy (Some name) = false →
  (files w !! name = None → lifespan E w = (Raises FileNotFoundError, w))
  ∧ (files w !! name = Some NotText → lifespan E w = (Raises UnicodeDecodeError, w))
  ∧ (files w !! name = Some NotJson → lifespan E w = (Raises JSONDecodeError, w))
  ∧ (∀ v, files w !! name = Some (Decodes v) → (∀ d, v ≠ JDict d) →
          lifespan E w = (Raises (Builtin TypeError), w))
  ∧ (∀ d, files w !! name = Some (Decodes (JDict d)) →
          d !! "tokens" = None ∨ d !! "user" = None →
          lifespan E w = (Raises (Builtin KeyError), w))
  ∧ (∀ d creds user, files w !! name = Some (Decodes (JDict d)) →
          d !! "tokens" = Some (JDict creds) → d !! "user" = Some (JDict user) →
          user !! "id" = None ∨ user !! "login" = None ∨ creds !! "access_token" = None →
          lifespan E w = (Raises (Builtin KeyError), w)).
Proof.
  intros Hglob Hname. unfold lifespan. io_unfold. rewrite Hglob, Hname.
  cbn [negb default from_option id files]. split_and!.
  - by intros ->.
  - by intros ->.
  - by intros ->.
  - intros v -> Hv. destruct v; try done. by destruct (Hv d).
  - intros d -> [Hd|Hd]; cbn [subscript]; rewrite ?Hd; [done|].
    by destruct (d !! "tokens").
  - intros d creds user -> Hc Hu H. cbn [subscript]. rewrite Hc, Hu. cbn [subscript].
    destruct H as [H|[H|H]]; rewrite ?H; [done|..].
    + by destruct (user !! "id").
    + destruct (user !! "id"); [|done]. by destruct (user !! "login").
Qed.

Ltac stops_early H :=
  unfold expr, json_load, decode, raise, mret, IO_ret in H; repeat case_match; simplify_eq;
  (split; [done|]); exists (@nil call); (split; [set_solver|]); right;
  eexists; (split; [done|]); by rewrite app_nil_r.

(** Startup never writes a file, and the spin processor is started exactly
    when startup completes, as its last act *)
Theorem lifespan_starts_processor_last (w : world) (r : outcome unit) (w' : world) :
  lifespan E w = (r, w') →
  files w' = files w
  ∧ ∃ cs, (StartSpinProcessor ∉ cs)
          ∧ ((r = Returns tt ∧ calls w' = calls w ++ cs ++ [StartSpinProcessor])
             ∨ (∃ e, r = Raises e ∧ calls w' = calls w ++ cs)).
Proof.
  unfold lifespan. intros H.
  apply bind_result in H as [(e' & _ & H)|(tf & w0 & Htf & H)]; [done|].
  unfold _find_token_file in Htf. simplify_eq.
  apply bind_result in H as [(e & -> & H)|([] & w1 & H1 & H)].
  - destruct (negb (falsy (head _))); [|done].
    do 8 (apply bind_result in H as [(? & _ & H)|(? & ? & Hm & H)];
            [ stops_early H
            | unfold expr, json_load, decode, raise, mret, IO_ret in Hm; repeat case_match; simplify_eq ]).
    rewrite setup_twitch_run in H.
    repeat case_match; simplify_eq; (split; [done|]); eexists;
      (split; [|right; eexists; (split; [done|]); reflexivity]); set_solver.
  - unfold record_call in H. simplify_eq. cbn [files calls].
    destruct (negb (falsy (head _))).
    + do 8 (apply bind_result in H1 as [(? & ? & H1)|(? & ? & Hm & H1)];
              [ done | unfold expr, json_load, decode, raise, mret, IO_ret in Hm; repeat case_match; simplify_eq ]).
      rewrite setup_twitch_run in H1.
      repeat case_match; simplify_eq. split; [done|]. eexists.
      split; [|left; split; [done|]; cbn [logged calls]; by rewrite <- app_assoc].
      set_solver.
    + unfold mret, IO_ret in H1. simplify_eq. split; [done|]. exists [].
      split; [set_solver|]. left. done.
Qed.

End Startup.

Section Extends.

Variable E : env.

Lemma extends_ret {A} (a : A) : extends (mret a).
Proof. intros w r w' [= _ <-]. exists []. by rewrite app_nil_r. Qed.

Lemma extends_raise {A} (e : error) : extends (@raise A e).
Proof. intros w r w' [= _ <-]. exists []. by rewrite app_nil_r. Qed.

Lemma extends_expr {A} (x : result A) : extends (expr x).
Proof. intros w r w' [= _ <-]. exists []. by rewrite app_nil_r. Qed.

Lemma extends_bind {A B} (m : IO A) (k : A → IO B) :
  extends m → (∀ a, extends (k a)) → extends (m ≫= k).
Proof.
  intros Hm Hk w r w'' [(e & -> & H)|(a & w' & H1 & H2)]%bind_result.
  - by eapply Hm.
  - destruct (Hm _ _ _ H1) as [cs1 H1']. destruct (Hk _ _ _ _ H2) as [cs2 H2'].
    exists (cs1 ++ cs2). by rewrite H2', H1', app_assoc.
Qed.

Lemma extends_request c r : extends (request c r).
Proof. intros w r' w'. rewrite request_run. intros [= _ <-]. by exists [c]. Qed.

Lemma extends_raise_for_status r : extends (raise_for_status r).
Proof.
  intros w r' w'. rewrite raise_for_status_run. intros [= _ <-].
  exists []. by rewrite app_nil_r.
Qed.

Lemma extends_json_of r : extends (json_of r).
Proof.
  intros w r' w'. rewrite json_of_run. intros [= _ <-].
  exists []. by rewrite app_nil_r.
Qed.

Lemma extends_subscript0 v : extends (subscript0 v).
Proof.
  intros w r w' ->%subscript0_world. exists []. by rewrite app_nil_r.
Qed.

Lemma extends_json_dump filename v : extends (json_dump E filename v).
Proof.
  intros w r w'. rewrite json_dump_run.
  destruct (can_write E filename); intros [= _ <-]; by eexists.
Qed.

Lemma extends_setup_twitch a r u l : extends (_setup_twitch E a r u l).
Proof.
  intros w r' w'. rewrite setup_twitch_run.
  repeat case_match; intros [= _ <-]; by eexists.
Qed.

Lemma extends_if {A} (b : bool) (m1 m2 : IO A) :
  extends m1 → extends m2 → extends (if b then m1 else m2).
Proof. by destruct b. Qed.

End Extends.

Create HintDb io.

#[local] Hint Resolve extends_ret extends_raise extends_expr extends_request
  extends_raise_for_status extends_json_of extends_subscript0 extends_json_dump
  extends_if : io.

Section Callback.

Variable E : env.

Lemma extends_callback code rs ss : extends (callback E code rs ss).
Proof.
  unfold callback. apply extends_if; [apply extends_raise|].
  do 20 (apply extends_bind; [auto using extends_setup_twitch with io | intros ?]).
  apply extends_ret.
Qed.

End Callback.

Section CallbackFacts.

Variable E : env.

Lemma callback_rejects code rs ss w :
  falsy code = true ∨ rs ≠ ss →
  callback E code rs ss w
  = (Raises (HTTPException 400 "Invalid OAuth callback (bad state or missing code)"), w).
Proof.
  intros H. unfold callback.
  destruct (falsy code) eqn:Hc; [done|]. destruct H as [?|H]; [done|].
  by rewrite bool_decide_eq_false_2.
Qed.

Lemma callback_passes code rs ss w :
  falsy code = false → rs = ss →
  ∃ c rest, code = Some c
            ∧ calls (callback E code rs ss w).2 = calls w ++ PostToken c :: rest.
Proof.
  intros Hc ->. destruct code as [c|]; [|done]. exists c.
  unfold callback. rewrite Hc, bool_decide_eq_true_2 by done.
  cbn [orb negb default from_option id].
  match goal with |- context [calls (?m w).2] => destruct (m w) as [r w'] eqn:H end.
  cbn [snd].
  apply bind_result in H as [(e & _ & H)|(tr & w1 & Hreq & H)].
  - rewrite request_run in H. simplify_eq. by exists [].
  - rewrite request_run in Hreq. simplify_eq.
    match type of H with
    | ?k _ = _ => assert (extends k) as Hext
    end.
    { do 19 (apply extends_bind;
             [auto using extends_setup_twitch with io | intros ?]).
      apply extends_ret. }
    destruct (Hext _ _ _ H) as [rest Hrest]. exists rest.
    rewrite Hrest. cbn [logged calls]. by rewrite <- app_assoc.
Qed.

(** [/callback] answers 400, and does nothing else, exactly when the code
    is missing or empty or the [state] parameter differs from the cookie;
    otherwise its first act is to send the code to Twitch *)
Theorem callback_checks_state (code rs ss : option string) (w : world) :
  (callback E code rs ss w
   = (Raises (HTTPException 400 "Invalid OAuth callback (bad state or missing code)"), w)
   ↔ falsy code = true ∨ rs ≠ ss)
  ∧ (falsy code = false → rs = ss →
     ∃ c rest, code = Some c
               ∧ calls (callback E code rs ss w).2 = calls w ++ PostToken c :: rest).
Proof.
  split; [split|]; [|apply callback_rejects|apply callback_passes].
  intros H. destruct (falsy code) eqn:Hc; [by left|]. right. intros ->.
  destruct (callback_passes code ss ss w Hc eq_refl) as (c & rest & _ & Hcalls).
  rewrite H in Hcalls. cbn [snd] in Hcalls.
  apply (f_equal length) in Hcalls. rewrite length_app in Hcalls.
  cbn [length] in Hcalls. lia.
Qed.

End CallbackFacts.

Section CallbackOutcomes.

Variable E : env.

Ltac before_write H :=
  first [ rewrite request_run in H | rewrite raise_for_status_run in H
        | rewrite json_of_run in H | rewrite expr_run in H
        | rewrite json_dump_run in H | idtac ];
  repeat case_match; simplify_eq.

Lemma callback_cases code rs ss w r w' :
  callback E code rs ss w = (r, w') →
  (files w' = files w
   ∧ ∃ e, r = Raises e ∧ e ≠ Failed NewTwitch
          ∧ ∀ a b, e ≠ Failed (SetUserAuthentication a b))
  ∨ ∃ c tokens creds bearer refresh user uid login display_name,
      code = Some c
      ∧ tokens = JDict creds
      ∧ creds !! "access_token" = Some bearer
      ∧ refresh = dict_get creds "refresh_token"
      ∧ subscript user "id" = Ok uid
      ∧ subscript user "login" = Ok login
      ∧ subscript user "display_name" = Ok display_name
      ∧ (r, w')
        = (_setup_twitch E bearer refresh uid login
           ≫= λ _, mret (authorized_page E display_name (token_file_name E login)))
            (after_write w c bearer (token_file_name E login)
                         (saved_record rs uid login display_name tokens)).
Proof.
  unfold callback. destruct (_ || _) eqn:Hguard.
  { intros [= <- <-]. left. split; [done|]. by eexists. }
  apply orb_false_iff in Hguard as [Hcode _].
  destruct code as [c|]; [|done]. cbn [default from_option id].
  intros H.
  do 8 (apply bind_result in H as [(? & -> & H)|(? & ? & Hm & H)];
        [ before_write H; left; (split; [done|]); by eexists
        | before_write Hm ]).
  apply bind_result in H as [(? & -> & H)|(user & ? & Hm & H)].
  { left. pose proof (subscript0_world _ _ _ _ H) as ->. split; [done|].
    eexists. split; [done|].
    split; [intros ->|intros a b ->]; by eapply subscript0_not_failed. }
  pose proof (subscript0_world _ _ _ _ Hm) as ->.
  do 5 (apply bind_result in H as [(? & -> & H)|(? & ? & Hm' & H)];
        [ before_write H; left; (split; [done|]); by eexists
        | before_write Hm' ]).
  right.
  match goal with
  | Hs : subscript ?t "access_token" = Ok _ |- _ =>
      destruct t; try done; cbn [subscript method_get] in *
  end.
  repeat case_match; simplify_eq.
  do 4 (apply bind_result in H as [(? & -> & H)|(? & ? & Hm' & H)];
        [ before_write H | before_write Hm' ]).
  eexists _, _, _, _, _, user, _, _, _. split_and!; try done.
  rewrite <- H. unfold after_write, token_file_name, saved_record, logged.
  cbn [files calls]. rewrite <- !app_assoc. cbn [app].
  unfold mbind, IO_bind. by destruct (_setup_twitch _ _ _ _ _ _) as [[[]|] ?].
Qed.

End CallbackOutcomes.

Section Restart.

Variable E : env.

Lemma lifespan_reads_saved (w : world) (name : string) (rs : option string)
    (uid login display_name bearer : json) (creds : gmap string json) :
  head (glob E (TOKENS_GLOB E) (files w)) = Some name →
  falsy (Some name) = false →
  files w !! name
  = Some (Decodes (saved_record rs uid login display_name (JDict creds))) →
  creds !! "access_token" = Some bearer →
  lifespan E w
  = (_setup_twitch E bearer (dict_get creds "refresh_token") uid login
     ≫= λ _, record_call StartSpinProcessor) w.
Proof.
  intros Hglob Hname Hfile Hbearer.
  set (user := JDict {[ "id" := uid; "login" := login;
                        "display_name" := display_name ]}).
  assert (subscript (saved_record rs uid login display_name (JDict creds)) "tokens"
          = Ok (JDict creds)) as Htokens by reflexivity.
  assert (subscript (saved_record rs uid login display_name (JDict creds)) "user"
          = Ok user) as Huser by reflexivity.
  assert (subscript user "id" = Ok uid) as Hid by reflexivity.
  assert (subscript user "login" = Ok login) as Hlogin by reflexivity.
  assert (subscript (JDict creds) "access_token" = Ok bearer) as Hat.
  { cbn [subscript]. by rewrite Hbearer. }
  unfold lifespan.
  erewrite bind_run_returns; [|unfold _find_token_file; by rewrite Hglob].
  cbv beta. rewrite Hname. cbn [negb default from_option id].
  unfold mbind at 1. unfold IO_bind at 1.
  erewrite bind_run_returns; [|unfold json_load; by rewrite Hfile].
  cbv beta.
  erewrite bind_run_returns; [|by rewrite expr_run, Htokens]. cbv beta.
  erewrite bind_run_returns; [|by rewrite expr_run, Huser]. cbv beta.
  erewrite bind_run_returns; [|by rewrite expr_run, Hid]. cbv beta.
  erewrite bind_run_returns; [|by rewrite expr_run, Huser]. cbv beta.
  erewrite bind_run_returns; [|by rewrite expr_run, Hlogin]. cbv beta.
  erewrite bind_run_returns; [|by rewrite expr_run, Hat]. cbv beta.
  erewrite bind_run_returns; [|by rewrite expr_run]. cbv beta.
  reflexivity.
Qed.

End Restart.

Section SavedTokens.

Variable E : env.

Lemma token_file_name_truthy (login : json) :
  falsy (Some (token_file_name E login)) = false.
Proof. reflexivity. Qed.

(** What [/callback] saved is what the next startup resumes with: when
    [/callback] succeeds it has written one file and set Twitch up with the
    tokens, user id and login it holds, and any startup that finds this
    file sets Twitch up with the same four values and then starts the spin
    processor *)
Theorem restart_resumes_what_callback_saved
    (code rs ss : option string) (w : world) (page : string) (w' : world) :
  callback E code rs ss w = (Returns page, w') →
  ∃ c name record bearer refresh uid login,
    code = Some c
    ∧ files w' = <[name := Decodes record]> (files w)
    ∧ calls w'
      = calls w ++ [ PostToken c; GetUser bearer; WriteJson name record;
                     NewTwitch; SetUserAuthentication bearer refresh;
                     CreateEventsubSubscription uid;
                     StartChatListener bearer refresh login ]
    ∧ ∀ E' w2,
        head (glob E' (TOKENS_GLOB E') (files w2)) = Some name →
        files w2 !! name = Some (Decodes record) →
        lifespan E' w2
        = (_setup_twitch E' bearer refresh uid login
           ≫= λ _, record_call StartSpinProcessor) w2.
Proof.
  intros [(_ & e & ? & _)|H]%callback_cases; [done|].
  destruct H as (c & tokens & creds & bearer & refresh & user & uid & login & dn
                 & -> & -> & Hb & -> & _ & _ & _ & H).
  exists c, (token_file_name E login), (saved_record rs uid login dn (JDict creds)),
    bearer, (dict_get creds "refresh_token"), uid, login.
  unfold mbind, IO_bind in H. rewrite setup_twitch_run in H.
  destruct (new_twitch E); [|done].
  destruct (set_user_authentication E _ _); [|done].
  injection H as _ ->. cbn [after_write logged files calls].
  split_and!; try done.
  - by rewrite <- app_assoc.
  - intros E' w2 Hglob Hfile.
    by eapply lifespan_reads_saved.
Qed.

(** [/callback] writes the token file before it sets Twitch up.  A failure
    of the set-up is the only way it can fail after writing; the file then
    stays, and while Twitch keeps failing every startup that finds the file
    fails in the same way, before the spin processor is started *)
Theorem callback_saves_tokens_before_setup
    (code rs ss : option string) (w : world) (e : error) (w' : world) :
  callback E code rs ss w = (Raises e, w') →
  (e ≠ Failed NewTwitch → (∀ a b, e ≠ Failed (SetUserAuthentication a b)) →
   files w' = files w)
  ∧ (e = Failed NewTwitch ∨ (∃ a b, e = Failed (SetUserAuthentication a b)) →
     ∃ name record,
       files w' = <[name := Decodes record]> (files w)
       ∧ ∀ w2,
           head (glob E (TOKENS_GLOB E) (files w2)) = Some name →
           files w2 !! name = Some (Decodes record) →
           ∃ cs, lifespan E w2 = (Raises e, logged w2 cs)
                 ∧ (StartSpinProcessor ∉ cs)).
Proof.
  intros [(Hfiles & e' & [= <-] & Hn & Hs)|H]%callback_cases.
  { split; [done|]. intros [->|(a & b & ->)]; [done | by destruct (Hs a b)]. }
  destruct H as (c & tokens & creds & bearer & refresh & user & uid & login & dn
                 & -> & -> & Hb & -> & _ & _ & _ & H).
  unfold mbind, IO_bind in H. rewrite setup_twitch_run in H.
  assert (files w' = <[token_file_name E login
                       := Decodes (saved_record rs uid login dn (JDict creds))]> (files w)
          ∧ ∀ w2, ∃ cs,
              (_setup_twitch E bearer (dict_get creds "refresh_token") uid login
               ≫= λ _, record_call StartSpinProcessor) w2
              = (Raises e, logged w2 cs)
              ∧ (StartSpinProcessor ∉ cs)
              ∧ (e = Failed NewTwitch ∨ ∃ a b, e = Failed (SetUserAuthentication a b)))
    as [Hfiles Hnext].
  { unfold mbind, IO_bind. setoid_rewrite setup_twitch_run.
    destruct (new_twitch E); [destruct (set_user_authentication E _ _)|];
      simplify_eq; (split; [done|]); intros w2; eexists;
      (split; [reflexivity|]); split; [set_solver|eauto|set_solver|eauto]. }
  split.
  - intros Hn Hs. destruct (Hnext w) as (_ & _ & _ & [->|(a & b & ->)]);
      [done | by destruct (Hs a b)].
  - intros _. eexists _, _. split; [done|]. intros w2 Hglob Hfile.
    destruct (Hnext w2) as (cs & Hrun & Hcs & _). exists cs. split; [|done].
    erewrite lifespan_reads_saved; [done..|apply token_file_name_truthy|done|done].
Qed.

End SavedTokens.

Section CallbackServerFacts.

Variable E : env.

Lemma callback_server_rejects code rs ss w :
  falsy code = true ∨ falsy rs = true ∨ rs ≠ ss →
  CallbackServer.callback E code rs ss w
  = (Raises (HTTPException 400 "Invalid OAuth callback (missing code or bad state)"), w).
Proof.
  intros H. unfold CallbackServer.callback.
  destruct (falsy code) eqn:Hc; [done|]. destruct (falsy rs) eqn:Hr; [done|].
  destruct H as [?|[?|H]]; [done..|]. by rewrite bool_decide_eq_false_2.
Qed.

Lemma callback_server_passes code rs ss w :
  falsy code = false → falsy rs = false → rs = ss →
  ∃ c rest, code = Some c
            ∧ calls (CallbackServer.callback E code rs ss w).2
              = calls w ++ PostToken c :: rest.
Proof.
  intros Hc Hr ->. destruct code as [c|]; [|done]. exists c.
  unfold CallbackServer.callback. rewrite Hc, Hr, bool_decide_eq_true_2 by done.
  cbn [orb negb default from_option id].
  match goal with |- context [calls (?m w).2] => destruct (m w) as [r w'] eqn:H end.
  cbn [snd].
  apply bind_result in H as [(e & _ & H)|(tr & w1 & Hreq & H)].
  - rewrite request_run in H. simplify_eq. by exists [].
  - rewrite request_run in Hreq. simplify_eq.
    match type of H with
    | ?k _ = _ => assert (extends k) as Hext
    end.
    { do 15 (apply extends_bind; [auto 6 with io | intros ?]).
      apply extends_ret. }
    destruct (Hext _ _ _ H) as [rest Hrest]. exists rest.
    rewrite Hrest. cbn [logged calls]. by rewrite <- app_assoc.
Qed.

(** The stand-alone callback server answers 400, and does nothing else,
    exactly when the code or the state is missing or empty or the state
    differs from the cookie; otherwise its first act is to send the code to
    Twitch *)
Theorem callback_server_checks_state (code rs ss : option string) (w : world) :
  (CallbackServer.callback E code rs ss w
   = (Raises (HTTPException 400 "Invalid OAuth callback (missing code or bad state)"), w)
   ↔ falsy code = true ∨ falsy rs = true ∨ rs ≠ ss)
  ∧ (falsy code = false → falsy rs = false → rs = ss →
     ∃ c rest, code = Some c
               ∧ calls (CallbackServer.callback E code rs ss w).2
                 = calls w ++ PostToken c :: rest).
Proof.
  split; [split|]; [|apply callback_server_rejects|apply callback_server_passes].
  intros H. destruct (falsy code) eqn:Hc; [by left|]. right.
  destruct (falsy rs) eqn:Hr; [by left|]. right. intros ->.
  destruct (callback_server_passes code ss ss w Hc Hr eq_refl)
    as (c & rest & _ & Hcalls).
  rewrite H in Hcalls. cbn [snd] in Hcalls.
  apply (f_equal length) in Hcalls. rewrite length_app in Hcalls.
  cbn [length] in Hcalls. lia.
Qed.

(** A request with a code but neither [state] parameter nor cookie passes
    the check of [main.py], which sends the code to Twitch; the stand-alone
    callback server refuses it *)
Theorem callback_accepts_absent_state (c : string) (w : world) :
  falsy (Some c) = false →
  (∃ rest, calls (callback E (Some c) None None w).2 = calls w ++ PostToken c :: rest)
  ∧ CallbackServer.callback E (Some c) None None w
    = (Raises (HTTPException 400 "Invalid OAuth callback (missing code or bad state)"), w).
Proof.
  intros Hc. split.
  - destruct (callback_passes E (Some c) None None w Hc eq_refl)
      as (c' & rest & [= <-] & H). by exists rest.
  - apply callback_server_rejects. right. by left.
Qed.

(** When Twitch refuses the code, the stand-alone callback server does not
    get to raise its HTTP error: reading the reply's text raises
    [TypeError], after the one request and before anything is written *)
Theorem callback_server_token_error (c : string) (rs : option string)
    (tr : reply) (w : world) :
  falsy (Some c) = false → falsy rs = false →
  post_token E c = Some tr →
  reply_status_code tr ≠ 200 →
  CallbackServer.callback E (Some c) rs rs w
  = (Raises (Builtin TypeError), logged w [PostToken c]).
Proof.
  intros Hc Hr Hpost Hstatus. unfold CallbackServer.callback.
  rewrite Hc, Hr, bool_decide_eq_true_2 by done.
  cbn [orb negb default from_option id].
  erewrite bind_run_returns; [|by rewrite request_run, Hpost]. cbv beta.
  apply bind_run_raises.
  by rewrite (proj2 (Nat.eqb_neq _ _) Hstatus).
Qed.

End CallbackServerFacts.

Section Cookie.

Variable E : env.

Lemma callback_server_encodes (tok : string) :
  encodes (CallbackServer.params (token_urlsafe tok)) = true.
Proof.
  unfold encodes, CallbackServer.params.
  cbn [forallb fst snd py_str_opt default from_option id].
  rewrite (urlsafe_encodes _ (token_urlsafe_urlsafe tok)). reflexivity.
Qed.

Ltac literal_no_lead H :=
  match type of H with
  | in_string _ ?s = true =>
      let Hall := fresh in
      assert (all_chars (λ c, negb (Ascii.nat_of_ascii c =? 237)) s = true) as Hall
        by (vm_compute; reflexivity);
      apply (all_chars_spec _ _ _ Hall) in H;
      apply negb_true_iff, Nat.eqb_neq in H; exact H
  end.

Lemma callback_server_page_encodes (query : list (string * option string)) :
  lone_surrogate
    (CallbackServer.login_page
       ("https://id.twitch.tv/oauth2/authorize?" +:+ urlencode query ":+ "))
  = false.
Proof.
  apply no_lead_encodes. intros c. unfold CallbackServer.login_page, dq.
  rewrite !in_string_app. intros H.
  repeat (apply orb_true_iff in H as [H|H]; [literal_no_lead H|]).
  apply orb_true_iff in H as [H|H].
  - apply orb_true_iff in H as [H|H]; [literal_no_lead H|].
    apply urlencode_chars in H as [-> | [-> | H]]; [done..|].
    by eapply encoded_no_lead.
  - repeat (apply orb_true_iff in H as [H|H]; [literal_no_lead H|]).
    literal_no_lead H.
Qed.

Lemma callback_server_auth_run (tok : string) :
  returned_value (CallbackServer.auth tok)
  = Content (CallbackServer.login_page
               ("https://id.twitch.tv/oauth2/authorize?"
                +:+ urlencode (CallbackServer.params (token_urlsafe tok)) ":+ "))
  ∧ set_cookie (fastapi_sends (CallbackServer.auth tok))
    = [oauth_state_cookie (token_urlsafe tok)].
Proof.
  unfold fastapi_sends, CallbackServer.auth, urllib_parse_urlencode.
  cbn [returned_value injected_cookies]. rewrite callback_server_encodes.
  split; [done|]. by rewrite callback_server_page_encodes.
Qed.

(** The state cookie that [/auth] of [main.py] sets is not in its answer,
    which is the redirect it returned (or the server error, when it
    raised); so the request Twitch sends the browser back with carries the
    state but no cookie, and [/callback] answers 400.  The answer of the
    stand-alone auth server has no cookie either *)
Theorem oauth_state_cookie_is_lost (tok code : string) (w : world) :
  set_cookie (fastapi_sends (auth E tok)) = []
  ∧ set_cookie (fastapi_sends (AuthServer.auth E tok)) = []
  ∧ callback E (Some code) (Some (token_urlsafe tok))
             (cookie_sent_back "oauth_state" (fastapi_sends (auth E tok))) w
    = (Raises (HTTPException 400 "Invalid OAuth callback (bad state or missing code)"), w).
Proof.
  assert (set_cookie (fastapi_sends (auth E tok)) = []) as Hmain.
  { unfold fastapi_sends, auth. cbn [returned_value].
    by destruct (urllib_parse_urlencode _ _). }
  split_and!; [done| |].
  - unfold fastapi_sends, AuthServer.auth. cbn [returned_value].
    by destruct (urllib_parse_urlencode _ _).
  - apply callback_rejects. right. unfold cookie_sent_back. by rewrite Hmain.
Qed.

(** The stand-alone callback server returns its page as content, so the
    cookie is sent; the request Twitch sends the browser back with passes
    the check and the code goes to Twitch *)
Theorem callback_server_keeps_state (tok code : string) (w : world) :
  falsy (Some code) = false → String.length tok = 16 →
  set_cookie (fastapi_sends (CallbackServer.auth tok))
  = [oauth_state_cookie (token_urlsafe tok)]
  ∧ ∃ rest,
      calls (CallbackServer.callback E (Some code) (Some (token_urlsafe tok))
               (cookie_sent_back "oauth_state"
                  (fastapi_sends (CallbackServer.auth tok))) w).2
      = calls w ++ PostToken code :: rest.
Proof.
  intros Hc Htok. destruct (callback_server_auth_run tok) as [_ Hcookie].
  split; [done|]. unfold cookie_sent_back. rewrite Hcookie.
  destruct (callback_server_passes E (Some code) (Some (token_urlsafe tok))
              (Some (token_urlsafe tok)) w Hc (token_urlsafe_truthy tok Htok) eq_refl)
    as (c' & rest & [= <-] & H).
  exists rest. rewrite <- H. reflexivity.
Qed.

End Cookie.

Section TokenFiles.

Variable E : env.

Lemma substring_all (p : string) : String.substring 0 (String.length p) p = p.
Proof. induction p as [|x p IH]; [done|]. cbn. by rewrite IH. Qed.

Lemma substring_skip (a p : string) :
  String.substring (String.length a) (String.length p) (a +:+ p) = p.
Proof. induction a as [|x a IH]; [apply substring_all | exact IH]. Qed.

Lemma substring_front (p rest : string) :
  String.substring 0 (String.length p) (p +:+ rest) = p.
Proof.
  induction p as [|x p IH]; [by destruct rest|].
  change (String x (String.substring 0 (String.length p) (p +:+ rest)) = String x p).
  by rewrite IH.
Qed.

Lemma startswith_app (p rest : string) : CallbackServer.startswith (p +:+ rest) p = true.
Proof. apply String.prefix_correct, substring_front. Qed.

Lemma endswith_app (a p : string) : CallbackServer.endswith (a +:+ p) p = true.
Proof.
  unfold CallbackServer.endswith. rewrite string_length_app.
  apply andb_true_iff. split; [apply Nat.leb_le; lia|].
  apply bool_decide_eq_true_2.
  replace (String.length a + String.length p - String.length p)
    with (String.length a) by lia.
  apply substring_skip.
Qed.

Lemma load_tokens_finds (mid : string) (listing : list string) :
  "tokens_" +:+ mid +:+ ".json" ∈ listing →
  "tokens_" +:+ mid +:+ ".json" ∈ CallbackServer.load_tokens listing.
Proof.
  intros Hin. unfold CallbackServer.load_tokens. apply list_elem_of_filter.
  split; [|done]. apply andb_true_iff. split; [apply startswith_app|].
  rewrite <- string_app_assoc'. apply endswith_app.
Qed.

Ltac cs_step H :=
  first [ rewrite request_run in H | rewrite raise_for_status_run in H
        | rewrite json_of_run in H | rewrite expr_run in H
        | rewrite json_dump_run in H | unfold raise, mret, IO_ret in H ];
  repeat case_match; simplify_eq.

(** The file the stand-alone callback server writes is one that its
    startup scan reports *)
Theorem callback_server_file_is_listed
    (code rs ss : option string) (w : world) (page : string) (w' : world) :
  CallbackServer.callback E code rs ss w = (Returns page, w') →
  ∃ name record,
    files w' = <[name := Decodes record]> (files w)
    ∧ ∀ listing, name ∈ listing → name ∈ CallbackServer.load_tokens listing.
Proof.
  unfold CallbackServer.callback. destruct (_ || _); [done|].
  intros H.
  do 8 (apply bind_returns in H as (? & ? & Hm & H); cs_step Hm).
  apply bind_returns in H as (user & ? & Hm & H).
  pose proof (subscript0_world _ _ _ _ Hm) as ->.
  do 7 (apply bind_returns in H as (? & ? & Hm' & H); cs_step Hm').
  unfold mret, IO_ret in H. simplify_eq. cbn [files logged].
  eexists _, _. split; [done|]. apply load_tokens_finds.
Qed.

End TokenFiles.

Section LoginPage.

Variable E : env.

Lemma urlencode_no_break (query : list (string * option string)) (safe : string) (c : ascii) :
  breaks_link c →
  (∀ x, in_safe safe x = true → x = ":"%char ∨ x = "+"%char ∨ x = " "%char) →
  in_string c ("https://id.twitch.tv/oauth2/authorize?" +:+ urlencode query safe) = false.
Proof.
  intros Hc Hsafe. rewrite in_string_app. apply orb_false_iff. split.
  { destruct Hc as [->|[->|[->| ->]]]; reflexivity. }
  destruct (in_string c (urlencode query safe)) eqn:Hin; [|done].
  apply urlencode_chars in Hin as [-> | [-> | [Hsp [H | [H | [-> | ->]]]]]].
  - destruct Hc as [?|[?|[?|?]]]; done.
  - destruct Hc as [?|[?|[?|?]]]; done.
  - destruct Hc as [->|[->|[->| ->]]]; done.
  - apply Hsafe in H as [->|[->| ->]]; destruct Hc as [?|[?|[?|?]]]; done.
  - destruct Hc as [?|[?|[?|?]]]; done.
  - destruct Hc as [?|[?|[?|?]]]; done.
Qed.

Lemma safe_colon_plus x : in_safe ":+" x = true → x = ":"%char ∨ x = "+"%char ∨ x = " "%char.
Proof.
  unfold in_safe. cbn [in_string]. rewrite orb_false_r.
  intros [[H|H]%orb_true_iff _]%andb_true_iff; apply Ascii.eqb_eq in H; auto.
Qed.

Lemma safe_colon_plus_space x :
  in_safe ":+ " x = true → x = ":"%char ∨ x = "+"%char ∨ x = " "%char.
Proof.
  unfold in_safe. cbn [in_string]. rewrite orb_false_r.
  intros [[H|[H|H]%orb_true_iff]%orb_true_iff _]%andb_true_iff;
    apply Ascii.eqb_eq in H; auto.
Qed.

(** The link in the login pages of the two stand-alone servers cannot be
    broken by the configuration or the state: the URL put between the
    quotes of [href] holds no quote, no angle bracket and no space.  The
    auth server builds its page when the client id and the redirect URI
    can be encoded as UTF-8, and raises otherwise; the callback server
    always builds its page *)
Theorem login_page_link_is_well_formed (tok : string) :
  (encodes (AuthServer.params E (token_urlsafe tok)) = true →
   ∃ url, returned_value (AuthServer.auth E tok)
          = Direct (HTMLResponse (AuthServer.login_page url))
          ∧ ∀ c, breaks_link c → in_string c url = false)
  ∧ (encodes (AuthServer.params E (token_urlsafe tok)) = false →
     returned_value (AuthServer.auth E tok) = Raised UnicodeEncodeError)
  ∧ (∃ url, returned_value (CallbackServer.auth tok)
            = Content (CallbackServer.login_page url)
            ∧ ∀ c, breaks_link c → in_string c url = false).
Proof.
  split_and!.
  - intros Henc. unfold AuthServer.auth, urllib_parse_urlencode.
    cbn [returned_value]. rewrite Henc. eexists. split; [reflexivity|].
    intros c Hc. apply urlencode_no_break; [done | apply safe_colon_plus].
  - intros Henc. unfold AuthServer.auth, urllib_parse_urlencode.
    cbn [returned_value]. by rewrite Henc.
  - destruct (callback_server_auth_run tok) as [-> _].
    eexists. split; [reflexivity|].
    intros c Hc. apply urlencode_no_break; [done | apply safe_colon_plus_space].
Qed.

End LoginPage.
(** * The claims at concrete inputs *)

Ltac compute_it := vm_compute; reflexivity.

Ltac no_take :=
  let H := fresh in
  intros H;
  repeat (apply elem_of_cons in H as [H|H]; [discriminate H|]);
  by apply elem_of_nil in H.

Lemma reachable_replay (evs : list event) :
  is_Some (run 555 evs init) → reachable 555 (replay evs).
Proof.
  intros [s Hs]. exists evs. unfold replay. by rewrite Hs.
Qed.

Lemma C1_witness :
  length (spins (replay (gathering ++ SendDone 1 false :: after_failure)))
  = length (spins (replay gathering))
  ∧ (∃ more,
        Queue.items (spin_queue (replay (gathering ++ SendDone 1 false :: after_failure)))
        = Queue.items (spin_queue (replay gathering)) ++ more)
  ∧ length (spins (replay (gathering ++ SendDone 1 false :: after_failure)))
    + length (Queue.items
                (spin_queue (replay (gathering ++ SendDone 1 false :: after_failure))))
    = length (Queue.put_log
                (spin_queue (replay (gathering ++ SendDone 1 false :: after_failure)))).
Proof.
  apply (C1_failed_send_strands_queued_triggers 555 (replay gathering) (replay (gathering ++ [SendDone 1 false]))
            (replay (gathering ++ SendDone 1 false :: after_failure))
            1 after_failure).
  - exists gathering. compute_it.
  - compute_it.
  - compute_it.
  - compute_it.
Defined.

Lemma C2_witness :
  proc (replay (gathering ++ [SendDone 1 false])) = Crashed TransportError
  ∧ clients (replay (gathering ++ [SendDone 1 false])) = clients (replay gathering)
  ∧ inflight (replay (gathering ++ [SendDone 1 false]))
    = inflight (replay gathering) ∖ {[1]}
  ∧ (∀ ws', ws' ∈ inflight (replay (gathering ++ [SendDone 1 false])) →
       ∃ s'', step 555 (SendDone ws' true) (replay (gathering ++ [SendDone 1 false]))
              = Some s''
              ∧ outbox s''
                = (now (replay (gathering ++ [SendDone 1 false])), ws', "spin")
                  :: outbox (replay (gathering ++ [SendDone 1 false])))
  ∧ (∀ evs s'', run 555 evs (replay (gathering ++ [SendDone 1 false])) = Some s'' →
       proc s'' = Crashed TransportError
       ∧ length (spins s'') = length (spins (replay gathering))).
Proof.
  apply (C2_failed_send_ends_the_processor 555 (replay gathering) (replay (gathering ++ [SendDone 1 false])) 1).
  - exists gathering. compute_it.
  - compute_it.
  - compute_it.
Defined.

Lemma C3_counterexample :
  clients_remove 1 {[1]} = Ok ∅ ∧ clients_remove 1 ∅ = Raise KeyError.
Proof. split; compute_it. Qed.

Lemma C4_witness :
  eventsub 555 (cheer 555) Queue.empty = (Ok status_ok, Queue.put "spin" Queue.empty)
  ∧ eventsub 555 (cheer 556) Queue.empty = (Ok status_ok, Queue.empty).
Proof.
  split.
  - refine (proj1 (C4_cheer_enqueues_iff_bits_equal_threshold 555 (cheer 555)
                      {[ "bits" := JInt 555; "user_name" := JStr "ann" ]}
                      {[ "type" := JStr "channel.cheer" ]}
                      555 Queue.empty _ _ _ _ _ _) _);
      try compute_it; try lia.
    exists (JStr "ann"). compute_it.
  - refine (proj2 (C4_cheer_enqueues_iff_bits_equal_threshold 555 (cheer 556)
                      {[ "bits" := JInt 556; "user_name" := JStr "ann" ]}
                      {[ "type" := JStr "channel.cheer" ]}
                      556 Queue.empty _ _ _ _ _ _) _);
      try compute_it; try lia.
    exists (JStr "ann"). compute_it.
Defined.

Lemma C6_witness :
  proc (replay (gathering ++ SendDone 1 false :: after_failure))
  = Crashed TransportError
  ∧ (∀ t, proc (replay (gathering ++ SendDone 1 false :: after_failure)) ≠ Cooling t)
  ∧ step 555 Wake (replay (gathering ++ SendDone 1 false :: after_failure)) = None
  ∧ step 555 Take (replay (gathering ++ SendDone 1 false :: after_failure)) = None.
Proof.
  apply (C6_failed_send_skips_the_cooldown 555 (replay gathering) (replay (gathering ++ [SendDone 1 false]))
            (replay (gathering ++ SendDone 1 false :: after_failure))
            1 after_failure).
  - exists gathering. compute_it.
  - compute_it.
  - compute_it.
  - compute_it.
Defined.

Lemma C7_witness :
  (∃ sp rest,
      spins (replay (before_spin ++ Take :: late_join)) = sp :: rest
      ∧ snapshot sp = clients (replay before_spin)
      ∧ delivered sp ⊆ clients (replay before_spin)
      ∧ ((proc (replay (before_spin ++ Take :: late_join)) = Idle
          ∨ ∃ t, proc (replay (before_spin ++ Take :: late_join)) = Cooling t) →
         delivered sp = clients (replay before_spin)))
  ∧ received 2 "spin" (replay (before_spin ++ Take :: late_join))
    = received 2 "spin" (replay before_spin)
  ∧ (2 ∈ clients (replay (before_spin ++ Take :: late_join)) →
     ∀ s3, step 555 Take (replay (before_spin ++ Take :: late_join)) = Some s3 →
           2 ∈ inflight s3
           ∧ ∃ sp' rest',
               spins s3 = sp' :: rest'
               ∧ snapshot sp' = clients (replay (before_spin ++ Take :: late_join))).
Proof.
  apply (C7_broadcast_goes_to_the_snapshot 555 (replay before_spin) (replay (before_spin ++ [Take]))
            (replay (before_spin ++ Take :: late_join)) late_join 2).
  - exists before_spin. compute_it.
  - compute_it.
  - vm_compute. discriminate.
  - unfold late_join. simpl. no_take.
  - compute_it.
Defined.

Lemma C8_witness :
  Forall (eq "spin") (Queue.put_log (spin_queue (replay gathering)))
  ∧ Forall (eq "spin") (Queue.items (spin_queue (replay gathering)))
  ∧ Forall (λ sp, token sp = "spin") (spins (replay gathering))
  ∧ (∀ tok q, Queue.get (spin_queue (replay gathering)) = Some (tok, q) →
              tok = "spin").
Proof.
  apply (C8_queue_holds_only_spin 555 (replay gathering)).
  exists gathering. compute_it.
Defined.

Lemma C9_witness :
  ∃ c, challenge_request !! "challenge" = Some c
       ∧ eventsub 555 challenge_request (Queue.put "spin" Queue.empty)
         = (if out_of_range c then Raise ValueError
            else if unencodable c then Raise UnicodeEncodeError
            else Ok (JDict {[ "challenge" := c ]}), Queue.put "spin" Queue.empty).
Proof.
  apply (C9_challenge_is_echoed_if_it_renders 555 challenge_request
           (Queue.put "spin" Queue.empty)).
  compute_it.
Defined.

Lemma C9_counterexample :
  truthy (dict_get challenge_nan "challenge") = true
  ∧ eventsub 555 challenge_nan Queue.empty = (Raise ValueError, Queue.empty)
  ∧ truthy (dict_get challenge_1e999 "challenge") = true
  ∧ eventsub 555 challenge_1e999 Queue.empty = (Raise ValueError, Queue.empty)
  ∧ truthy (dict_get challenge_surrogate "challenge") = true
  ∧ eventsub 555 challenge_surrogate Queue.empty
    = (Raise UnicodeEncodeError, Queue.empty).
Proof. split_and!; compute_it. Qed.

Lemma C10_witness :
  step 555 (WsMessage 1 "hello" true) (replay [WsConnect 1])
  = Some (send_text 1 "ack" (replay [WsConnect 1]))
  ∧ outbox (send_text 1 "ack" (replay [WsConnect 1]))
    = (now (replay [WsConnect 1]), 1, "ack") :: outbox (replay [WsConnect 1])
  ∧ spin_queue (send_text 1 "ack" (replay [WsConnect 1]))
    = spin_queue (replay [WsConnect 1])
  ∧ clients (send_text 1 "ack" (replay [WsConnect 1])) = clients (replay [WsConnect 1])
  ∧ proc (send_text 1 "ack" (replay [WsConnect 1])) = proc (replay [WsConnect 1])
  ∧ spins (send_text 1 "ack" (replay [WsConnect 1])) = spins (replay [WsConnect 1])
  ∧ step 555 (WsMessage 1 "hello" false) (replay [WsConnect 1])
    = Some (ws_finally 1 (replay [WsConnect 1]))
  ∧ spin_queue (ws_finally 1 (replay [WsConnect 1])) = spin_queue (replay [WsConnect 1])
  ∧ (∀ msg' ok, step 555 (WsMessage 1 "hello" ok) (replay [WsConnect 1])
                = step 555 (WsMessage 1 msg' ok) (replay [WsConnect 1])).
Proof.
  apply (C10_every_message_is_acked 555 (replay [WsConnect 1]) 1 "hello").
  vm_compute. reflexivity.
Defined.

Lemma empty_registry_spin_witness :
  proc (replay (lonely ++ [Take])) = Cooling (now (replay lonely) + COOLDOWN)
  ∧ inflight (replay (lonely ++ [Take])) = ∅
  ∧ outbox (replay (lonely ++ [Take])) = outbox (replay lonely)
  ∧ (∀ ws ok, step 555 (SendDone ws ok) (replay (lonely ++ [Take])) = None).
Proof.
  apply (empty_registry_spin 555 (replay lonely) (replay (lonely ++ [Take]))).
  - exists lonely. compute_it.
  - compute_it.
  - compute_it.
Defined.

Lemma cooldown_completes_witness :
  ∃ newer,
    spins (replay (lonely ++ Take :: next_spin)) = newer ++ spins (replay (lonely ++ [Take]))
    ∧ Forall (λ sp, 9 ≤ started sp) newer
    ∧ (newer = [] →
       proc (replay (lonely ++ Take :: next_spin)) = Cooling 9
       ∨ (proc (replay (lonely ++ Take :: next_spin)) = Idle
          ∧ 9 ≤ now (replay (lonely ++ Take :: next_spin)))).
Proof.
  apply (cooldown_completes 555 (replay (lonely ++ [Take]))
           (replay (lonely ++ Take :: next_spin)) 9 next_spin).
  - exists (lonely ++ [Take]). compute_it.
  - compute_it.
  - compute_it.
Defined.

Lemma spins_in_order_witness :
  reverse (token <$> spins (replay gathering))
    ++ Queue.items (spin_queue (replay gathering))
  = Queue.put_log (spin_queue (replay gathering))
  ∧ spaced (spins (replay gathering))
  ∧ Forall complete (tail (spins (replay gathering)))
  ∧ ((proc (replay gathering) = Idle ∨ ∃ t, proc (replay gathering) = Cooling t) →
     Forall complete (spins (replay gathering)))
  ∧ (∀ ws, received ws "spin" (replay gathering) = spun ws (replay gathering)).
Proof.
  apply (spins_in_order 555 (replay gathering)).
  exists gathering. compute_it.
Defined.

Lemma spins_drain_witness :
  ∃ s', run 555 (drain (replay gathering)) (replay gathering) = Some s'
        ∧ proc s' = Idle
        ∧ Queue.items (spin_queue s') = []
        ∧ reverse (token <$> spins s') = Queue.put_log (spin_queue (replay gathering))
        ∧ length (spins s') = length (Queue.put_log (spin_queue (replay gathering)))
        ∧ Forall complete (spins s')
        ∧ spaced (spins s').
Proof.
  apply (spins_drain 555 (replay gathering)).
  - exists gathering. compute_it.
  - intros e. vm_compute. discriminate.
Defined.

(** * The further properties at concrete inputs *)

Lemma eventsub_enqueues_only_matching_cheer_witness :
  eventsub 555 (cheer 555) Queue.empty = (Ok status_ok, Queue.put "spin" Queue.empty)
  ∧ truthy (dict_get (cheer 555) "challenge") = false
  ∧ (∃ stype,
        method_get (dict_get_default (cheer 555) "subscription" (JDict ∅)) "type"
        = Ok stype
        ∧ py_eq_str stype "channel.cheer" = true)
  ∧ (∃ ev bits user,
        cheer 555 !! "event" = Some ev
        ∧ subscript ev "bits" = Ok bits
        ∧ subscript ev "user_name" = Ok user
        ∧ py_eq_int bits 555 = true).
Proof.
  apply (eventsub_enqueues_only_matching_cheer 555 (cheer 555) Queue.empty).
  vm_compute. discriminate.
Defined.

Lemma eventsub_cheer_missing_fields_witness :
  (cheer_without_event !! "event" = None →
   eventsub 555 cheer_without_event Queue.empty = (Raise KeyError, Queue.empty))
  ∧ (∀ ev, cheer_without_event !! "event" = Some (JDict ev) → ev !! "bits" = None →
           eventsub 555 cheer_without_event Queue.empty = (Raise KeyError, Queue.empty))
  ∧ (∀ ev bits, cheer_without_event !! "event" = Some (JDict ev) →
                ev !! "bits" = Some bits → ev !! "user_name" = None →
                eventsub 555 cheer_without_event Queue.empty
                = (Raise KeyError, Queue.empty))
  ∧ (∀ v, cheer_without_event !! "event" = Some v → (∀ ev, v ≠ JDict ev) →
          eventsub 555 cheer_without_event Queue.empty = (Raise TypeError, Queue.empty)).
Proof.
  apply (eventsub_cheer_missing_fields 555 cheer_without_event
           {[ "type" := JStr "channel.cheer" ]} Queue.empty); compute_it.
Defined.

Lemma eventsub_ignores_other_types_witness :
  (follow !! "subscription" = None →
   eventsub 555 follow Queue.empty = (Ok status_ok, Queue.empty))
  ∧ (∀ sub, follow !! "subscription" = Some (JDict sub) →
            py_eq_str (dict_get sub "type") "channel.cheer" = false →
            eventsub 555 follow Queue.empty = (Ok status_ok, Queue.empty))
  ∧ (∀ v, follow !! "subscription" = Some v → (∀ sub, v ≠ JDict sub) →
          eventsub 555 follow Queue.empty = (Raise AttributeError, Queue.empty)).
Proof.
  apply (eventsub_ignores_other_types 555 follow Queue.empty). compute_it.
Defined.

Lemma server_sends_only_spin_and_ack_witness :
  0 ≤ now (replay (gathering ++ [SendDone 2 true]))
  ∧ ("spin" = "spin" ∨ "spin" = "ack")
  ∧ ("spin" = "spin" →
     ∃ sp, sp ∈ spins (replay (gathering ++ [SendDone 2 true]))
           ∧ 2 ∈ snapshot sp ∧ 2 ∈ delivered sp).
Proof.
  apply (server_sends_only_spin_and_ack 555 (replay (gathering ++ [SendDone 2 true]))
           0 2 "spin").
  - exists (gathering ++ [SendDone 2 true]). compute_it.
  - vm_compute. left.
Defined.

Lemma registry_tracks_handlers_witness :
  handlers (replay gathering) = clients (replay gathering)
  ∧ (∀ e s', step 555 e (replay gathering) = Some s' →
       clients s' = clients (replay gathering)
       ∨ (∃ ws, e = WsConnect ws ∧ (ws ∉ clients (replay gathering))
                ∧ clients s' = {[ws]} ∪ clients (replay gathering))
       ∨ (∃ ws, (e = WsDisconnect ws ∨ (∃ msg, e = WsMessage ws msg false))
                ∧ ws ∈ clients (replay gathering)
                ∧ clients s' = clients (replay gathering) ∖ {[ws]})).
Proof.
  apply (registry_tracks_handlers 555 (replay gathering)).
  exists gathering. compute_it.
Defined.

Lemma task_done_never_raises_witness :
  Queue.unfinished_tasks (spin_queue (replay gathering))
  = length (Queue.items (spin_queue (replay gathering))) + busy (proc (replay gathering))
  ∧ (∀ e, proc (replay gathering) = Crashed e → e = TransportError)
  ∧ (∀ t, proc (replay gathering) = Cooling t → t ≤ now (replay gathering) →
          ∃ s', step 555 Wake (replay gathering) = Some s' ∧ proc s' = Idle
                ∧ Queue.unfinished_tasks (spin_queue s')
                  = length (Queue.items (spin_queue s'))).
Proof.
  apply (task_done_never_raises 555 (replay gathering)).
  exists gathering. compute_it.
Defined.

Lemma busy_processor_queues_trigger_witness :
  ∃ s1 s',
    step 555 (ChatSpin mod_spin) (replay gathering) = Some s1
    ∧ proc s1 = proc (replay gathering)
    ∧ inflight s1 = inflight (replay gathering)
    ∧ spins s1 = spins (replay gathering)
    ∧ Queue.items (spin_queue s1)
      = Queue.items (spin_queue (replay gathering)) ++ ["spin"]
    ∧ run 555 (drain s1) s1 = Some s'
    ∧ Queue.items (spin_queue s') = []
    ∧ length (spins s') = S (length (Queue.put_log (spin_queue (replay gathering))))
    ∧ Forall complete (spins s').
Proof.
  apply (busy_processor_queues_trigger 555 (replay gathering) mod_spin).
  - exists gathering. compute_it.
  - intros e. vm_compute. discriminate.
  - compute_it.
  - compute_it.
Defined.

Lemma urlencode_separates_parameters_witness :
  count_char "=" (urlencode [("a b", Some "x&y=z"); ("k", None)] ":+") = 2
  ∧ count_char "&" (urlencode [("a b", Some "x&y=z"); ("k", None)] ":+") = 2 - 1
  ∧ count_char " " (urlencode [("a b", Some "x&y=z"); ("k", None)] ":+") = 0.
Proof.
  apply (urlencode_separates_parameters [("a b", Some "x&y=z"); ("k", None)] ":+");
    compute_it.
Defined.

Lemma auth_redirect_carries_state_witness :
  (∃ front,
      fastapi_sends (auth friendly drawn)
      = {| status_code := 307;
           location := Some ("https://id.twitch.tv/oauth2/authorize?" +:+ front
                             +:+ "&state=" +:+ token_urlsafe drawn
                             +:+ "&force_verify=true");
           set_cookie := [];
           body := EmptyString |}
      ∧ count_char "=" front = 4 ∧ count_char "&" front = 3
      ∧ count_char " " front = 0)
  ∧ returned_value (auth garbled drawn) = Raised UnicodeEncodeError
  ∧ fastapi_sends (auth garbled drawn) = server_error.
Proof.
  split.
  - apply (proj1 (auth_redirect_carries_state friendly drawn)). compute_it.
  - apply (proj2 (auth_redirect_carries_state garbled drawn)). compute_it.
Defined.

Lemma scope_parameter_is_plus_joined_witness :
  quote_plus (String.concat " " CallbackServer.SCOPES) ":+"
  = String.concat "+" CallbackServer.SCOPES
  ∧ quote_plus (String.concat "+" CallbackServer.SCOPES) ":+"
    = String.concat "+" CallbackServer.SCOPES
  ∧ quote_plus (String.concat " " CallbackServer.SCOPES) ":+ "
    = String.concat "+" CallbackServer.SCOPES.
Proof.
  apply (scope_parameter_is_plus_joined CallbackServer.SCOPES).
  repeat constructor; intros c;
    apply (all_chars_spec (λ c, always_safe c || Ascii.eqb c ":")); compute_it.
Defined.

Lemma lifespan_without_token_file_witness :
  lifespan friendly fresh = (Returns tt, logged fresh [StartSpinProcessor]).
Proof. apply (lifespan_without_token_file friendly fresh). compute_it. Defined.

Lemma lifespan_unreadable_token_file_witness :
  (files broken_disk !! "tokens_bean.json" = None →
   lifespan friendly broken_disk = (Raises FileNotFoundError, broken_disk))
  ∧ (files broken_disk !! "tokens_bean.json" = Some NotText →
     lifespan friendly broken_disk = (Raises UnicodeDecodeError, broken_disk))
  ∧ (files broken_disk !! "tokens_bean.json" = Some NotJson →
     lifespan friendly broken_disk = (Raises JSONDecodeError, broken_disk))
  ∧ (∀ v, files broken_disk !! "tokens_bean.json" = Some (Decodes v) →
          (∀ d, v ≠ JDict d) →
          lifespan friendly broken_disk = (Raises (Builtin TypeError), broken_disk))
  ∧ (∀ d, files broken_disk !! "tokens_bean.json" = Some (Decodes (JDict d)) →
          d !! "tokens" = None ∨ d !! "user" = None →
          lifespan friendly broken_disk = (Raises (Builtin KeyError), broken_disk))
  ∧ (∀ d creds user,
        files broken_disk !! "tokens_bean.json" = Some (Decodes (JDict d)) →
        d !! "tokens" = Some (JDict creds) → d !! "user" = Some (JDict user) →
        user !! "id" = None ∨ user !! "login" = None
        ∨ creds !! "access_token" = None →
        lifespan friendly broken_disk = (Raises (Builtin KeyError), broken_disk)).
Proof.
  apply (lifespan_unreadable_token_file friendly broken_disk "tokens_bean.json");
    compute_it.
Defined.

Lemma lifespan_starts_processor_last_witness :
  files (restarted friendly).2 = files (authorized friendly).2
  ∧ ∃ cs, (StartSpinProcessor ∉ cs)
          ∧ (((restarted friendly).1 = Returns tt
              ∧ calls (restarted friendly).2 = [] ++ cs ++ [StartSpinProcessor])
             ∨ (∃ e, (restarted friendly).1 = Raises e
                     ∧ calls (restarted friendly).2 = [] ++ cs)).
Proof.
  apply (lifespan_starts_processor_last friendly
           {| files := files (authorized friendly).2; calls := [] |}
           (restarted friendly).1 (restarted friendly).2).
  unfold restarted. by destruct (lifespan _ _).
Defined.

Lemma restart_resumes_what_callback_saved_witness :
  ∃ c name record bearer refresh uid login,
    Some "code" = Some c
    ∧ files (authorized friendly).2 = <[name := Decodes record]> (files fresh)
    ∧ calls (authorized friendly).2
      = calls fresh ++ [ PostToken c; GetUser bearer; WriteJson name record;
                         NewTwitch; SetUserAuthentication bearer refresh;
                         CreateEventsubSubscription uid;
                         StartChatListener bearer refresh login ]
    ∧ ∀ E' w2,
        head (glob E' (TOKENS_GLOB E') (files w2)) = Some name →
        files w2 !! name = Some (Decodes record) →
        lifespan E' w2
        = (_setup_twitch E' bearer refresh uid login
           ≫= λ _, record_call StartSpinProcessor) w2.
Proof.
  apply (restart_resumes_what_callback_saved friendly (Some "code") (Some "st4te")
           (Some "st4te") fresh
           (authorized_page friendly (JStr "Bean") "tokens_bean.json")
           (authorized friendly).2).
  compute_it.
Defined.

Lemma callback_saves_tokens_before_setup_witness :
  (Failed (SetUserAuthentication (JStr "at0") (JStr "rt0")) ≠ Failed NewTwitch →
   (∀ a b, Failed (SetUserAuthentication (JStr "at0") (JStr "rt0"))
           ≠ Failed (SetUserAuthentication a b)) →
   files (authorized (configured 200 false)).2 = files fresh)
  ∧ (Failed (SetUserAuthentication (JStr "at0") (JStr "rt0")) = Failed NewTwitch
     ∨ (∃ a b, Failed (SetUserAuthentication (JStr "at0") (JStr "rt0"))
               = Failed (SetUserAuthentication a b)) →
     ∃ name record,
       files (authorized (configured 200 false)).2
       = <[name := Decodes record]> (files fresh)
       ∧ ∀ w2,
           head (glob (configured 200 false) (TOKENS_GLOB (configured 200 false))
                      (files w2)) = Some name →
           files w2 !! name = Some (Decodes record) →
           ∃ cs, lifespan (configured 200 false) w2
                 = (Raises (Failed (SetUserAuthentication (JStr "at0") (JStr "rt0"))),
                    logged w2 cs)
                 ∧ (StartSpinProcessor ∉ cs)).
Proof.
  apply (callback_saves_tokens_before_setup (configured 200 false) (Some "code")
           (Some "st4te") (Some "st4te") fresh
           (Failed (SetUserAuthentication (JStr "at0") (JStr "rt0")))
           (authorized (configured 200 false)).2).
  compute_it.
Defined.

Lemma callback_accepts_absent_state_witness :
  (∃ rest, calls (callback friendly (Some "code") None None fresh).2
           = calls fresh ++ PostToken "code" :: rest)
  ∧ CallbackServer.callback friendly (Some "code") None None fresh
    = (Raises (HTTPException 400 "Invalid OAuth callback (missing code or bad state)"),
       fresh).
Proof. apply (callback_accepts_absent_state friendly "code" fresh). compute_it. Defined.

Lemma callback_server_token_error_witness :
  CallbackServer.callback (configured 400 true) (Some "code") (Some "st4te")
                          (Some "st4te") fresh
  = (Raises (Builtin TypeError), logged fresh [PostToken "code"]).
Proof.
  apply (callback_server_token_error (configured 400 true) "code" (Some "st4te")
           {| reply_status_code := 400; reply_status_error := true;
              reply_content := Decodes token_reply |} fresh);
    try compute_it.
  vm_compute. discriminate.
Defined.

Lemma callback_server_keeps_state_witness :
  set_cookie (fastapi_sends (CallbackServer.auth drawn))
  = [oauth_state_cookie (token_urlsafe drawn)]
  ∧ ∃ rest,
      calls (CallbackServer.callback friendly (Some "code") (Some (token_urlsafe drawn))
               (cookie_sent_back "oauth_state"
                  (fastapi_sends (CallbackServer.auth drawn))) fresh).2
      = calls fresh ++ PostToken "code" :: rest.
Proof.
  apply (callback_server_keeps_state friendly drawn "code" fresh); compute_it.
Defined.

Lemma callback_server_file_is_listed_witness :
  ∃ name record,
    files (CallbackServer.callback friendly (Some "code") (Some "st4te")
             (Some "st4te") fresh).2
    = <[name := Decodes record]> (files fresh)
    ∧ ∀ listing, name ∈ listing → name ∈ CallbackServer.load_tokens listing.
Proof.
  apply (callback_server_file_is_listed friendly (Some "code") (Some "st4te")
           (Some "st4te") fresh
           (CallbackServer.authorized_page friendly (JStr "Bean"))
           (CallbackServer.callback friendly (Some "code") (Some "st4te")
              (Some "st4te") fresh).2).
  compute_it.
Defined.
